(** * Dark-channel-prior dehazing (src/dehaze/dcp.py): a shallow embedding

    The Python module works on NumPy arrays of binary64 samples.  The
    embedding keeps NumPy's representation of an array (a shape and a
    row-major buffer) and reads every sample as an exact rational: the
    arithmetic is the one the code performs, without rounding, and a stage
    that would leave the finite numbers (a division by zero, the logarithm
    of a non-positive number) is made explicit.  Python exceptions are
    values of [exn]; a function that can raise returns a [result].

    Library primitives the module calls (numpy, numpy.linalg,
    scipy.ndimage, scipy.sparse) are modelled from their documented
    behaviour in the modules [Np], [Ndimage], [NdimageMorphology], [Mat3]
    and [Sparse]; the functions of dcp.py follow, under their own names.
    Rationals are kept in lowest terms ([Qred]) where a computation chains
    many operations; this changes no value. *)

From Stdlib Require Import String.
From Stdlib Require Import List ZArith QArith Qminmax Qround Qabs.
From Stdlib Require Import Reals Qreals Rpower.
From Stdlib Require Import Lia Psatz Bool Permutation Sorted.
From Stdlib Require Import Morphisms RelationClasses Setoid.
Import ListNotations.

Local Open Scope nat_scope.

(** ** Exceptions and results *)

Inductive exn : Set :=
| NotImplementedError
| TypeError
| ValueError
| IndexError
| RuntimeError
| LinAlgError
| ZeroDivisionError
| NonFinite.

Inductive result (A : Type) : Type :=
| Ok (a : A)
| Raise (e : exn).

Arguments Ok {A} a.
Arguments Raise {A} e.

Definition bind {A B : Type} (c : result A) (k : A -> result B) : result B :=
  match c with
  | Ok a => k a
  | Raise e => Raise e
  end.

Notation "x <- c ;; k" := (bind c (fun x => k))
  (at level 61, c at next level, right associativity).

(** ** Arrays *)

Record ndarray (A : Type) : Type := NDArray { shape : list nat; data : list A }.

Arguments NDArray {A} shape data.
Arguments shape {A} n.
Arguments data {A} n.

(** Number of elements of a shape. *)
Definition numel (s : list nat) : nat := fold_right Nat.mul 1 s.

(** The arrays NumPy can build: the buffer has as many elements as the shape says. *)
Definition wf_array {A : Type} (a : ndarray A) : Prop :=
  length (data a) = numel (shape a).

(** Row-major table of [h] rows and [w] columns. *)
Definition tabulate2 {A : Type} (h w : nat) (f : nat -> nat -> A) : list A :=
  flat_map (fun i => map (f i) (seq 0 w)) (seq 0 h).

(** Minimum of a non-empty list, scanned left to right. *)
Definition Qmin_list (l : list Q) : Q :=
  match l with
  | [] => 0%Q
  | x :: r => fold_left Qmin r x
  end.

Module Np.

(** [a[i, j]] of a 2-D array, [a[i, j, k]] of a 3-D one. *)
Definition get2 (a : ndarray Q) (i j : nat) : Q :=
  match shape a with
  | [_; w] => nth (i * w + j) (data a) 0%Q
  | _ => 0%Q
  end.

Definition get3 (a : ndarray Q) (i j k : nat) : Q :=
  match shape a with
  | [_; w; c] => nth ((i * w + j) * c + k) (data a) 0%Q
  | _ => 0%Q
  end.

(** [np.min(a, axis=-1)]: the last axis, of length [c], is reduced. *)
Definition amin_last (a : ndarray Q) : ndarray Q :=
  let c := last (shape a) 1 in
  let s := removelast (shape a) in
  NDArray s
    (map (fun q => Qmin_list (map (fun k => nth (q * c + k) (data a) 0%Q) (seq 0 c)))
         (seq 0 (numel s))).

(** [int(x)] of a Python float: truncation towards zero. *)
Definition int_of_float (x : Q) : Z := Z.quot (Qnum x) (Zpos (Qden x)).

(** [l[-n:]] for [n >= 1]: the last [n] items, all of them when [n] exceeds the length. *)
Definition take_last {A : Type} (n : nat) (l : list A) : list A :=
  skipn (length l - n) l.

(** [a[i] = v] on a flat buffer ([i] is in range wherever the module uses it). *)
Fixpoint put {A : Type} (l : list A) (i : nat) (v : A) : list A :=
  match l, i with
  | [], _ => []
  | _ :: r, O => v :: r
  | x :: r, S i' => x :: put r i' v
  end.

(** [a[indices] = v]. *)
Definition put_all {A : Type} (l : list A) (indices : list nat) (v : A) : list A :=
  fold_left (fun m i => put m i v) indices l.

(** Sum of a list of samples. *)
Definition Qsum (l : list Q) : Q := fold_right Qplus 0%Q l.

(** Multi-index of the flat position [k] in an array of shape [s], and back. *)
Fixpoint unravel (s : list nat) (k : nat) : list nat :=
  match s with
  | [] => []
  | _ :: s' => (k / numel s') :: unravel s' (k mod numel s')
  end.

Fixpoint ravel (s idx : list nat) : nat :=
  match s, idx with
  | _ :: s', i :: idx' => i * numel s' + ravel s' idx'
  | _, _ => 0
  end.

(** Broadcasting of two shapes, aligned on their last axes. *)
Fixpoint broadcast_rev (ra rb : list nat) : option (list nat) :=
  match ra, rb with
  | [], _ => Some rb
  | _, [] => Some ra
  | a :: ra', b :: rb' =>
      match broadcast_rev ra' rb' with
      | None => None
      | Some r =>
          if a =? b then Some (a :: r)
          else if a =? 1 then Some (b :: r)
          else if b =? 1 then Some (a :: r)
          else None
      end
  end.

Definition broadcast_shapes (sa sb : list nat) : option (list nat) :=
  option_map (@rev nat) (broadcast_rev (rev sa) (rev sb)).

(** Position, in the buffer of an operand of shape [s], of the element that
    broadcasting puts at flat position [k] of the result of shape [sout]:
    an axis of length 1 is read at index 0. *)
Definition bindex (s sout : list nat) (k : nat) : nat :=
  ravel s
    (map (fun di => if fst di =? 1 then 0 else snd di)
         (combine s (skipn (length sout - length s) (unravel sout k)))).

(** An element-wise binary operation with broadcasting; [None] from [f]
    marks a result that is not a finite number. *)
Definition broadcast2 (f : Q -> Q -> option Q) (a b : ndarray Q) : result (ndarray Q) :=
  match broadcast_shapes (shape a) (shape b) with
  | None => Raise ValueError
  | Some s =>
      let cell k :=
        f (nth (bindex (shape a) s k) (data a) 0%Q)
          (nth (bindex (shape b) s k) (data b) 0%Q) in
      if forallb (fun k => match cell k with Some _ => true | None => false end)
                 (seq 0 (numel s))
      then Ok (NDArray s (map (fun k => match cell k with Some v => v | None => 0%Q end)
                              (seq 0 (numel s))))
      else Raise NonFinite
  end.

Definition add (a b : ndarray Q) := broadcast2 (fun x y => Some (x + y)%Q) a b.
Definition subtract (a b : ndarray Q) := broadcast2 (fun x y => Some (x - y)%Q) a b.
Definition multiply (a b : ndarray Q) := broadcast2 (fun x y => Some (x * y)%Q) a b.
Definition divide (a b : ndarray Q) :=
  broadcast2 (fun x y => if Qeq_bool y 0 then None else Some (x / y)%Q) a b.

(** An element-wise unary operation. *)
Definition map_array {A B : Type} (f : A -> B) (a : ndarray A) : ndarray B :=
  NDArray (shape a) (map f (data a)).

(** [np.clip(a, a_min, a_max)]: [minimum(a_max, maximum(a, a_min))]. *)
Definition clip (a : ndarray Q) (a_min a_max : Q) : ndarray Q :=
  map_array (fun x => Qmin a_max (Qmax x a_min)) a.

(** [np.sum(a, axis=(0,1))] of an array with at least two axes. *)
Definition sum01 (a : ndarray Q) : ndarray Q :=
  let rest := skipn 2 (shape a) in
  let m := numel rest in
  let n := numel (firstn 2 (shape a)) in
  NDArray rest
    (map (fun r => Qsum (map (fun q => nth (q * m + r) (data a) 0%Q) (seq 0 n)))
         (seq 0 m)).

(** What [np.argsort] promises of its result: the indices of the buffer,
    each once, in ascending order of the values they point at.  The order
    among equal values is left to the sorting algorithm. *)
Definition is_argsort (l : list Q) (idx : list nat) : Prop :=
  Permutation idx (seq 0 (length l)) /\
  StronglySorted (fun i j => (nth i l 0 <= nth j l 0)%Q) idx.

(** An argsort: insertion of each index, from the last to the first, before
    the first index that holds a larger-or-equal value. *)
Fixpoint insert_index (l : list Q) (i : nat) (sorted : list nat) : list nat :=
  match sorted with
  | [] => [i]
  | j :: r =>
      if Qle_bool (nth i l 0%Q) (nth j l 0%Q) then i :: sorted
      else j :: insert_index l i r
  end.

Definition argsort (l : list Q) : list nat :=
  fold_right (insert_index l) [] (seq 0 (length l)).

End Np.

Module Ndimage.

(** One line of [minimum_filter1d] with [mode='nearest'] and origin 0: the
    window of [size] samples starts [size / 2] before position [i], and a
    position outside [0, n) reads the nearest end of the line. *)
Definition window_min (line : nat -> Q) (n size i : nat) : Q :=
  Qmin_list (map (fun d => line (Nat.min (i + d - size / 2) (n - 1))) (seq 0 size)).

(** [minimum_filter1d(input, size, axis)] on a 2-D array. *)
Definition minimum_filter1d (input : ndarray Q) (size : nat) (axis : nat) : ndarray Q :=
  match shape input with
  | [h; w] =>
      NDArray [h; w]
        (tabulate2 h w (fun i j =>
           if axis =? 0
           then window_min (fun i' => Np.get2 input i' j) h size i
           else window_min (fun j' => Np.get2 input i j') w size j))
  | _ => input
  end.

(** [minimum_filter(input, size, mode='nearest')] with a pair as [size]: the
    size sequence must have one entry per axis (RuntimeError otherwise); the
    filter is separable and runs one 1-D pass per axis whose size exceeds 1. *)
Definition minimum_filter (input : ndarray Q) (size : Z * Z) : result (ndarray Q) :=
  match shape input with
  | [_; _] =>
      let pass0 :=
        if (1 <? fst size)%Z then minimum_filter1d input (Z.to_nat (fst size)) 0
        else input in
      let pass1 :=
        if (1 <? snd size)%Z then minimum_filter1d pass0 (Z.to_nat (snd size)) 1
        else pass0 in
      Ok pass1
  | _ => Raise RuntimeError
  end.

End Ndimage.

(** ** dcp.py *)

(** [get_dark_channel(img, patch_size)]. *)
Definition get_dark_channel (img : ndarray Q) (patch_size : Z * Z) : result (ndarray Q) :=
  img_min <-
    match shape img with
    | [_; _; c] =>
        if c =? 3 then Ok (Np.amin_last img)
        else if c =? 1 then Ok img
        else Raise NotImplementedError
    | [_; _] => Ok img
    | _ => Raise NotImplementedError
    end ;;
  Ndimage.minimum_filter img_min patch_size.

(** The default [patch_size=(15,15)]. *)
Definition default_patch_size : Z * Z := (15%Z, 15%Z).

(** Values a keyword argument can carry. *)
Inductive pyval : Type :=
| PyNone
| PyBool (b : bool)
| PyInt (z : Z)
| PyFloat (q : Q)
| PyPair (a b : Z)
| PyMask (m : ndarray bool).

(** A [**kwargs] dictionary, in call order. *)
Definition kwargs : Type := list (string * pyval).

Definition kw_lookup (k : string) (kw : kwargs) : option pyval :=
  option_map snd (find (fun e => String.eqb (fst e) k) kw).

(** Binding [**kw] to a function whose keyword parameters are [names]: a
    key that is none of them is a TypeError (unexpected keyword argument). *)
Definition kw_accept (names : list string) (kw : kwargs) : result unit :=
  if forallb (fun e => existsb (String.eqb (fst e)) names) kw
  then Ok tt else Raise TypeError.

(** A number passed as a keyword argument. *)
Definition kw_number (k : string) (default : Q) (kw : kwargs) : result Q :=
  match kw_lookup k kw with
  | None => Ok default
  | Some (PyFloat q) => Ok q
  | Some (PyInt z) => Ok (inject_Z z)
  | Some _ => Raise TypeError
  end.

Definition kw_pair (k : string) (default : Z * Z) (kw : kwargs) : result (Z * Z) :=
  match kw_lookup k kw with
  | None => Ok default
  | Some (PyPair a b) => Ok (a, b)
  | Some _ => Raise TypeError
  end.

(** [_expand_A_as_B(A, B, left)]: one axis of length 1 is added, on the left
    or on the right, until [A] has as many axes as [B]. *)
Definition _expand_A_as_B {T U : Type} (A : ndarray T) (B : ndarray U) (left : bool)
  : ndarray T :=
  NDArray
    (Nat.iter (length (shape B) - length (shape A))
              (fun s => if left then 1 :: s else s ++ [1])
              (shape A))
    (data A).

Section WithArgsort.

(** [np.argsort], whose order among ties the library does not fix. *)
Variable np_argsort : list Q -> list nat.

(** [get_mask(dc, top_ratio)]. *)
Definition get_mask (dc : ndarray Q) (top_ratio : Q) : result (ndarray bool) :=
  match shape dc with
  | h :: w :: _ =>
      let numpix :=
        Z.max (Np.int_of_float (inject_Z (Z.of_nat (h * w)) * top_ratio)) 1 in
      let dc_flatten := data dc in
      let indices := Np.take_last (Z.to_nat numpix) (np_argsort dc_flatten) in
      let mask := repeat false (length dc_flatten) in
      let mask := Np.put_all mask indices true in
      Ok (NDArray (shape dc) mask)
  | _ => Raise IndexError
  end.

(** [get_atmos_light(im, dc, top_ratio)]. *)
Definition get_atmos_light (im dc : ndarray Q) (top_ratio : Q) : result (ndarray Q) :=
  match shape dc with
  | h :: w :: rest =>
      let numpix :=
        Z.max (Np.int_of_float (inject_Z (Z.of_nat (h * w)) * top_ratio)) 1 in
      let dc_flatten := data dc in
      let indices := Np.take_last (Z.to_nat numpix) (np_argsort dc_flatten) in
      let mask := repeat 0%Q (length dc_flatten) in
      let mask := Np.put_all mask indices 1%Q in
      mask <-
        match length (shape im) with
        | 3 => Ok (NDArray (h :: w :: 1 :: rest) mask)
        | 2 => Ok (NDArray (shape dc) mask)
        | _ => Raise NotImplementedError
        end ;;
      res <- Np.multiply mask im ;;
      Ok (Np.map_array (fun x => (x / inject_Z numpix)%Q) (Np.sum01 res))
  | _ => Raise IndexError
  end.

End WithArgsort.

(** [get_tilde_t(im, A, omega, **kwarg)]: the extra keywords go to
    [get_dark_channel], whose only keyword parameters are [img] (already
    given) and [patch_size]. *)
Definition get_tilde_t (im A : ndarray Q) (omega : Q) (kwarg : kwargs)
  : result (ndarray Q) :=
  let A := _expand_A_as_B A im true in
  im_A <- Np.divide im A ;;
  _ <- kw_accept ["patch_size"%string] kwarg ;;
  patch_size <- kw_pair "patch_size" default_patch_size kwarg ;;
  dc <- get_dark_channel im_A patch_size ;;
  Ok (Np.map_array (fun x => (1 - omega * x)%Q) dc).

Definition default_omega : Q := 95 # 100.

(** [get_J(I, A, t, t0, clip)]. *)
Definition get_J (I A t : ndarray Q) (t0 : Q) (clip : bool) : result (ndarray Q) :=
  let A := _expand_A_as_B A I true in
  let t := Np.clip t t0 1 in
  let t := _expand_A_as_B t I false in
  d <- Np.subtract I A ;;
  q <- Np.divide d t ;;
  res <- Np.add q A ;;
  Ok (if clip then Np.clip res 0 1 else res).

Definition default_t0 : Q := 1 # 10.

(** ** 3-vectors and 3x3 matrices: the colour statistics of a window *)

Module Mat3.

Local Open Scope Q_scope.

Record vec : Type := Vec { vx : Q; vy : Q; vz : Q }.

Record mat : Type := Mat {
  m00 : Q; m01 : Q; m02 : Q;
  m10 : Q; m11 : Q; m12 : Q;
  m20 : Q; m21 : Q; m22 : Q }.

Definition vzero : vec := Vec 0 0 0.
Definition vadd (a b : vec) : vec := Vec (vx a + vx b) (vy a + vy b) (vz a + vz b).
Definition vsub (a b : vec) : vec := Vec (vx a - vx b) (vy a - vy b) (vz a - vz b).
Definition vdiv (a : vec) (k : Q) : vec := Vec (vx a / k) (vy a / k) (vz a / k).
Definition dot (a b : vec) : Q := vx a * vx b + vy a * vy b + vz a * vz b.
Definition vsum (l : list vec) : vec := fold_right vadd vzero l.

Definition mzero : mat := Mat 0 0 0 0 0 0 0 0 0.
Definition eye : mat := Mat 1 0 0 0 1 0 0 0 1.

Definition madd (a b : mat) : mat :=
  Mat (m00 a + m00 b) (m01 a + m01 b) (m02 a + m02 b)
      (m10 a + m10 b) (m11 a + m11 b) (m12 a + m12 b)
      (m20 a + m20 b) (m21 a + m21 b) (m22 a + m22 b).

Definition msub (a b : mat) : mat :=
  Mat (m00 a - m00 b) (m01 a - m01 b) (m02 a - m02 b)
      (m10 a - m10 b) (m11 a - m11 b) (m12 a - m12 b)
      (m20 a - m20 b) (m21 a - m21 b) (m22 a - m22 b).

Definition mscale (k : Q) (a : mat) : mat :=
  Mat (k * m00 a) (k * m01 a) (k * m02 a)
      (k * m10 a) (k * m11 a) (k * m12 a)
      (k * m20 a) (k * m21 a) (k * m22 a).

Definition mdiv (a : mat) (k : Q) : mat :=
  Mat (m00 a / k) (m01 a / k) (m02 a / k)
      (m10 a / k) (m11 a / k) (m12 a / k)
      (m20 a / k) (m21 a / k) (m22 a / k).

(** The column [a] times the row [b]. *)
Definition outer (a b : vec) : mat :=
  Mat (vx a * vx b) (vx a * vy b) (vx a * vz b)
      (vy a * vx b) (vy a * vy b) (vy a * vz b)
      (vz a * vx b) (vz a * vy b) (vz a * vz b).

(** [X.T @ X] for the matrix whose rows are the vectors of [l]. *)
Definition gram (l : list vec) : mat :=
  fold_right madd mzero (map (fun x => outer x x) l).

(** The row [v] times the matrix [m]. *)
Definition vecmat (v : vec) (m : mat) : vec :=
  Vec (vx v * m00 m + vy v * m10 m + vz v * m20 m)
      (vx v * m01 m + vy v * m11 m + vz v * m21 m)
      (vx v * m02 m + vy v * m12 m + vz v * m22 m).

Definition det (m : mat) : Q :=
  m00 m * (m11 m * m22 m - m12 m * m21 m)
  - m01 m * (m10 m * m22 m - m12 m * m20 m)
  + m02 m * (m10 m * m21 m - m11 m * m20 m).

(** The same matrix, each entry in lowest terms. *)
Definition mred (m : mat) : mat :=
  Mat (Qred (m00 m)) (Qred (m01 m)) (Qred (m02 m))
      (Qred (m10 m)) (Qred (m11 m)) (Qred (m12 m))
      (Qred (m20 m)) (Qred (m21 m)) (Qred (m22 m)).

(** [np.linalg.inv]: the inverse (here by cofactors, which in exact
    arithmetic is the matrix every method computes), LinAlgError for a
    singular matrix. *)
Definition inv (m : mat) : result mat :=
  let d := det m in
  if Qeq_bool d 0 then Raise LinAlgError
  else Ok (mred (Mat ((m11 m * m22 m - m12 m * m21 m) / d)
                     ((m02 m * m21 m - m01 m * m22 m) / d)
                     ((m01 m * m12 m - m02 m * m11 m) / d)
                     ((m12 m * m20 m - m10 m * m22 m) / d)
                     ((m00 m * m22 m - m02 m * m20 m) / d)
                     ((m02 m * m10 m - m00 m * m12 m) / d)
                     ((m10 m * m21 m - m11 m * m20 m) / d)
                     ((m01 m * m20 m - m00 m * m21 m) / d)
                     ((m00 m * m11 m - m01 m * m10 m) / d))).

End Mat3.

(** ** Sparse matrices (scipy.sparse) *)

Module Sparse.

(** A matrix in coordinate form: entries (row, column, value); the value of
    a position is the sum of the entries that name it. *)
Record matrix : Type := Matrix { nrows : nat; ncols : nat; entries : list (nat * nat * Q) }.

Definition get (m : matrix) (r c : nat) : Q :=
  Np.Qsum (map (fun e => if (fst (fst e) =? r) && (snd (fst e) =? c) then snd e else 0%Q)
               (entries m)).

(** [coo_matrix((vals, (rows, cols)), shape=(n, n))]. *)
Definition coo_matrix (triples : list (nat * nat * Q)) (n : nat) : result matrix :=
  if forallb (fun e => (fst (fst e) <? n) && (snd (fst e) <? n)) triples
  then Ok (Matrix n n triples) else Raise ValueError.

(** [np.array(np.sum(A, axis=1)).squeeze()]: the row sums. *)
Definition row_sums (m : matrix) : list Q :=
  map (fun r => Np.Qsum (map (fun e => if fst (fst e) =? r then snd e else 0%Q) (entries m)))
      (seq 0 (nrows m)).

(** [diags(d, 0, (n, n))]. *)
Definition diags (d : list Q) (n : nat) : result matrix :=
  if length d =? n then Ok (Matrix n n (map (fun i => (i, i, nth i d 0%Q)) (seq 0 n)))
  else Raise ValueError.

Definition same_shape (a b : matrix) : bool :=
  (nrows a =? nrows b) && (ncols a =? ncols b).

Definition add (a b : matrix) : result matrix :=
  if same_shape a b then Ok (Matrix (nrows a) (ncols a) (entries a ++ entries b))
  else Raise ValueError.

Definition sub (a b : matrix) : result matrix :=
  if same_shape a b
  then Ok (Matrix (nrows a) (ncols a)
             (entries a ++ map (fun e => (fst e, (- snd e)%Q)) (entries b)))
  else Raise ValueError.

Definition scale (k : Q) (a : matrix) : matrix :=
  Matrix (nrows a) (ncols a) (map (fun e => (fst e, (k * snd e)%Q)) (entries a)).

(** [A @ x]. *)
Definition matvec (m : matrix) (x : list Q) : list Q :=
  map (fun r => Np.Qsum (map (fun e => if fst (fst e) =? r
                                       then (snd e * nth (snd (fst e)) x 0)%Q else 0%Q)
                             (entries m)))
      (seq 0 (nrows m)).

(** The operations of the solvers keep their rationals in lowest terms. *)
Definition vdot (x y : list Q) : Q :=
  Qred (Np.Qsum (map (fun xy => (fst xy * snd xy)%Q) (combine x y))).

Definition axpy (k : Q) (x y : list Q) : list Q :=
  map (fun xy => Qred (k * fst xy + snd xy)) (combine x y).

(** The state of the conjugate-gradient iteration. *)
Record cg_state : Type := CgState {
  cg_x : list Q; cg_r : list Q; cg_p : list Q; cg_rho_prev : Q }.

(** One turn of the loop of [scipy.sparse.linalg.cg] without
    preconditioner; [first] is the turn of iteration 0.  A zero
    denominator leaves the finite numbers. *)
Definition cg_step (A : matrix) (first : bool) (s : cg_state) : result cg_state :=
  let z := cg_r s in
  let rho_cur := vdot (cg_r s) z in
  p <- (if first then Ok z
        else if Qeq_bool (cg_rho_prev s) 0 then Raise NonFinite
        else Ok (axpy (Qred (rho_cur / cg_rho_prev s)) (cg_p s) z)) ;;
  let q := map Qred (matvec A p) in
  let pq := vdot p q in
  if Qeq_bool pq 0 then Raise NonFinite
  else
    let alpha := Qred (rho_cur / pq) in
    Ok (CgState (axpy alpha p (cg_x s)) (axpy (- alpha) q (cg_r s)) p rho_cur).

(** [for iteration in range(maxiter)]: [todo] turns are left; the residual
    norm is compared with [atol] through the squares. *)
Fixpoint cg_loop (A : matrix) (atol2 : Q) (maxiter todo : nat) (s : cg_state)
  : result (list Q * Z) :=
  match todo with
  | O => Ok (cg_x s, Z.of_nat maxiter)
  | S todo' =>
      if negb (Qle_bool atol2 (vdot (cg_r s) (cg_r s))) then Ok (cg_x s, 0%Z)
      else
        s' <- cg_step A (maxiter =? todo) s ;;
        cg_loop A atol2 maxiter todo' s'
  end.

(** [scipy.sparse.linalg.cg(A, b)] with its defaults: [x0 = 0],
    [rtol = 1e-5], [atol = 0], [maxiter = 10 n], no preconditioner.  The
    second component is [info]: 0 when the tolerance was reached, the
    number of iterations otherwise. *)
Definition cg (A : matrix) (b : list Q) : result (list Q * Z) :=
  if negb ((nrows A =? ncols A) && (length b =? nrows A)) then Raise ValueError
  else
    let bnrm2_sq := vdot b b in
    if Qeq_bool bnrm2_sq 0 then Ok (b, 0%Z)
    else
      let rtol : Q := 1 # 100000 in
      let maxiter := length b * 10 in
      cg_loop A (rtol * rtol * bnrm2_sq)%Q maxiter maxiter
              (CgState (repeat 0%Q (length b)) b [] 0%Q).


(** The dense rows of a matrix, each followed by the entry of [b] of its row. *)
Definition augmented (A : matrix) (b : list Q) : list (list Q) :=
  map (fun r => map (fun c => Qred (get A r c)) (seq 0 (ncols A)) ++ [Qred (nth r b 0%Q)])
      (seq 0 (nrows A)).

(** The first row with a non-zero entry in column [k], and the other rows. *)
Fixpoint find_pivot (k : nat) (rows : list (list Q)) : option (list Q * list (list Q)) :=
  match rows with
  | [] => None
  | row :: rest =>
      if Qeq_bool (nth k row 0%Q) 0 then
        match find_pivot k rest with
        | None => None
        | Some (piv, others) => Some (piv, row :: others)
        end
      else Some (row, rest)
  end.

(** Elimination, column by column: the pivot row is scaled to 1 in its
    column and subtracted from all others. *)
Fixpoint eliminate (cols : list nat) (done todo : list (list Q)) : result (list (list Q)) :=
  match cols with
  | [] => Ok done
  | k :: cols' =>
      match find_pivot k todo with
      | None => Raise NonFinite
      | Some (piv, others) =>
          let piv := map (fun a => Qred (a / nth k piv 0%Q)) piv in
          let clear row :=
            map (fun ab => Qred (fst ab - nth k row 0%Q * snd ab)) (combine row piv) in
          eliminate cols' (map clear done ++ [piv]) (map clear others)
      end
  end.

(** [scipy.sparse.linalg.spsolve(A, b)]: a direct solve, in exact
    arithmetic the solution of the system; for a singular matrix the
    library warns and returns [nan]. *)
Definition spsolve (A : matrix) (b : list Q) : result (list Q) :=
  if negb ((nrows A =? ncols A) && (length b =? nrows A)) then Raise ValueError
  else
    rows <- eliminate (seq 0 (ncols A)) [] (augmented A b) ;;
    Ok (map (fun row => last row 0%Q) rows).

End Sparse.

Module NdimageMorphology.

(** [binary_erosion(input, structure=np.ones((k, k)))] on a 2-D mask, with
    the default border value 0: a pixel stays set when every pixel under
    the structuring element, centred on it, is inside the mask and set. *)
Definition binary_erosion (input : ndarray bool) (k : nat) : result (ndarray bool) :=
  match shape input with
  | [h; w] =>
      Ok (NDArray [h; w]
            (tabulate2 h w (fun i j =>
               forallb (fun a =>
                 forallb (fun b =>
                   (k / 2 <=? i + a) && (i + a - k / 2 <? h) &&
                   (k / 2 <=? j + b) && (j + b - k / 2 <? w) &&
                   nth ((i + a - k / 2) * w + (j + b - k / 2)) (data input) false)
                   (seq 0 k))
                 (seq 0 k))))
  | _ => Raise RuntimeError
  end.

End NdimageMorphology.

(** The colour of pixel [q] (row-major) of an image with 3 channels. *)
Definition pixel (I : ndarray Q) (q : nat) : Mat3.vec :=
  Mat3.Vec (nth (q * 3) (data I) 0%Q) (nth (q * 3 + 1) (data I) 0%Q)
           (nth (q * 3 + 2) (data I) 0%Q).

(** [indsM[i - r : i + r + 1, j - r : j + r + 1].flatten()] for an interior
    pixel [(i, j)] of an image of width [w]. *)
Definition window_indices (w win_size i j : nat) : list nat :=
  flat_map (fun a => map (fun b => (i - win_size + a) * w + (j - win_size + b))
                         (seq 0 (2 * win_size + 1)))
           (seq 0 (2 * win_size + 1)).

(** The covariance of the colours of a window, regularised, as the argument
    of [np.linalg.inv] (its entries in lowest terms). *)
Definition window_covariance (winI : list Mat3.vec) (neb_size eps : Q) : Mat3.mat :=
  let win_mu := Mat3.vdiv (Mat3.vsum winI) neb_size in
  Mat3.mred
    (Mat3.madd
       (Mat3.msub (Mat3.mdiv (Mat3.gram winI) neb_size) (Mat3.outer win_mu win_mu))
       (Mat3.mscale (eps / neb_size) Mat3.eye)).

(** The body of the double loop for the window centred on [(i, j)]: the
    coordinate entries it appends.  Position [a * neb_size + b] of the three
    buffers holds the row index [win_inds[b]], the column index
    [win_inds[a]] and the value [tvals[a, b]] (in lowest terms). *)
Definition window_entries (I : ndarray Q) (w c win_size : nat) (eps : Q) (i j : nat)
  : result (list (nat * nat * Q)) :=
  let neb_size := inject_Z (Z.of_nat ((2 * win_size + 1) ^ 2)) in
  let win_inds := window_indices w win_size i j in
  if negb (c =? 3) then Raise ValueError
  else
    let winI := map (pixel I) win_inds in
    let win_mu := Mat3.vdiv (Mat3.vsum winI) neb_size in
    win_var <- Mat3.inv (window_covariance winI neb_size eps) ;;
    let winI := map (fun x => Mat3.vsub x win_mu) winI in
    let win := combine win_inds winI in
    Ok (flat_map (fun ka =>
          map (fun kb =>
                 (fst kb, fst ka,
                  Qred ((1 + Mat3.dot (Mat3.vecmat (snd ka) win_var) (snd kb)) / neb_size)))
              win)
          win).

(** The pixels whose window lies inside the image, in the order of the
    loops: [for j in range(r, w - r): for i in range(r, h - r)]. *)
Definition window_centers (h w win_size : nat) : list (nat * nat) :=
  flat_map (fun j => map (fun i => (i, j)) (seq win_size (h - win_size - win_size)))
           (seq win_size (w - win_size - win_size)).

(** The test [consts is not None and consts[i, j]] on the eroded mask. *)
Definition skip_window (consts : option (ndarray bool)) (i j : nat) : result bool :=
  match consts with
  | None => Ok false
  | Some m =>
      match shape m with
      | [h'; w'] =>
          if (i <? h') && (j <? w') then Ok (nth (i * w' + j) (data m) false)
          else Raise IndexError
      | _ => Raise IndexError
      end
  end.

Fixpoint laplace_loop (I : ndarray Q) (w c win_size : nat) (eps : Q)
    (consts : option (ndarray bool)) (centers : list (nat * nat))
  : result (list (nat * nat * Q)) :=
  match centers with
  | [] => Ok []
  | (i, j) :: rest =>
      skip <- skip_window consts i j ;;
      here <- (if skip then Ok [] else window_entries I w c win_size eps i j) ;;
      later <- laplace_loop I w c win_size eps consts rest ;;
      Ok (here ++ later)
  end.

(** The first part of [get_laplace_matting_matrix]: the matrix [A] that
    accumulates the affinities of all windows. *)
Definition affinity_matrix (I : ndarray Q) (consts : option (ndarray bool))
    (eps : Q) (win_size : nat) : result Sparse.matrix :=
  match shape I with
  | [h; w; c] =>
      let img_size := h * w in
      consts <-
        match consts with
        | None => Ok None
        | Some m =>
            m' <- NdimageMorphology.binary_erosion m (win_size * 2 + 1) ;;
            Ok (Some m')
        end ;;
      (* np.zeros(tlen) with a negative tlen *)
      _ <- (match consts with
            | None =>
                if ((Z.of_nat h - 2 * Z.of_nat win_size) *
                    (Z.of_nat w - 2 * Z.of_nat win_size) <? 0)%Z
                then Raise ValueError else Ok tt
            | Some _ => Ok tt
            end) ;;
      triples <- laplace_loop I w c win_size eps consts (window_centers h w win_size) ;;
      Sparse.coo_matrix triples img_size
  | _ => Raise ValueError
  end.

(** [get_laplace_matting_matrix(I, consts, eps, win_size)]. *)
Definition get_laplace_matting_matrix (I : ndarray Q) (consts : option (ndarray bool))
    (eps : Q) (win_size : nat) : result Sparse.matrix :=
  A <- affinity_matrix I consts eps win_size ;;
  let img_size := Sparse.nrows A in
  let sumA := Sparse.row_sums A in
  (* a single row sum is squeezed to a 0-d array, which diags cannot size *)
  _ <- (if img_size =? 1 then Raise TypeError else Ok tt) ;;
  D <- Sparse.diags sumA img_size ;;
  Sparse.sub D A.

Definition default_eps : Q := 1 # 10000000.
Definition default_win_size : nat := 1.
Definition default_lam : Q := 1 # 10000.

(** The keyword arguments [consts], [eps] and [win_size]. *)
Definition kw_consts (kw : kwargs) : result (option (ndarray bool)) :=
  match kw_lookup "consts" kw with
  | None | Some PyNone => Ok None
  | Some (PyMask m) => Ok (Some m)
  | Some _ => Raise TypeError
  end.

Definition kw_win_size (kw : kwargs) : result nat :=
  match kw_lookup "win_size" kw with
  | None => Ok default_win_size
  | Some (PyInt z) => if (z <? 0)%Z then Raise ValueError else Ok (Z.to_nat z)
  | Some _ => Raise TypeError
  end.

Section WithSolvers.

(** The two solvers of scipy.sparse.linalg, each a black box:
    [cg(A, b)] returns an iterate and the flag [info];
    [spsolve(A, b)] returns a vector. *)
Variable linalg_cg : Sparse.matrix -> list Q -> result (list Q * Z).
Variable linalg_spsolve : Sparse.matrix -> list Q -> result (list Q).

(** [L + lam * diags([1] * L.shape[0], 0)]. *)
Definition regularized (L : Sparse.matrix) (lam : Q) : result Sparse.matrix :=
  E <- Sparse.diags (repeat 1%Q (Sparse.nrows L)) (Sparse.nrows L) ;;
  Sparse.add L (Sparse.scale lam E).

(** [t.reshape(p.shape)]. *)
Definition reshape_like (t : list Q) (p : ndarray Q) : result (ndarray Q) :=
  if length t =? numel (shape p) then Ok (NDArray (shape p) t) else Raise ValueError.

(** [soft_matting(I, p, lam, **kwargs)]: the keywords go to
    [get_laplace_matting_matrix], which knows [consts], [eps] and
    [win_size] besides [I]. *)
Definition soft_matting (I p : ndarray Q) (lam : Q) (kw : kwargs) : result (ndarray Q) :=
  _ <- kw_accept ["consts"; "eps"; "win_size"]%string kw ;;
  consts <- kw_consts kw ;;
  eps <- kw_number "eps" default_eps kw ;;
  win_size <- kw_win_size kw ;;
  L <- get_laplace_matting_matrix I consts eps win_size ;;
  M <- regularized L lam ;;
  t_info <- linalg_cg M (map (Qmult lam) (data p)) ;;
  reshape_like (fst t_info) p.

(** [get_t(L, tilde_t, lam)]. *)
Definition get_t (L : Sparse.matrix) (tilde_t : ndarray Q) (lam : Q) : result (ndarray Q) :=
  M <- regularized L lam ;;
  t <- linalg_spsolve M (map (Qmult lam) (data tilde_t)) ;;
  reshape_like t tilde_t.

End WithSolvers.

(** ** Depth *)

(** A binary64 result that need not be finite.  Only [get_depth], the last
    stage, produces such values element by element. *)
Inductive xreal : Type :=
| Finite (r : R)
| PlusInf
| MinusInf
| NaN.

(** [- np.log(t) / beta] for one sample: the logarithm of 0 is [-inf], that
    of a negative number [nan]; a finite quotient by 0 is infinite with the
    sign of the numerator, or [nan] for 0 / 0 (at [t = 1]). *)
Definition depth_of (beta t : Q) : xreal :=
  if Qeq_bool beta 0 then
    (if Qle_bool t 0 then (if Qeq_bool t 0 then PlusInf else NaN)
     else if Qeq_bool t 1 then NaN
     else if Qle_bool t 1 then PlusInf else MinusInf)
  else if Qle_bool t 0 then
    (if Qeq_bool t 0 then (if Qle_bool 0 beta then PlusInf else MinusInf) else NaN)
  else Finite (- ln (Q2R t) / Q2R beta)%R.

(** [get_depth(t, beta)]. *)
Definition get_depth (t : ndarray Q) (beta : Q) : ndarray xreal :=
  Np.map_array (depth_of beta) t.

Definition default_beta : Q := 388 # 1000.

(** ** Guided filters *)

(** [_rgb2gray(A)]. *)
Definition _rgb2gray (A : ndarray Q) : ndarray Q :=
  let s := removelast (shape A) in
  let c := last (shape A) 1 in
  NDArray s
    (map (fun q =>
            ((2989 # 10000) * nth (q * c) (data A) 0 +
             (5870 # 10000) * nth (q * c + 1) (data A) 0 +
             (1140 # 10000) * nth (q * c + 2) (data A) 0)%Q)
         (seq 0 (numel s))).

(** [np.ones(ks)] divided by its sum. *)
Definition box_kernel (ks : Z * Z) : result (ndarray Q) :=
  if ((fst ks <? 0) || (snd ks <? 0))%Z then Raise ValueError
  else
    let k0 := Z.to_nat (fst ks) in
    let k1 := Z.to_nat (snd ks) in
    Ok (NDArray [k0; k1] (repeat (1 / inject_Z (Z.of_nat (k0 * k1)))%Q (k0 * k1))).

Section WithImageLibraries.

(** [scipy.ndimage.convolve(input, weights, mode="nearest")] and
    [skimage.transform.resize(image, output_shape)], taken as they are. *)
Variable ndimage_convolve : ndarray Q -> ndarray Q -> result (ndarray Q).
Variable transform_resize : ndarray Q -> list nat -> result (ndarray Q).

(** The statistics shared by the two filters: from the guide [I], the
    input [p] and the kernel to the averaged coefficients
    [(mean_a, mean_b)]. *)
Definition linear_coefficients (I p filter_mean : ndarray Q) (eps : Q)
  : result (ndarray Q * ndarray Q) :=
  mean_I <- ndimage_convolve I filter_mean ;;
  mean_p <- ndimage_convolve p filter_mean ;;
  Ip <- Np.multiply I p ;;
  corr_Ip <- ndimage_convolve Ip filter_mean ;;
  II <- Np.multiply I I ;;
  corr_I <- ndimage_convolve II filter_mean ;;
  mI2 <- Np.multiply mean_I mean_I ;;
  var_I <- Np.subtract corr_I mI2 ;;
  mIp <- Np.multiply mean_I mean_p ;;
  cov_Ip <- Np.subtract corr_Ip mIp ;;
  a <- Np.divide cov_Ip (Np.map_array (fun x => (x + eps)%Q) var_I) ;;
  amI <- Np.multiply a mean_I ;;
  b <- Np.subtract mean_p amI ;;
  mean_a <- ndimage_convolve a filter_mean ;;
  mean_b <- ndimage_convolve b filter_mean ;;
  Ok (mean_a, mean_b).

Definition default_ks : Z * Z := (41%Z, 41%Z).
Definition default_guided_eps : Q := 1 # 1000.

Definition is_rgb (I : ndarray Q) : bool :=
  (length (shape I) =? 3) && (last (shape I) 0 =? 3).

(** [guided_filter(I, p, ks, eps)]. *)
Definition guided_filter (I p : ndarray Q) (ks : Z * Z) (eps : Q) : result (ndarray Q) :=
  let I := if is_rgb I then _rgb2gray I else I in
  filter_mean <- box_kernel ks ;;
  let p := _expand_A_as_B p I false in
  let filter_mean := _expand_A_as_B filter_mean I false in
  ab <- linear_coefficients I p filter_mean eps ;;
  aI <- Np.multiply (fst ab) I ;;
  Np.add aI (snd ab).

(** [fast_guided_filter(I, p, ks, eps, s)]. *)
Definition fast_guided_filter (I p : ndarray Q) (ks : Z * Z) (eps : Q) (s : Z)
  : result (ndarray Q) :=
  let I := if is_rgb I then _rgb2gray I else I in
  match shape I with
  | [h; w] =>
      let I0 := I in
      if (s =? 0)%Z then Raise ZeroDivisionError
      else if ((Z.of_nat h / s <? 0) || (Z.of_nat w / s <? 0))%Z then Raise ValueError
      else
        let small := [Z.to_nat (Z.of_nat h / s); Z.to_nat (Z.of_nat w / s)] in
        I <- transform_resize I small ;;
        let p := _expand_A_as_B p I false in
        p <- transform_resize p small ;;
        let r0 := ((fst ks - 1) / 2)%Z in
        let r1 := ((snd ks - 1) / 2)%Z in
        let ks := (2 * r0 / s + 1, 2 * r1 / s + 1)%Z in
        filter_mean <- box_kernel ks ;;
        let filter_mean := _expand_A_as_B filter_mean I false in
        ab <- linear_coefficients I p filter_mean eps ;;
        mean_a <- transform_resize (fst ab) [h; w] ;;
        mean_b <- transform_resize (snd ab) [h; w] ;;
        aI <- Np.multiply mean_a I0 ;;
        Np.add aI mean_b
  | _ => Raise ValueError
  end.

End WithImageLibraries.

(** ** The pipeline *)

Record DehazeOutput : Type := mkDehazeOutput {
  out_I : ndarray Q;
  out_dc : ndarray Q;
  out_mask : ndarray bool;
  out_A : ndarray Q;
  out_tilde_t : ndarray Q;
  out_t : ndarray Q;
  out_J : ndarray Q;
  out_D : ndarray xreal }.

(** The library functions the pipeline reaches. *)
Record libraries : Type := Libraries {
  lib_argsort : list Q -> list nat;
  lib_cg : Sparse.matrix -> list Q -> result (list Q * Z);
  lib_convolve : ndarray Q -> ndarray Q -> result (ndarray Q);
  lib_resize : ndarray Q -> list nat -> result (ndarray Q) }.

Definition kw_int (k : string) (default : Z) (kw : kwargs) : result Z :=
  match kw_lookup k kw with
  | None => Ok default
  | Some (PyInt z) => Ok z
  | Some _ => Raise TypeError
  end.

(** The call [refiner(I, p=tilde_t, **kwargs)] for each method. *)
Definition refine (lib : libraries) (method : option string) (I tilde_t : ndarray Q)
    (kw : kwargs) : result (ndarray Q) :=
  let soft :=
    _ <- kw_accept ["lam"; "consts"; "eps"; "win_size"]%string kw ;;
    lam <- kw_number "lam" default_lam kw ;;
    soft_matting (lib_cg lib) I tilde_t lam
      (filter (fun e => negb (String.eqb (fst e) "lam")) kw) in
  match method with
  | None => soft
  | Some m =>
      if String.eqb m "soft" then soft
      else if String.eqb m "guided" then
        _ <- kw_accept ["ks"; "eps"]%string kw ;;
        ks <- kw_pair "ks" default_ks kw ;;
        eps <- kw_number "eps" default_guided_eps kw ;;
        guided_filter (lib_convolve lib) I tilde_t ks eps
      else if String.eqb m "fast" then
        _ <- kw_accept ["ks"; "eps"; "s"]%string kw ;;
        ks <- kw_pair "ks" default_ks kw ;;
        eps <- kw_number "eps" default_guided_eps kw ;;
        s <- kw_int "s" 4%Z kw ;;
        fast_guided_filter (lib_convolve lib) (lib_resize lib) I tilde_t ks eps s
      else Raise NotImplementedError
  end.

(** [dehaze_image(I, method, patch_size, top_ratio, **kwargs)]. *)
Definition dehaze_image (lib : libraries) (I : ndarray Q) (method : option string)
    (patch_size : Z * Z) (top_ratio : Q) (kw : kwargs) : result DehazeOutput :=
  let known m := existsb (String.eqb m) ["soft"; "guided"; "fast"]%string in
  if match method with Some m => negb (known m) | None => false end
  then Raise NotImplementedError
  else
    dc <- get_dark_channel I patch_size ;;
    mask <- get_mask (lib_argsort lib) dc top_ratio ;;
    A <- get_atmos_light (lib_argsort lib) I dc top_ratio ;;
    tilde_t <- get_tilde_t I A default_omega [] ;;
    t <- refine lib method I tilde_t kw ;;
    J <- get_J I A t default_t0 true ;;
    let D := get_depth t default_beta in
    Ok (mkDehazeOutput I dc mask A tilde_t t J D).

(** * Vocabulary of the statements

    The notions the properties below are stated with, and the sample
    inputs on which they are run. *)

(** The size a pass works with: a size of at most 1 leaves the axis alone,
    which is the window of one sample. *)
Definition effective_size (z : Z) : nat := if (1 <? z)%Z then Z.to_nat z else 1.

(** The per-pixel minimum over the colour channels ([np.min(img, axis=-1)]),
    or the sample itself for a 2-D image. *)
Definition channel_min (img : ndarray Q) (i j : nat) : Q :=
  match shape img with
  | [_; _; c] => Qmin_list (map (fun k => Np.get3 img i j k) (seq 0 c))
  | _ => Np.get2 img i j
  end.

Definition color_or_gray (img : ndarray Q) (h w : nat) : Prop :=
  shape img = [h; w; 3] \/ shape img = [h; w].

Definition count_true (l : list bool) : nat := length (filter (fun b => b) l).

(** The number of selected pixels as the specification writes it. *)
Definition numpix_spec (h w : nat) (top_ratio : Q) : Z :=
  Z.max 1 (Qfloor (inject_Z (Z.of_nat (h * w)) * top_ratio)).

(** The sum of channel [ch] of the image over the pixels the mask marks. *)
Definition masked_sum (mask : ndarray bool) (im : ndarray Q) (c ch n : nat) : Q :=
  Np.Qsum (map (fun q => if nth q (data mask) false
                         then nth (q * c + ch) (data im) 0%Q else 0%Q)
               (seq 0 n)).

(** A 1x2 colour image and a dark channel of its size. *)
Definition sample_image : ndarray Q :=
  NDArray [1; 2; 3] [1 # 2; 1 # 3; 1 # 4; 3 # 4; 2 # 3; 1 # 2]%Q.
Definition sample_dark : ndarray Q := NDArray [1; 2] [1 # 4; 1 # 2]%Q.

(** A one-pixel white image and its dark channel. *)
Definition white_pixel : ndarray Q := NDArray [1; 1; 3] [1; 1; 1]%Q.
Definition white_dark : ndarray Q := NDArray [1; 1] [1%Q].

(** An image with its atmospheric light: a colour per channel for a colour
    image, a scalar for a gray one. *)
Definition image_with_light (I A : ndarray Q) (h w : nat) : Prop :=
  (exists c, shape I = [h; w; c] /\ shape A = [c]) \/
  (shape I = [h; w] /\ shape A = []).

Definition sample_light : ndarray Q := NDArray [3] [4 # 5; 9 # 10; 1]%Q.
Definition clear_transmission : ndarray Q := NDArray [1; 2] [1; 1]%Q.

(** The solver [cg] with its flag rewritten by [f]. *)
Definition with_info (f : Z -> Z)
    (cg : Sparse.matrix -> list Q -> result (list Q * Z))
  : Sparse.matrix -> list Q -> result (list Q * Z) :=
  fun A b => match cg A b with
             | Ok (x, info) => Ok (x, f info)
             | Raise e => Raise e
             end.

(** [x.T @ M @ x]. *)
Definition quad_form (M : Sparse.matrix) (x : list Q) : Q :=
  Np.Qsum (map (fun r =>
    Np.Qsum (map (fun c => (nth r x 0 * Sparse.get M r c * nth c x 0)%Q)
                 (seq 0 (Sparse.ncols M))))
    (seq 0 (Sparse.nrows M))).

Definition in_range (n m : nat) (e : nat * nat * Q) : Prop :=
  fst (fst e) < n /\ snd (fst e) < m.

(** The sum, over the entries, of value times the two coordinates of [x]. *)
Definition entry_form (es : list (nat * nat * Q)) (x : list Q) : Q :=
  Np.Qsum (map (fun e => (snd e * nth (fst (fst e)) x 0 * nth (snd (fst e)) x 0)%Q) es).

(** The entries of [diags(sumA) - A] for the affinity entries [triples]. *)
Definition laplace_entries (n : nat) (triples : list (nat * nat * Q)) : list (nat * nat * Q) :=
  map (fun i => (i, i, nth i (Sparse.row_sums (Sparse.Matrix n n triples)) 0%Q)) (seq 0 n)
  ++ map (fun e => (fst e, (- snd e)%Q)) triples.

(** *** Sums over a window and equality of small matrices *)

Module Mat3Notions.
Import Mat3.
Local Open Scope Q_scope.

Definition veq (a b : vec) : Prop := vx a == vx b /\ vy a == vy b /\ vz a == vz b.

Definition vscale (k : Q) (a : vec) : vec := Vec (k * vx a) (k * vy a) (k * vz a).

Definition symmetric (m : mat) : Prop :=
  m01 m == m10 m /\ m02 m == m20 m /\ m12 m == m21 m.

Definition Sy (l : list (Q * vec)) : Q := Np.Qsum (map fst l).
Definition Syy (l : list (Q * vec)) : Q := Np.Qsum (map (fun k => fst k * fst k) l).
Definition Sx (l : list (Q * vec)) : vec := vsum (map snd l).
Definition Syx (l : list (Q * vec)) : vec :=
  vsum (map (fun k => vscale (fst k) (snd k)) l).
Definition Syyx (l : list (Q * vec)) : vec :=
  vsum (map (fun k => vscale (fst k * fst k) (snd k)) l).
Definition count (l : list (Q * vec)) : Q := Np.Qsum (map (fun _ => 1) l).


Definition meq (a b : mat) : Prop :=
  m00 a == m00 b /\ m01 a == m01 b /\ m02 a == m02 b /\
  m10 a == m10 b /\ m11 a == m11 b /\ m12 a == m12 b /\
  m20 a == m20 b /\ m21 a == m21 b /\ m22 a == m22 b.

End Mat3Notions.

(** *** The entries one window contributes *)

Module WindowNotions.
Import Mat3 Mat3Notions.
Local Open Scope Q_scope.

Definition vcount (X : list vec) : Q := Np.Qsum (map (fun _ => 1) X).

(** The entries of a window as the code builds them, from the inverse
    [V] of the regularised covariance. *)
Definition window_block (I : ndarray Q) (w r : nat) (V : mat) (i j : nat)
  : list (nat * nat * Q) :=
  let neb_size := inject_Z (Z.of_nat ((2 * r + 1) ^ 2)) in
  let win_inds := window_indices w r i j in
  let winI := map (pixel I) win_inds in
  let win_mu := vdiv (vsum winI) neb_size in
  let win := combine win_inds (map (fun x => vsub x win_mu) winI) in
  flat_map (fun ka =>
    map (fun kb => (fst kb, fst ka,
                    Qred ((1 + dot (vecmat (snd ka) V) (snd kb)) / neb_size))) win) win.

(** The part of [x.T @ L @ x] that the affinity entries [es] contribute. *)
Definition affinity_form (es : list (nat * nat * Q)) (x : list Q) : Q :=
  Np.Qsum (map (fun e => snd e * (nth (fst (fst e)) x 0 * nth (fst (fst e)) x 0
                                  - nth (fst (fst e)) x 0 * nth (snd (fst e)) x 0)) es).

End WindowNotions.

(** *** Entries of the matting Laplacian *)

Module LaplaceNotions.
Import Mat3 Mat3Notions WindowNotions.

(** The value of position [(r, c)] in a list of entries. *)
Definition entry_get (es : list (nat * nat * Q)) (r c : nat) : Q :=
  Np.Qsum (map (fun e => if (fst (fst e) =? r) && (snd (fst e) =? c) then snd e else 0%Q) es).

(** The sum of the entries of row [r]. *)
Definition row_weight (es : list (nat * nat * Q)) (r : nat) : Q :=
  Np.Qsum (map (fun e => if fst (fst e) =? r then snd e else 0%Q) es).

(** The regularised covariance of the window centred on [(i, j)] can be
    inverted. *)
Definition covariance_regular (I : ndarray Q) (w r : nat) (eps : Q) (i j : nat) : Prop :=
  ~ (det (window_covariance (map (pixel I) (window_indices w r i j))
            (inject_Z (Z.of_nat ((2 * r + 1) ^ 2))) eps) == 0)%Q.

(** The inputs on which [get_laplace_matting_matrix] is defined: a colour
    image of more than one pixel, a mask of its size if any, a size of the
    buffers that is not negative, and a covariance that can be inverted in
    every window. *)
Definition laplacian_defined (I : ndarray Q) (consts : option (ndarray bool))
    (eps : Q) (r h w : nat) : Prop :=
  shape I = [h; w; 3] /\ 1 < h * w /\
  match consts with
  | None => (0 <= (Z.of_nat h - 2 * Z.of_nat r) * (Z.of_nat w - 2 * Z.of_nat r))%Z
  | Some m => shape m = [h; w]
  end /\
  forall i j, In (i, j) (window_centers h w r) -> covariance_regular I w r eps i j.

(** Two pixels that lie in one window. *)
Definition shares_window (h w r p q : nat) : Prop :=
  exists i j, In (i, j) (window_centers h w r) /\
              In p (window_indices w r i j) /\ In q (window_indices w r i j).

End LaplaceNotions.

(** *** Linear systems, solvers and sample data *)

(** The sum of row [r] of a matrix. *)
Definition row_total (M : Sparse.matrix) (r : nat) : Q :=
  Np.Qsum (map (fun c => Sparse.get M r c) (seq 0 (Sparse.ncols M))).

(** [x] is a solution of [M x = b]. *)
Definition solves (M : Sparse.matrix) (b x : list Q) : Prop :=
  length x = Sparse.ncols M /\ Forall2 Qeq (Sparse.matvec M x) b.

(** A solver that returns solutions only. *)
Definition exact_iterative (cg : Sparse.matrix -> list Q -> result (list Q * Z)) : Prop :=
  forall M b x info, cg M b = Ok (x, info) -> solves M b x.

Definition exact_direct (spsolve : Sparse.matrix -> list Q -> result (list Q)) : Prop :=
  forall M b x, spsolve M b = Ok x -> solves M b x.

(** The entries of [L + lam * I]. *)
Definition regularized_entries (n : nat) (lam : Q) (es : list (nat * nat * Q))
  : list (nat * nat * Q) :=
  es ++ map (fun e => (fst e, (lam * snd e)%Q))
            (map (fun i => (i, i, nth i (repeat 1%Q n) 0%Q)) (seq 0 n)).

(** A 3x3 colour image, one window. *)
Definition textured_image : ndarray Q :=
  NDArray [3; 3; 3]
    [1 # 2; 1 # 2; 1 # 2;  1 # 4; 1 # 2; 3 # 4;  1 # 2; 1 # 4; 1 # 2;
     3 # 4; 1 # 2; 1 # 4;  1 # 2; 1 # 2; 1 # 2;  1 # 4; 1 # 4; 1 # 2;
     1 # 2; 3 # 4; 1 # 2;  1 # 2; 1 # 2; 1 # 4;  3 # 4; 3 # 4; 1 # 2]%Q.

(** A 3x3 image of one colour. *)
Definition flat_image : ndarray Q := NDArray [3; 3; 3] (repeat (1 # 2)%Q 27).

(** A raw transmission that is 1 but for one pixel, off by 1e-10. *)
Definition nearly_flat_transmission : ndarray Q :=
  NDArray [3; 3] [1; 1; 1; 1; 1; 1; 1; 1; 10000000001 # 10000000000]%Q.

(** A solver whose result is checked against the system before it is
    returned: it returns solutions only. *)
Definition residual_free (M : Sparse.matrix) (b x : list Q) : bool :=
  (length x =? Sparse.ncols M) &&
  (length (Sparse.matvec M x) =? length b) &&
  forallb (fun ab => Qeq_bool (fst ab) (snd ab)) (combine (Sparse.matvec M x) b).

Definition checked_spsolve (M : Sparse.matrix) (b : list Q) : result (list Q) :=
  x <- Sparse.spsolve M b ;;
  if residual_free M b x then Ok x else Raise NonFinite.

Definition checked_cg (M : Sparse.matrix) (b : list Q) : result (list Q * Z) :=
  x <- checked_spsolve M b ;; Ok (x, 0%Z).

(** Stand-in for a library function that a run does not reach. *)
Definition not_reached {A B C : Type} (_ : A) (_ : B) : result C :=
  Raise NotImplementedError.

(** The libraries of a run with soft matting. *)
Definition soft_libraries : libraries :=
  Libraries Np.argsort Sparse.cg not_reached not_reached.

(** A solver that gives up at once: it returns its right-hand side as the
    iterate, with the flag 7. *)
Definition stalled_cg (M : Sparse.matrix) (b : list Q) : result (list Q * Z) :=
  Ok (b, 7%Z).

(** The radiance of one sample: the haze equation solved for J, with the
    transmission clipped into [t0, 1]. *)
Definition radiance (x a tq t0 : Q) : Q := ((x - a) / Qmin 1 (Qmax tq t0) + a)%Q.

(** [np.clip(x, 0, 1)] of one sample. *)
Definition clip01 (x : Q) : Q := Qmin 1 (Qmax x 0).

(** The keyword options each refiner knows. *)
Definition refiner_options (method : option string) : list string :=
  match method with
  | None => ["lam"; "consts"; "eps"; "win_size"]%string
  | Some m =>
      if String.eqb m "soft" then ["lam"; "consts"; "eps"; "win_size"]%string
      else if String.eqb m "guided" then ["ks"; "eps"]%string
      else if String.eqb m "fast" then ["ks"; "eps"; "s"]%string
      else []
  end.

(** A constant raw transmission. *)
Definition flat_transmission : ndarray Q := NDArray [3; 3] (repeat (4 # 5)%Q 9).

(** * Properties *)


(** ** Tables and minima *)

Lemma flat_map_rows_length {A : Type} (w : nat) (g : nat -> list A) (l : list nat) :
  (forall i, length (g i) = w) -> length (flat_map g l) = length l * w.
Proof.
  intros Hg. induction l as [|x l IH]; simpl; [reflexivity|].
  rewrite length_app, Hg, IH. reflexivity.
Qed.

Lemma tabulate2_length {A : Type} (h w : nat) (f : nat -> nat -> A) :
  length (tabulate2 h w f) = h * w.
Proof.
  unfold tabulate2. rewrite (flat_map_rows_length w).
  - now rewrite length_seq.
  - intros i. now rewrite length_map, length_seq.
Qed.

Lemma flat_map_rows_nth {A : Type} (w : nat) (g : nat -> list A) (d : A) :
  (forall i, length (g i) = w) ->
  forall n s i j, i < n -> j < w ->
  nth (i * w + j) (flat_map g (seq s n)) d = nth j (g (s + i)) d.
Proof.
  intros Hg n. induction n as [|n IH]; intros s i j Hi Hj; [lia|].
  simpl. destruct i as [|i].
  - simpl. rewrite app_nth1 by (rewrite Hg; lia). now rewrite Nat.add_0_r.
  - rewrite app_nth2 by (rewrite Hg; simpl; lia).
    rewrite Hg. replace (S i * w + j - w) with (i * w + j) by (simpl; lia).
    rewrite IH by lia. f_equal. f_equal. lia.
Qed.

Lemma tabulate2_nth {A : Type} (h w : nat) (f : nat -> nat -> A) (d : A) i j :
  i < h -> j < w -> nth (i * w + j) (tabulate2 h w f) d = f i j.
Proof.
  intros Hi Hj. unfold tabulate2.
  rewrite (flat_map_rows_nth w) by (intros; try rewrite length_map, length_seq; auto).
  simpl. rewrite (nth_indep _ d (f i 0)) by (rewrite length_map, length_seq; lia).
  rewrite map_nth, seq_nth by lia. reflexivity.
Qed.

Lemma map_seq_nth {A : Type} (f : nat -> A) (n k : nat) (d : A) :
  k < n -> nth k (map f (seq 0 n)) d = f k.
Proof.
  intros Hk. rewrite (nth_indep _ d (f 0)) by (rewrite length_map, length_seq; lia).
  rewrite map_nth, seq_nth by lia. reflexivity.
Qed.

Lemma fold_left_Qmin_le_init (l : list Q) (x : Q) : (fold_left Qmin l x <= x)%Q.
Proof.
  revert x. induction l as [|y l IH]; intros x; simpl; [apply Qle_refl|].
  eapply Qle_trans; [apply IH|]. apply Q.le_min_l.
Qed.

Lemma fold_left_Qmin_le_In (l : list Q) (x y : Q) :
  In y l -> (fold_left Qmin l x <= y)%Q.
Proof.
  revert x. induction l as [|z l IH]; intros x Hin; simpl in *; [tauto|].
  destruct Hin as [->|Hin].
  - eapply Qle_trans; [apply fold_left_Qmin_le_init|]. apply Q.le_min_r.
  - now apply IH.
Qed.

Lemma Qmin_list_le (l : list Q) (y : Q) : In y l -> (Qmin_list l <= y)%Q.
Proof.
  destruct l as [|x l]; simpl; [tauto|]. intros [->|Hin].
  - apply fold_left_Qmin_le_init.
  - now apply fold_left_Qmin_le_In.
Qed.

Lemma fold_left_Qmin_glb (l : list Q) (x m : Q) :
  (m <= x)%Q -> (forall y, In y l -> (m <= y)%Q) -> (m <= fold_left Qmin l x)%Q.
Proof.
  revert x. induction l as [|z l IH]; intros x Hx Hl; simpl; [assumption|].
  apply IH.
  - apply Q.min_glb; [assumption|]. apply Hl; now left.
  - intros y Hy. apply Hl; now right.
Qed.

Lemma Qmin_list_glb (l : list Q) (m : Q) :
  l <> [] -> (forall y, In y l -> (m <= y)%Q) -> (m <= Qmin_list l)%Q.
Proof.
  destruct l as [|x l]; [congruence|]. intros _ Hl. simpl.
  apply fold_left_Qmin_glb.
  - apply Hl; now left.
  - intros y Hy. apply Hl; now right.
Qed.

(** A minimum over more values is smaller. *)
Lemma Qmin_list_incl (l l' : list Q) :
  l <> [] -> incl l l' -> (Qmin_list l' <= Qmin_list l)%Q.
Proof.
  intros Hne Hincl. apply Qmin_list_glb; [assumption|].
  intros y Hy. apply Qmin_list_le. now apply Hincl.
Qed.


(** ** The minimum filter *)

Lemma window_min_le_center (line : nat -> Q) (n size i : nat) :
  1 <= size -> i < n -> (Ndimage.window_min line n size i <= line i)%Q.
Proof.
  intros Hs Hi. unfold Ndimage.window_min. apply Qmin_list_le.
  apply in_map_iff. exists (size / 2). split.
  - f_equal. lia.
  - apply in_seq. split; [lia|]. change (0 + size) with size.
    apply Nat.div_lt; lia.
Qed.

Lemma window_min_mono_size (line : nat -> Q) (n s s' i : nat) :
  1 <= s -> s <= s' ->
  (Ndimage.window_min line n s' i <= Ndimage.window_min line n s i)%Q.
Proof.
  intros Hs Hss. unfold Ndimage.window_min. apply Qmin_list_incl.
  - destruct s; [lia|]. rewrite <- cons_seq. discriminate.
  - intros y Hy. apply in_map_iff in Hy. destruct Hy as [d [<- Hd]].
    apply in_seq in Hd.
    assert (Hdiv : s / 2 <= s' / 2) by (apply Nat.Div0.div_le_mono; lia).
    pose proof (Nat.div_mod_eq s 2) as Hs2. pose proof (Nat.div_mod_eq s' 2) as Hs2'.
    pose proof (Nat.mod_upper_bound s 2 ltac:(lia)).
    pose proof (Nat.mod_upper_bound s' 2 ltac:(lia)).
    apply in_map_iff. exists (d + (s' / 2 - s / 2)). split.
    + f_equal. lia.
    + apply in_seq. lia.
Qed.

Lemma window_min_mono_line (f g : nat -> Q) (n s i : nat) :
  1 <= s -> (forall k, k <= n - 1 -> (f k <= g k)%Q) ->
  (Ndimage.window_min f n s i <= Ndimage.window_min g n s i)%Q.
Proof.
  intros Hs Hfg. unfold Ndimage.window_min. apply Qmin_list_glb.
  - destruct s; [lia|]. rewrite <- cons_seq. discriminate.
  - intros y Hy. apply in_map_iff in Hy. destruct Hy as [d [<- Hd]].
    eapply Qle_trans; [|apply Hfg; lia].
    apply Qmin_list_le. apply in_map_iff. exists d. split; [reflexivity|assumption].
Qed.

Lemma window_min_one (line : nat -> Q) (n i : nat) :
  i < n -> Ndimage.window_min line n 1 i = line i.
Proof.
  intros Hi. unfold Ndimage.window_min. simpl. f_equal. lia.
Qed.

Lemma effective_size_pos z : 1 <= effective_size z.
Proof. unfold effective_size. destruct (Z.ltb_spec 1 z); lia. Qed.

Lemma effective_size_mono z z' : (z <= z')%Z -> effective_size z <= effective_size z'.
Proof.
  unfold effective_size. intros H.
  destruct (Z.ltb_spec 1 z), (Z.ltb_spec 1 z'); lia.
Qed.

Lemma get2_NDArray h w l i j :
  Np.get2 (NDArray [h; w] l) i j = nth (i * w + j) l 0%Q.
Proof. reflexivity. Qed.

Lemma minimum_filter_spec (a : ndarray Q) (h w : nat) (size : Z * Z) :
  shape a = [h; w] ->
  exists r, Ndimage.minimum_filter a size = Ok r /\ shape r = [h; w] /\
    forall i j, i < h -> j < w ->
      Np.get2 r i j =
      Ndimage.window_min
        (fun j' => Ndimage.window_min (fun i' => Np.get2 a i' j') h
                     (effective_size (fst size)) i)
        w (effective_size (snd size)) j.
Proof.
  intros Hsh. unfold Ndimage.minimum_filter. rewrite Hsh.
  set (pass0 := if (1 <? fst size)%Z
                then Ndimage.minimum_filter1d a (Z.to_nat (fst size)) 0 else a).
  assert (H0 : shape pass0 = [h; w] /\
               forall i j, i < h -> j < w ->
                 Np.get2 pass0 i j =
                 Ndimage.window_min (fun i' => Np.get2 a i' j) h
                   (effective_size (fst size)) i).
  { unfold pass0, effective_size. destruct (1 <? fst size)%Z.
    - unfold Ndimage.minimum_filter1d. rewrite Hsh. split; [reflexivity|].
      intros i j Hi Hj. rewrite get2_NDArray, tabulate2_nth by assumption.
      reflexivity.
    - split; [assumption|]. intros i j Hi Hj. now rewrite window_min_one. }
  destruct H0 as [Hsh0 Hget0].
  remember (effective_size (fst size)) as e0 eqn:He0.
  eexists. split; [reflexivity|].
  unfold effective_size. destruct (1 <? snd size)%Z.
  - unfold Ndimage.minimum_filter1d. rewrite Hsh0. split; [reflexivity|].
    intros i j Hi Hj. rewrite get2_NDArray, tabulate2_nth by assumption.
    simpl. unfold Ndimage.window_min. f_equal. apply map_ext_in.
    intros d Hd. apply Hget0; [assumption|].
    destruct w; [lia|]. lia.
  - split; [assumption|]. intros i j Hi Hj. rewrite window_min_one by assumption.
    now apply Hget0.
Qed.

Lemma amin_last_get2 (img : ndarray Q) h w c i j :
  shape img = [h; w; c] -> i < h -> j < w ->
  Np.get2 (Np.amin_last img) i j = channel_min img i j.
Proof.
  intros Hsh Hi Hj. unfold Np.amin_last, channel_min, Np.get3. rewrite Hsh. simpl.
  rewrite get2_NDArray. rewrite map_seq_nth by nia. reflexivity.
Qed.

Lemma get_dark_channel_spec (img : ndarray Q) (h w : nat) (p : Z * Z) :
  color_or_gray img h w ->
  exists dc, get_dark_channel img p = Ok dc /\ shape dc = [h; w] /\
    forall i j, i < h -> j < w ->
      Np.get2 dc i j =
      Ndimage.window_min
        (fun j' => Ndimage.window_min (fun i' => channel_min img i' j') h
                     (effective_size (fst p)) i)
        w (effective_size (snd p)) j.
Proof.
  intros [Hsh|Hsh]; unfold get_dark_channel; rewrite Hsh; simpl.
  - destruct (minimum_filter_spec (Np.amin_last img) h w p) as [r [Hr [Hs Hg]]].
    { unfold Np.amin_last. rewrite Hsh. reflexivity. }
    exists r. split; [assumption|]. split; [assumption|].
    intros i j Hi Hj. rewrite Hg by assumption.
    unfold Ndimage.window_min. f_equal. apply map_ext_in. intros d Hd.
    f_equal. apply map_ext_in. intros e He.
    apply (amin_last_get2 img h w 3); auto; destruct h, w; lia.
  - destruct (minimum_filter_spec img h w p Hsh) as [r [Hr [Hs Hg]]].
    exists r. split; [assumption|]. split; [assumption|].
    intros i j Hi Hj. rewrite Hg by assumption.
    unfold channel_min. rewrite Hsh. reflexivity.
Qed.

(** C6.  For a colour image (H x W x 3) or a gray one (H x W) and two
    patch sizes [p <= q] (componentwise), [get_dark_channel] returns for
    both sizes; at every pixel the output for [p] is at most the minimum
    over the colour channels of the input at that pixel, and the output
    for [q] is at most the output for [p]. *)
Theorem dark_channel_below_min_and_antitone
  (img : ndarray Q) (h w : nat) (p q : Z * Z) :
  color_or_gray img h w ->
  (fst p <= fst q)%Z -> (snd p <= snd q)%Z ->
  exists dp dq,
    get_dark_channel img p = Ok dp /\ get_dark_channel img q = Ok dq /\
    forall i j, i < h -> j < w ->
      (Np.get2 dp i j <= channel_min img i j)%Q /\
      (Np.get2 dq i j <= Np.get2 dp i j)%Q.
Proof.
  intros Himg H0 H1.
  destruct (get_dark_channel_spec img h w p Himg) as [dp [Hp [_ Hgp]]].
  destruct (get_dark_channel_spec img h w q Himg) as [dq [Hq [_ Hgq]]].
  exists dp, dq. split; [assumption|]. split; [assumption|].
  intros i j Hi Hj. rewrite Hgp, Hgq by assumption. split.
  - eapply Qle_trans.
    + apply window_min_le_center; [apply effective_size_pos|assumption].
    + apply (window_min_le_center (fun i' => channel_min img i' j));
        [apply effective_size_pos|assumption].
  - eapply Qle_trans.
    + apply window_min_mono_size with (s := effective_size (snd p)).
      * apply effective_size_pos.
      * now apply effective_size_mono.
    + apply window_min_mono_line; [apply effective_size_pos|].
      intros k _. apply window_min_mono_size.
      * apply effective_size_pos.
      * now apply effective_size_mono.
Qed.


(** ** Index assignment *)

Lemma put_length {A : Type} (l : list A) i v : length (Np.put l i v) = length l.
Proof.
  revert i. induction l as [|x l IH]; intros [|i]; simpl; auto.
Qed.

Lemma put_nth {A : Type} (l : list A) i v k d :
  nth k (Np.put l i v) d = if (k =? i) && (i <? length l) then v else nth k l d.
Proof.
  revert i k. induction l as [|x l IH]; intros i k.
  - simpl. rewrite andb_false_r. now destruct i.
  - destruct i as [|i], k as [|k]; simpl; auto.
Qed.

Lemma put_all_length {A : Type} (idx : list nat) (l : list A) v :
  length (Np.put_all l idx v) = length l.
Proof.
  unfold Np.put_all. revert l. induction idx as [|i idx IH]; intros l; simpl; auto.
  now rewrite IH, put_length.
Qed.

Lemma put_all_nth {A : Type} (idx : list nat) (l : list A) v k d :
  k < length l ->
  nth k (Np.put_all l idx v) d = if existsb (Nat.eqb k) idx then v else nth k l d.
Proof.
  unfold Np.put_all. revert l. induction idx as [|i idx IH]; intros l Hk; simpl; auto.
  rewrite IH by now rewrite put_length.
  destruct (existsb (Nat.eqb k) idx) eqn:E.
  - now rewrite orb_true_r.
  - rewrite orb_false_r, put_nth.
    destruct (Nat.eqb_spec k i) as [->|]; simpl; [|reflexivity].
    apply Nat.ltb_lt in Hk. now rewrite Hk.
Qed.

Lemma put_all_repeat {A : Type} (idx : list nat) (n : nat) (d v : A) :
  Np.put_all (repeat d n) idx v =
  map (fun k => if existsb (Nat.eqb k) idx then v else d) (seq 0 n).
Proof.
  apply (nth_ext _ _ d d).
  - now rewrite put_all_length, repeat_length, length_map, length_seq.
  - intros k Hk. rewrite put_all_length, repeat_length in Hk.
    rewrite put_all_nth by now rewrite repeat_length.
    rewrite map_seq_nth by assumption. now rewrite nth_repeat.
Qed.

Lemma existsb_eqb_In (k : nat) (l : list nat) :
  existsb (Nat.eqb k) l = true <-> In k l.
Proof.
  rewrite existsb_exists. split.
  - intros [x [Hx He]]. apply Nat.eqb_eq in He. now subst.
  - intros H. exists k. split; [assumption|apply Nat.eqb_refl].
Qed.

(** ** Slices *)

Lemma take_last_split {A : Type} (n : nat) (l : list A) :
  l = firstn (length l - n) l ++ Np.take_last n l.
Proof. unfold Np.take_last. now rewrite firstn_skipn. Qed.

Lemma take_last_length {A : Type} (n : nat) (l : list A) :
  length (Np.take_last n l) = Nat.min n (length l).
Proof. unfold Np.take_last. rewrite length_skipn. lia. Qed.

Lemma StronglySorted_app_le {A : Type} (R : A -> A -> Prop) (p s : list A) :
  StronglySorted R (p ++ s) -> forall a b, In a p -> In b s -> R a b.
Proof.
  induction p as [|x p IH]; simpl; intros Hs a b Ha Hb; [tauto|].
  inversion Hs as [|? ? Hs' Hall]; subst.
  destruct Ha as [->|Ha].
  - rewrite Forall_forall in Hall. apply Hall. apply in_or_app. now right.
  - now apply IH.
Qed.

(** ** Counting *)

Lemma count_true_map {A : Type} (f : A -> bool) (l : list A) :
  count_true (map f l) = length (filter f l).
Proof.
  unfold count_true. induction l as [|x l IH]; simpl; [reflexivity|].
  destruct (f x); simpl; now rewrite IH.
Qed.

Lemma filter_mem_length (idx : list nat) (n : nat) :
  NoDup idx -> (forall k, In k idx -> k < n) ->
  length (filter (fun k => existsb (Nat.eqb k) idx) (seq 0 n)) = length idx.
Proof.
  intros Hnd Hlt. apply Permutation_length. apply NoDup_Permutation.
  - apply NoDup_filter, seq_NoDup.
  - assumption.
  - intros k. rewrite filter_In, in_seq, existsb_eqb_In. split.
    + tauto.
    + intros Hk. split; [|assumption]. specialize (Hlt k Hk). lia.
Qed.

(** ** The selected indices *)

Section Selection.

Variable l : list Q.
Variable sorted_idx : list nat.
Hypothesis Hsorted : Np.is_argsort l sorted_idx.
Variable n : nat.

Let indices := Np.take_last n sorted_idx.

Lemma sorted_idx_length : length sorted_idx = length l.
Proof.
  destruct Hsorted as [Hp _]. apply Permutation_length in Hp.
  now rewrite length_seq in Hp.
Qed.

Lemma indices_NoDup : NoDup indices.
Proof.
  destruct Hsorted as [Hp _].
  assert (Hnd : NoDup sorted_idx).
  { eapply Permutation_NoDup; [apply Permutation_sym; exact Hp|apply seq_NoDup]. }
  rewrite (take_last_split n sorted_idx) in Hnd.
  now apply NoDup_app_remove_l in Hnd.
Qed.

Lemma indices_in_range k : In k indices -> k < length l.
Proof.
  intros Hk. destruct Hsorted as [Hp _].
  assert (Hin : In k sorted_idx).
  { rewrite (take_last_split n sorted_idx). apply in_or_app. now right. }
  eapply Permutation_in in Hin; [|exact Hp]. apply in_seq in Hin. lia.
Qed.

Lemma indices_length : length indices = Nat.min n (length l).
Proof. unfold indices. now rewrite take_last_length, sorted_idx_length. Qed.

Lemma indices_largest k k' :
  In k indices -> k' < length l -> ~ In k' indices ->
  (nth k' l 0 <= nth k l 0)%Q.
Proof.
  intros Hk Hk' Hnot. destruct Hsorted as [Hp Hs].
  assert (Hin : In k' sorted_idx).
  { eapply Permutation_in; [apply Permutation_sym; exact Hp|]. apply in_seq. lia. }
  rewrite (take_last_split n sorted_idx) in Hin, Hs.
  apply in_app_or in Hin. destruct Hin as [Hin|Hin]; [|contradiction].
  now apply (StronglySorted_app_le _ _ _ Hs).
Qed.

End Selection.

(** ** The insertion argsort is an argsort *)

Lemma insert_index_perm (l : list Q) i s :
  Permutation (Np.insert_index l i s) (i :: s).
Proof.
  induction s as [|j s IH]; simpl; [reflexivity|].
  destruct (Qle_bool _ _); [reflexivity|].
  rewrite IH. apply perm_swap.
Qed.

Lemma insert_index_sorted (l : list Q) i s :
  StronglySorted (fun i j => (nth i l 0 <= nth j l 0)%Q) s ->
  StronglySorted (fun i j => (nth i l 0 <= nth j l 0)%Q) (Np.insert_index l i s).
Proof.
  induction s as [|j s IH]; simpl; intros Hs.
  - constructor; constructor.
  - inversion Hs as [|? ? Hs' Hall]; subst.
    destruct (Qle_bool (nth i l 0%Q) (nth j l 0%Q)) eqn:E.
    + apply Qle_bool_iff in E. constructor; [assumption|].
      constructor; [assumption|].
      rewrite Forall_forall in *. intros x Hx. eapply Qle_trans; eauto.
    + assert (Hji : (nth j l 0 <= nth i l 0)%Q).
      { destruct (Qlt_le_dec (nth i l 0%Q) (nth j l 0%Q)) as [Hlt|Hle]; [|assumption].
        apply Qlt_le_weak, Qle_bool_iff in Hlt. congruence. }
      constructor; [now apply IH|].
      rewrite Forall_forall in *. intros x Hx.
      eapply Permutation_in in Hx; [|apply insert_index_perm].
      destruct Hx as [<-|Hx]; [assumption|now apply Hall].
Qed.

Lemma argsort_is_argsort (l : list Q) : Np.is_argsort l (Np.argsort l).
Proof.
  unfold Np.argsort, Np.is_argsort. generalize (seq 0 (length l)) as s.
  intros s. split.
  - induction s as [|i s IH]; simpl; [reflexivity|].
    rewrite insert_index_perm. now constructor.
  - induction s as [|i s IH]; simpl; [constructor|].
    now apply insert_index_sorted.
Qed.


(** ** numpix *)

Lemma max_int_of_float (x : Q) : Z.max (Np.int_of_float x) 1 = Z.max 1 (Qfloor x).
Proof.
  unfold Np.int_of_float. destruct x as [n d]. simpl.
  destruct (Z_lt_le_dec n 0) as [Hn|Hn].
  - assert (Hq : (Z.quot n (Zpos d) <= 0)%Z) by (apply Z.quot_le_upper_bound; lia).
    assert (Hd : (n / Zpos d < 0)%Z) by (apply Z.div_lt_upper_bound; lia).
    lia.
  - rewrite Z.quot_div_nonneg by lia. lia.
Qed.

Section MaskProperties.

Variable np_argsort : list Q -> list nat.
Hypothesis np_argsort_spec : forall l, Np.is_argsort l (np_argsort l).

Lemma get_mask_spec (dc : ndarray Q) (h w : nat) (top_ratio : Q) :
  shape dc = [h; w] -> wf_array dc ->
  exists mask,
    get_mask np_argsort dc top_ratio = Ok mask /\ shape mask = [h; w] /\
    length (data mask) = h * w /\
    forall k, k < h * w ->
      nth k (data mask) false =
      existsb (Nat.eqb k)
        (Np.take_last (Z.to_nat (numpix_spec h w top_ratio)) (np_argsort (data dc))).
Proof.
  intros Hsh Hwf. unfold get_mask. rewrite Hsh. eexists. split; [reflexivity|].
  unfold wf_array in Hwf. rewrite Hsh in Hwf. simpl in Hwf. rewrite Nat.mul_1_r in Hwf.
  cbn [shape data]. split; [reflexivity|].
  rewrite put_all_length, repeat_length. split; [assumption|].
  intros k Hk. rewrite put_all_nth by (rewrite repeat_length; lia).
  rewrite nth_repeat. unfold numpix_spec. rewrite max_int_of_float.
  destruct (existsb _ _); reflexivity.
Qed.


Lemma get_mask_count (dc : ndarray Q) (h w : nat) (top_ratio : Q) (mask : ndarray bool) :
  shape dc = [h; w] -> wf_array dc ->
  get_mask np_argsort dc top_ratio = Ok mask ->
  count_true (data mask) = Nat.min (h * w) (Z.to_nat (numpix_spec h w top_ratio)).
Proof.
  intros Hsh Hwf Hmask.
  destruct (get_mask_spec dc h w top_ratio Hsh Hwf) as [mask' [Hm [Hs [Hlen Hnth]]]].
  assert (mask' = mask) by congruence. subst mask'.
  unfold wf_array in Hwf. rewrite Hsh in Hwf. simpl in Hwf. rewrite Nat.mul_1_r in Hwf.
  pose proof (np_argsort_spec (data dc)) as Hspec.
  set (n := Z.to_nat (numpix_spec h w top_ratio)) in *.
  assert (Hdata : data mask =
    map (fun k => existsb (Nat.eqb k) (Np.take_last n (np_argsort (data dc))))
        (seq 0 (h * w))).
  { apply (nth_ext _ _ false false).
    - now rewrite length_map, length_seq.
    - intros k Hk. rewrite Hlen in Hk. rewrite map_seq_nth by assumption.
      now apply Hnth. }
  rewrite Hdata, count_true_map, filter_mem_length.
  - rewrite (indices_length (data dc)) by assumption. lia.
  - now apply (indices_NoDup (data dc)).
  - intros k Hk. rewrite <- Hwf. now apply (indices_in_range (data dc) _ Hspec n).
Qed.


End MaskProperties.




(** ** Broadcasting *)

Lemma divmod_unique (c q r : nat) :
  r < c -> (q * c + r) / c = q /\ (q * c + r) mod c = r.
Proof.
  intros Hr. split.
  - symmetry. apply (Nat.div_unique _ _ _ r); lia.
  - symmetry. apply (Nat.mod_unique _ _ q); lia.
Qed.

Lemma bindex_same_aux (s : list nat) : forall k, k < numel s ->
  Np.ravel s (map (fun di => if fst di =? 1 then 0 else snd di)
                  (combine s (Np.unravel s k))) = k.
Proof.
  induction s as [|d s IH]; intros k Hk; simpl in *; [lia|].
  assert (Hn : numel s <> 0) by (intros E; rewrite E in Hk; lia).
  rewrite IH by (apply Nat.mod_upper_bound; assumption).
  pose proof (Nat.div_mod_eq k (numel s)) as E.
  destruct (Nat.eqb_spec d 1) as [->|Hd].
  - rewrite Nat.mul_1_l in Hk. rewrite Nat.mod_small by assumption. lia.
  - lia.
Qed.

Lemma bindex_same (s : list nat) (k : nat) : k < numel s -> Np.bindex s s k = k.
Proof.
  intros Hk. unfold Np.bindex. rewrite Nat.sub_diag. simpl skipn.
  now apply bindex_same_aux.
Qed.

Lemma broadcast_rev_same (s : list nat) : Np.broadcast_rev s s = Some s.
Proof.
  induction s as [|d s IH]; simpl; [reflexivity|].
  now rewrite IH, Nat.eqb_refl.
Qed.

Lemma broadcast_shapes_same (s : list nat) : Np.broadcast_shapes s s = Some s.
Proof.
  unfold Np.broadcast_shapes. rewrite broadcast_rev_same. simpl.
  now rewrite rev_involutive.
Qed.

(** A mask of shape (h, w, 1) against an image of shape (h, w, c). *)
Lemma broadcast_shapes_hw1 (h w c : nat) :
  Np.broadcast_shapes [h; w; 1] [h; w; c] = Some [h; w; c].
Proof.
  unfold Np.broadcast_shapes. simpl. rewrite !Nat.eqb_refl.
  destruct c as [|[|c]]; reflexivity.
Qed.

Lemma broadcast_shapes_hw1_r (h w c : nat) :
  Np.broadcast_shapes [h; w; c] [h; w; 1] = Some [h; w; c].
Proof.
  unfold Np.broadcast_shapes. simpl. rewrite !Nat.eqb_refl.
  destruct c as [|[|c]]; reflexivity.
Qed.

Lemma bindex_hw1 (h w c q r : nat) :
  q < h * w -> r < c -> Np.bindex [h; w; 1] [h; w; c] (q * c + r) = q.
Proof.
  intros Hq Hr. unfold Np.bindex. cbn [length Nat.sub skipn Np.unravel numel fold_right].
  rewrite !Nat.mul_1_r. cbn [combine map fst snd Np.ravel numel fold_right].
  rewrite Nat.eqb_refl, !Nat.mul_1_r, !Nat.add_0_r.
  assert (Hw : w <> 0) by (intros ->; lia).
  pose proof (Nat.div_mod_eq q w) as Eq.
  pose proof (Nat.mod_upper_bound q w Hw) as Hb.
  assert (E1 : (q * c + r) / (w * c) = q / w).
  { symmetry. apply (Nat.div_unique _ _ _ ((q mod w) * c + r)); nia. }
  assert (E2 : (q * c + r) mod (w * c) = (q mod w) * c + r).
  { symmetry. apply (Nat.mod_unique _ _ (q / w)); nia. }
  rewrite E1, E2. destruct (divmod_unique c (q mod w) r Hr) as [E3 _]. rewrite E3.
  destruct (Nat.eqb_spec h 1) as [->|Hh], (Nat.eqb_spec w 1) as [->|Hw1].
  - lia.
  - rewrite Nat.mul_1_l in Hq. rewrite Nat.mod_small by assumption. lia.
  - rewrite Nat.div_1_r. lia.
  - lia.
Qed.

(** A colour of shape (1, 1, c) against an image of shape (h, w, c). *)
Lemma broadcast_shapes_11c (h w c : nat) :
  Np.broadcast_shapes [h; w; c] [1; 1; c] = Some [h; w; c].
Proof.
  unfold Np.broadcast_shapes. simpl. rewrite !Nat.eqb_refl.
  destruct h as [|[|h]], w as [|[|w]]; reflexivity.
Qed.

Lemma bindex_11c (h w c q r : nat) :
  q < h * w -> r < c -> Np.bindex [1; 1; c] [h; w; c] (q * c + r) = r.
Proof.
  intros Hq Hr. unfold Np.bindex. cbn [length Nat.sub skipn Np.unravel numel fold_right].
  rewrite !Nat.mul_1_r. cbn [combine map fst snd Np.ravel numel fold_right].
  rewrite !Nat.eqb_refl, !Nat.mul_1_r, !Nat.add_0_r.
  assert (Hw : w <> 0) by (intros ->; lia).
  pose proof (Nat.div_mod_eq q w) as Eq.
  pose proof (Nat.mod_upper_bound q w Hw) as Hb.
  assert (E2 : (q * c + r) mod (w * c) = (q mod w) * c + r).
  { symmetry. apply (Nat.mod_unique _ _ (q / w)); nia. }
  rewrite E2. destruct (divmod_unique c (q mod w) r Hr) as [_ E3]. rewrite E3.
  rewrite Nat.div_1_r. destruct (c =? 1) eqn:E; [|lia].
  apply Nat.eqb_eq in E. lia.
Qed.

Lemma forallb_seq_true (f : nat -> bool) (n : nat) :
  (forall k, k < n -> f k = true) -> forallb f (seq 0 n) = true.
Proof.
  intros H. apply forallb_forall. intros k Hk. apply in_seq in Hk. apply H. lia.
Qed.

(** The result of an operation that is defined on every pair of operands met. *)
Lemma broadcast2_Ok (f : Q -> Q -> option Q) (g : Q -> Q -> Q) (a b : ndarray Q) s :
  Np.broadcast_shapes (shape a) (shape b) = Some s ->
  (forall k, k < numel s ->
     f (nth (Np.bindex (shape a) s k) (data a) 0%Q)
       (nth (Np.bindex (shape b) s k) (data b) 0%Q) =
     Some (g (nth (Np.bindex (shape a) s k) (data a) 0%Q)
             (nth (Np.bindex (shape b) s k) (data b) 0%Q))) ->
  Np.broadcast2 f a b =
  Ok (NDArray s (map (fun k => g (nth (Np.bindex (shape a) s k) (data a) 0%Q)
                                 (nth (Np.bindex (shape b) s k) (data b) 0%Q))
                     (seq 0 (numel s)))).
Proof.
  intros Hs Hf. unfold Np.broadcast2. rewrite Hs.
  rewrite forallb_seq_true by (intros k Hk; now rewrite Hf).
  do 2 f_equal. apply map_ext_in. intros k Hk. apply in_seq in Hk.
  rewrite Hf by lia. reflexivity.
Qed.


(** ** Sums *)

Lemma Qsum_map_ext {A : Type} (f g : A -> Q) (l : list A) :
  (forall x, In x l -> (f x == g x)%Q) -> (Np.Qsum (map f l) == Np.Qsum (map g l))%Q.
Proof.
  induction l as [|x l IH]; intros H; simpl; [reflexivity|].
  rewrite (H x) by now left. rewrite IH; [reflexivity|].
  intros y Hy. apply H. now right.
Qed.

Lemma Qsum_indicator {A : Type} (f : A -> bool) (l : list A) :
  (Np.Qsum (map (fun x => if f x then 1 else 0) l) ==
   inject_Z (Z.of_nat (length (filter f l))))%Q.
Proof.
  induction l as [|x l IH]; simpl; [reflexivity|].
  rewrite IH. destruct (f x); simpl length.
  - rewrite Nat2Z.inj_succ, <- Z.add_1_l, inject_Z_plus. reflexivity.
  - ring.
Qed.

(** A weighted sum with non-negative weights lies between the bounds of the
    values, scaled by the total weight. *)
Lemma Qsum_weighted_bounds {A : Type} (m x : A -> Q) (lo hi : Q) (l : list A) :
  (forall a, In a l -> (0 <= m a)%Q /\ (lo <= x a <= hi)%Q) ->
  (lo * Np.Qsum (map m l) <= Np.Qsum (map (fun a => m a * x a) l) <=
   hi * Np.Qsum (map m l))%Q.
Proof.
  induction l as [|a l IH]; intros H; simpl.
  - split; lra.
  - destruct (H a (or_introl eq_refl)) as [Hm [Hlo Hhi]].
    destruct IH as [IH1 IH2]; [intros b Hb; apply H; now right|].
    split; nra.
Qed.

(** ** Atmospheric light *)

Lemma multiply_mask_image (md : list Q) (im : ndarray Q) (h w c : nat) :
  shape im = [h; w; c] ->
  Np.multiply (NDArray [h; w; 1] md) im =
  Ok (NDArray [h; w; c]
        (map (fun k => Qmult (nth (Np.bindex [h; w; 1] [h; w; c] k) md 0%Q)
                             (nth (Np.bindex [h; w; c] [h; w; c] k) (data im) 0%Q))
             (seq 0 (numel [h; w; c])))).
Proof.
  intros Him. unfold Np.multiply.
  rewrite (broadcast2_Ok _ Qmult _ _ [h; w; c]).
  - cbn [shape data]. rewrite Him. reflexivity.
  - cbn [shape]. rewrite Him. apply broadcast_shapes_hw1.
  - reflexivity.
Qed.

Section AtmosphericLight.

Variable np_argsort : list Q -> list nat.
Hypothesis np_argsort_spec : forall l, Np.is_argsort l (np_argsort l).

Lemma nth_map_div (N : Q) (l : list Q) (k : nat) :
  (nth k (map (fun x => x / N) l) 0 == nth k l 0 / N)%Q.
Proof.
  destruct (Nat.lt_ge_cases k (length l)) as [Hl|Hl].
  - rewrite (nth_indep _ 0%Q (0 / N)%Q) by now rewrite length_map.
    now rewrite (map_nth (fun x => (x / N)%Q)).
  - rewrite !nth_overflow by (try rewrite length_map; assumption).
    unfold Qdiv. ring.
Qed.

Lemma get_atmos_light_spec (im dc : ndarray Q) (h w c : nat) (top_ratio : Q) :
  shape im = [h; w; c] -> shape dc = [h; w] -> wf_array dc ->
  exists A,
    get_atmos_light np_argsort im dc top_ratio = Ok A /\ shape A = [c] /\
    forall ch, ch < c ->
      (nth ch (data A) 0 ==
       Np.Qsum (map (fun q =>
           (if existsb (Nat.eqb q)
                 (Np.take_last (Z.to_nat (numpix_spec h w top_ratio))
                               (np_argsort (data dc)))
            then 1 else 0) * nth (q * c + ch) (data im) 0) (seq 0 (h * w)))
       / inject_Z (numpix_spec h w top_ratio))%Q.
Proof.
  intros Him Hdc Hwf.
  unfold wf_array in Hwf. rewrite Hdc in Hwf. simpl in Hwf. rewrite Nat.mul_1_r in Hwf.
  unfold get_atmos_light. rewrite Hdc, Him. cbn [length bind].
  rewrite max_int_of_float.
  rewrite (multiply_mask_image _ im h w c Him).
  cbn [bind shape data]. eexists. split; [reflexivity|].
  unfold Np.sum01, Np.map_array. cbn [shape data skipn firstn numel fold_right].
  rewrite !Nat.mul_1_r. split; [reflexivity|].
  intros ch Hch. unfold numpix_spec. rewrite nth_map_div.
  rewrite map_seq_nth by assumption.
  apply Qmult_comp; [|reflexivity].
  apply Qsum_map_ext. intros q Hq. apply in_seq in Hq.
  assert (Hk : q * c + ch < h * (w * c)) by nia.
  rewrite map_seq_nth by assumption.
  rewrite bindex_hw1 by lia.
  rewrite bindex_same by (simpl; lia).
  rewrite put_all_nth by (rewrite repeat_length; lia).
  rewrite nth_repeat. reflexivity.
Qed.


End AtmosphericLight.




(** ** Scene recovery *)

(** Every position of an array of shape (h, w, c) is a pixel and a channel. *)
Lemma flat_index_split (h w c k : nat) :
  k < h * (w * c) -> exists q r, k = q * c + r /\ q < h * w /\ r < c.
Proof.
  intros Hk. assert (Hc : c <> 0) by (intros ->; lia).
  exists (k / c), (k mod c).
  pose proof (Nat.div_mod_eq k c). pose proof (Nat.mod_upper_bound k c Hc).
  repeat split; try lia.
  apply Nat.Div0.div_lt_upper_bound. lia.
Qed.

Lemma clip_one (x t0 : Q) : (x == 1)%Q -> (Qmin 1 (Qmax x t0) == 1)%Q.
Proof.
  intros Hx. apply Q.min_l. rewrite <- Hx at 1. apply Q.le_max_l.
Qed.

Lemma Forall2_map_seq_nth (f : nat -> Q) (l : list Q) (n : nat) :
  n = length l ->
  (forall k, k < n -> (f k == nth k l 0)%Q) ->
  Forall2 Qeq (map f (seq 0 n)) l.
Proof.
  intros ->. induction l as [|x l IH] using rev_ind; intros H; [constructor|].
  rewrite length_app, Nat.add_comm. simpl length. rewrite seq_S, map_app. simpl.
  apply Forall2_app.
  - apply IH. intros k Hk. rewrite H by (rewrite length_app; simpl; lia).
    rewrite app_nth1 by assumption. reflexivity.
  - constructor; [|constructor].
    rewrite H by (rewrite length_app; simpl; lia).
    rewrite app_nth2 by lia. rewrite Nat.sub_diag. reflexivity.
Qed.

(** A scalar of shape (1, 1) against a 2-D image. *)
Lemma broadcast_shapes_11 (h w : nat) :
  Np.broadcast_shapes [h; w] [1; 1] = Some [h; w].
Proof.
  unfold Np.broadcast_shapes. simpl.
  destruct h as [|[|h]], w as [|[|w]]; reflexivity.
Qed.

Lemma bindex_11 (h w k : nat) : Np.bindex [1; 1] [h; w] k = 0.
Proof. reflexivity. Qed.

Lemma get_J_identity_color
  (I A t : ndarray Q) (h w c : nat) (t0 : Q) :
  shape I = [h; w; c] -> wf_array I ->
  shape A = [c] ->
  shape t = [h; w] -> wf_array t ->
  Forall (fun x => (x == 1)%Q) (data t) ->
  exists J, get_J I A t t0 false = Ok J /\
            shape J = shape I /\ Forall2 Qeq (data J) (data I).
Proof.
  intros HI HwI HA Ht Hwt Hone.
  unfold wf_array in HwI, Hwt. rewrite HI in HwI. rewrite Ht in Hwt.
  simpl in HwI, Hwt. rewrite Nat.mul_1_r in HwI, Hwt.
  assert (Ht1 : forall q, q < h * w ->
            (nth q (map (fun x => Qmin 1 (Qmax x t0)) (data t)) 0 == 1)%Q).
  { intros q Hq.
    rewrite (nth_indep _ 0%Q (Qmin 1 (Qmax 0 t0))) by (rewrite length_map; lia).
    rewrite (map_nth (fun x => Qmin 1 (Qmax x t0))).
    apply clip_one. rewrite Forall_forall in Hone. apply Hone, nth_In. lia. }
  unfold get_J, _expand_A_as_B, Np.clip, Np.map_array.
  rewrite HI, HA, Ht. cbn [length Nat.sub shape data].
  cbv [Nat.iter nat_rect]. cbn [app].
  unfold Np.subtract.
  rewrite (broadcast2_Ok _ Qminus _ _ [h; w; c]);
    [|cbn [shape]; rewrite HI; apply broadcast_shapes_11c|reflexivity].
  cbn [bind shape data]. rewrite HI.
  unfold Np.divide.
  rewrite (broadcast2_Ok _ Qdiv _ _ [h; w; c]);
    [|apply broadcast_shapes_hw1_r|].
  - cbn [bind shape data]. unfold Np.add.
    rewrite (broadcast2_Ok _ Qplus _ _ [h; w; c]);
      [|apply broadcast_shapes_11c|reflexivity].
    cbn [bind shape data]. eexists. split; [reflexivity|].
    split; [reflexivity|].
    cbn [numel fold_right]. rewrite Nat.mul_1_r.
    apply Forall2_map_seq_nth; [now symmetry|]. intros k Hk.
    destruct (flat_index_split h w c k Hk) as [q [r [-> [Hq Hr]]]].
    repeat first [ rewrite bindex_same by (simpl; lia)
                 | rewrite map_seq_nth by lia
                 | rewrite bindex_hw1 by assumption
                 | rewrite bindex_11c by assumption ].
    rewrite (Ht1 q Hq). field.
  - intros k Hk. cbn [shape data numel fold_right] in *. rewrite Nat.mul_1_r in Hk.
    destruct (flat_index_split h w c k Hk) as [q [r [-> [Hq Hr]]]].
    rewrite bindex_hw1 by assumption.
    destruct (Qeq_bool _ 0) eqn:E; [|reflexivity].
    apply Qeq_bool_iff in E. rewrite (Ht1 q Hq) in E. discriminate.
Qed.

Lemma get_J_identity_gray (I A t : ndarray Q) (h w : nat) (t0 : Q) :
  shape I = [h; w] -> wf_array I ->
  shape A = [] ->
  shape t = [h; w] -> wf_array t ->
  Forall (fun x => (x == 1)%Q) (data t) ->
  exists J, get_J I A t t0 false = Ok J /\
            shape J = shape I /\ Forall2 Qeq (data J) (data I).
Proof.
  intros HI HwI HA Ht Hwt Hone.
  unfold wf_array in HwI, Hwt. rewrite HI in HwI. rewrite Ht in Hwt.
  simpl in HwI, Hwt. rewrite Nat.mul_1_r in HwI, Hwt.
  assert (Ht1 : forall q, q < h * w ->
            (nth q (map (fun x => Qmin 1 (Qmax x t0)) (data t)) 0 == 1)%Q).
  { intros q Hq.
    rewrite (nth_indep _ 0%Q (Qmin 1 (Qmax 0 t0))) by (rewrite length_map; lia).
    rewrite (map_nth (fun x => Qmin 1 (Qmax x t0))).
    apply clip_one. rewrite Forall_forall in Hone. apply Hone, nth_In. lia. }
  unfold get_J, _expand_A_as_B, Np.clip, Np.map_array.
  rewrite HI, HA, Ht. cbn [length Nat.sub shape data].
  cbv [Nat.iter nat_rect].
  unfold Np.subtract.
  rewrite (broadcast2_Ok _ Qminus _ _ [h; w]);
    [|cbn [shape]; rewrite HI; apply broadcast_shapes_11|reflexivity].
  cbn [bind shape data]. rewrite HI.
  unfold Np.divide.
  rewrite (broadcast2_Ok _ Qdiv _ _ [h; w]);
    [|apply broadcast_shapes_same|].
  - cbn [bind shape data]. unfold Np.add.
    rewrite (broadcast2_Ok _ Qplus _ _ [h; w]);
      [|apply broadcast_shapes_11|reflexivity].
    cbn [bind shape data]. eexists. split; [reflexivity|].
    split; [reflexivity|].
    cbn [numel fold_right]. rewrite Nat.mul_1_r.
    apply Forall2_map_seq_nth; [now symmetry|]. intros k Hk.
    repeat first [ rewrite bindex_same by (simpl; lia)
                 | rewrite map_seq_nth by lia
                 | rewrite bindex_11 ].
    rewrite (Ht1 k Hk). field.
  - intros k Hk. cbn [shape data numel fold_right] in *. rewrite Nat.mul_1_r in Hk.
    rewrite (bindex_same [h; w]) by (simpl; lia).
    destruct (Qeq_bool _ 0) eqn:E; [|reflexivity].
    apply Qeq_bool_iff in E. rewrite (Ht1 k Hk) in E. discriminate.
Qed.




(** ** Results *)

Lemma bind_Ok {A B : Type} (c : result A) (k : A -> result B) (b : B) :
  bind c k = Ok b -> exists a, c = Ok a /\ k a = Ok b.
Proof. destruct c as [a|e]; simpl; [eauto|discriminate]. Qed.

Ltac bind_inv H :=
  let a := fresh "v" in
  let Ha := fresh "E" in
  apply bind_Ok in H; destruct H as [a [Ha H]].

(** ** A single trailing channel *)

Lemma get_dark_channel_one_channel (img : ndarray Q) (h w : nat) (p : Z * Z) :
  shape img = [h; w; 1] -> get_dark_channel img p = Raise RuntimeError.
Proof.
  intros Hsh. unfold get_dark_channel. rewrite Hsh. simpl.
  unfold Ndimage.minimum_filter. now rewrite Hsh.
Qed.

(** C8.  On a 1 x 1 image with a trailing axis of one channel, and the
    default patch size, [get_dark_channel] raises [RuntimeError]: the copy
    of the image keeps its three axes, while the size given to
    [minimum_filter] has two entries. *)
Theorem get_dark_channel_one_channel_example :
  get_dark_channel (NDArray [1; 1; 1] [(1 # 2)%Q]) default_patch_size
  = Raise RuntimeError.
Proof. apply (get_dark_channel_one_channel _ 1 1). reflexivity. Qed.

(** ** Keyword arguments *)

Lemma kw_accept_lookup (names : list string) (kw : kwargs) (k : string) :
  kw_accept names kw = Ok tt -> ~ In k names -> kw_lookup k kw = None.
Proof.
  unfold kw_accept, kw_lookup. intros H Hk.
  destruct (forallb _ kw) eqn:E; [|discriminate]. clear H.
  rewrite forallb_forall in E.
  destruct (find (fun e => (fst e =? k)%string) kw) as [e|] eqn:F; [|reflexivity].
  exfalso. apply find_some in F. destruct F as [Hin He].
  apply String.eqb_eq in He. specialize (E e Hin).
  apply existsb_exists in E. destruct E as [n [Hn Hen]].
  apply String.eqb_eq in Hen. apply Hk. congruence.
Qed.

Lemma refine_Ok_keys (lib : libraries) method I p kw t (k : string) :
  refine lib method I p kw = Ok t ->
  ~ In k ["lam"; "consts"; "eps"; "win_size"; "ks"; "s"]%string ->
  kw_lookup k kw = None.
Proof.
  intros H Hk. unfold refine in H.
  assert (Hsoft : forall r,
    (_ <- kw_accept ["lam"; "consts"; "eps"; "win_size"]%string kw ;; r) = Ok t ->
    kw_lookup k kw = None).
  { intros r Hr. bind_inv Hr. destruct v.
    apply (kw_accept_lookup _ _ k E). simpl in *. tauto. }
  destruct method as [m|]; [|now apply Hsoft in H].
  destruct (m =? "soft")%string; [now apply Hsoft in H|].
  destruct (m =? "guided")%string.
  { bind_inv H. destruct v. apply (kw_accept_lookup _ _ k E). simpl in *. tauto. }
  destruct (m =? "fast")%string; [|discriminate].
  bind_inv H. destruct v. apply (kw_accept_lookup _ _ k E). simpl in *. tauto.
Qed.

(** ** The pipeline *)

Lemma dehaze_image_stages (lib : libraries) I method patch_size top_ratio kw out :
  dehaze_image lib I method patch_size top_ratio kw = Ok out ->
  out_I out = I /\
  get_dark_channel I patch_size = Ok (out_dc out) /\
  get_mask (lib_argsort lib) (out_dc out) top_ratio = Ok (out_mask out) /\
  get_atmos_light (lib_argsort lib) I (out_dc out) top_ratio = Ok (out_A out) /\
  get_tilde_t I (out_A out) default_omega [] = Ok (out_tilde_t out) /\
  refine lib method I (out_tilde_t out) kw = Ok (out_t out) /\
  get_J I (out_A out) (out_t out) default_t0 true = Ok (out_J out) /\
  out_D out = get_depth (out_t out) default_beta.
Proof.
  unfold dehaze_image. intros H.
  destruct (match method with Some m => _ | None => false end); [discriminate|].
  bind_inv H. rename v into dc. bind_inv H. rename v into mask.
  bind_inv H. rename v into A. bind_inv H. rename v into tilde_t.
  bind_inv H. rename v into t. bind_inv H. rename v into J.
  injection H as <-. simpl. repeat split; assumption.
Qed.


(** ** The flag of the iterative solver *)

(** C9, as the code has it.  [soft_matting] does not look at the flag that
    the conjugate-gradient routine returns with its iterate: rewriting the
    flag by any function [f] leaves the outcome of [soft_matting]
    unchanged, be it an array or an exception. *)
Theorem soft_matting_discards_info
  (cg : Sparse.matrix -> list Q -> result (list Q * Z)) (f : Z -> Z)
  (I p : ndarray Q) (lam : Q) (kw : kwargs) :
  soft_matting (with_info f cg) I p lam kw = soft_matting cg I p lam kw.
Proof.
  unfold soft_matting.
  destruct (kw_accept _ kw) as [[]|e]; [|reflexivity]. cbn [bind].
  destruct (kw_consts kw) as [consts|e]; [|reflexivity]. cbn [bind].
  destruct (kw_number _ _ kw) as [eps|e]; [|reflexivity]. cbn [bind].
  destruct (kw_win_size kw) as [ws|e]; [|reflexivity]. cbn [bind].
  destruct (get_laplace_matting_matrix I consts eps ws) as [L|e]; [|reflexivity].
  cbn [bind]. destruct (regularized L lam) as [M|e]; [|reflexivity]. cbn [bind].
  unfold with_info. destruct (cg M _) as [[x info]|e]; reflexivity.
Qed.


(** ** Depth *)

Lemma ln_nonpos_iff (x : R) : (0 < x)%R -> (ln x <= 0 <-> x <= 1)%R.
Proof.
  intros Hx. split; intros H.
  - destruct (Rle_or_lt x 1) as [Hle|Hlt]; [assumption|].
    apply ln_increasing in Hlt; [|lra]. rewrite ln_1 in Hlt. lra.
  - destruct H as [Hlt|Heq].
    + apply ln_increasing in Hlt; [|assumption]. rewrite ln_1 in Hlt. lra.
    + subst. rewrite ln_1. lra.
Qed.

Lemma Q2R_pos (q : Q) : (0 < q)%Q -> (0 < Q2R q)%R.
Proof. intros H. apply Qlt_Rlt in H. now rewrite RMicromega.Q2R_0 in H. Qed.

Lemma Q2R_le_1 (q : Q) : (Q2R q <= 1)%R <-> (q <= 1)%Q.
Proof.
  rewrite <- RMicromega.Q2R_1. split; [apply Rle_Qle|apply Qle_Rle].
Qed.

Lemma depth_of_default (t : Q) :
  ((exists r, depth_of default_beta t = Finite r /\ (0 <= r)%R) <-> (0 < t <= 1)%Q) /\
  ((1 < t)%Q -> exists r, depth_of default_beta t = Finite r /\ (r < 0)%R) /\
  ((t == 0)%Q -> depth_of default_beta t = PlusInf) /\
  ((t < 0)%Q -> depth_of default_beta t = NaN).
Proof.
  assert (Hb : (0 < Q2R default_beta)%R) by (apply Q2R_pos; reflexivity).
  unfold depth_of.
  replace (Qeq_bool default_beta 0) with false by reflexivity.
  replace (Qle_bool 0 default_beta) with true by reflexivity.
  destruct (Qle_bool t 0) eqn:Ele.
  - apply Qle_bool_iff in Ele.
    destruct (Qeq_bool t 0) eqn:Eeq.
    + apply Qeq_bool_iff in Eeq.
      split; [split|split; [|split]].
      * intros [r [Hr _]]. discriminate.
      * intros [H _]. lra.
      * intros H. lra.
      * reflexivity.
      * intros H. lra.
    + apply Qeq_bool_neq in Eeq.
      split; [split|split; [|split]].
      * intros [r [Hr _]]. discriminate.
      * intros [H _]. lra.
      * intros H. lra.
      * intros H. contradiction.
      * reflexivity.
  - assert (Ht : (0 < t)%Q).
    { apply Qnot_le_lt. intros H. apply Qle_bool_iff in H. congruence. }
    pose proof (Q2R_pos t Ht) as HtR.
    pose proof (ln_nonpos_iff (Q2R t) HtR) as Hln.
    pose proof (Q2R_le_1 t) as H1.
    split; [split|split; [|split]].
    + intros [r [Hr Hr0]]. injection Hr as <-. split; [assumption|].
      apply H1, Hln.
      assert (0 <= - ln (Q2R t))%R; [|lra].
      apply (Rmult_le_reg_r (/ Q2R default_beta)); [now apply Rinv_0_lt_compat|].
      unfold Rdiv in Hr0. lra.
    + intros [_ Hle]. eexists. split; [reflexivity|].
      apply H1, Hln in Hle. unfold Rdiv.
      apply Rmult_le_pos; [lra|]. left. now apply Rinv_0_lt_compat.
    + intros Hgt. eexists. split; [reflexivity|].
      assert (0 < ln (Q2R t))%R.
      { destruct (Rle_or_lt (ln (Q2R t)) 0) as [Hle|]; [|assumption].
        apply Hln, H1 in Hle. lra. }
      unfold Rdiv. apply Ropp_lt_cancel.
      rewrite Ropp_0, <- Ropp_mult_distr_l, Ropp_involutive.
      apply Rmult_lt_0_compat; [assumption|now apply Rinv_0_lt_compat].
    + intros H. lra.
    + intros H. lra.
Qed.



(** ** Sums *)

Lemma Qsum_app (l1 l2 : list Q) : (Np.Qsum (l1 ++ l2) == Np.Qsum l1 + Np.Qsum l2)%Q.
Proof.
  induction l1 as [|x l1 IH]; simpl; [ring|]. rewrite IH. ring.
Qed.

Lemma Qsum_map_add {A : Type} (f g : A -> Q) (l : list A) :
  (Np.Qsum (map (fun x => f x + g x) l) == Np.Qsum (map f l) + Np.Qsum (map g l))%Q.
Proof.
  induction l as [|x l IH]; simpl; [ring|]. rewrite IH. ring.
Qed.

Lemma Qsum_map_scale {A : Type} (k : Q) (f : A -> Q) (l : list A) :
  (Np.Qsum (map (fun x => k * f x) l) == k * Np.Qsum (map f l))%Q.
Proof.
  induction l as [|x l IH]; simpl; [ring|]. rewrite IH. ring.
Qed.

Lemma Qsum_map_zero {A : Type} (f : A -> Q) (l : list A) :
  (forall x, In x l -> (f x == 0)%Q) -> (Np.Qsum (map f l) == 0)%Q.
Proof.
  induction l as [|x l IH]; intros H; simpl; [reflexivity|].
  rewrite (H x) by now left. rewrite IH; [ring|]. intros y Hy. apply H. now right.
Qed.

Lemma Qsum_map_nonneg {A : Type} (f : A -> Q) (l : list A) :
  (forall x, In x l -> (0 <= f x)%Q) -> (0 <= Np.Qsum (map f l))%Q.
Proof.
  induction l as [|x l IH]; intros H; simpl; [apply Qle_refl|].
  assert (0 <= f x)%Q by (apply H; now left).
  assert (0 <= Np.Qsum (map f l))%Q by (apply IH; intros y Hy; apply H; now right).
  lra.
Qed.

Lemma Qsum_flat_map {A B : Type} (f : B -> Q) (g : A -> list B) (l : list A) :
  (Np.Qsum (map f (flat_map g l)) == Np.Qsum (map (fun x => Np.Qsum (map f (g x))) l))%Q.
Proof.
  induction l as [|x l IH]; simpl; [reflexivity|].
  rewrite map_app, Qsum_app, IH. reflexivity.
Qed.

Lemma Qsum_swap {A B : Type} (f : A -> B -> Q) (l1 : list A) (l2 : list B) :
  (Np.Qsum (map (fun a => Np.Qsum (map (fun b => f a b) l2)) l1) ==
   Np.Qsum (map (fun b => Np.Qsum (map (fun a => f a b) l1)) l2))%Q.
Proof.
  induction l1 as [|a l1 IH]; simpl.
  - symmetry. apply Qsum_map_zero. reflexivity.
  - rewrite IH. rewrite <- Qsum_map_add. reflexivity.
Qed.

(** The sum over [0, n) of a function that vanishes off [i]. *)
Lemma Qsum_seq_single (f : nat -> Q) (n i : nat) :
  i < n -> (forall k, k <> i -> (f k == 0)%Q) ->
  (Np.Qsum (map f (seq 0 n)) == f i)%Q.
Proof.
  intros Hi Hz.
  assert (H : forall s m : nat,
             (s <= i < s + m -> (Np.Qsum (map f (seq s m)) == f i)%Q) /\
             (~ (s <= i < s + m) -> (Np.Qsum (map f (seq s m)) == 0)%Q)).
  { intros s m. revert s. induction m as [|m IH]; intros s; simpl.
    - split; [lia|reflexivity].
    - destruct (IH (S s)) as [IH1 IH2]. split; intros Hr.
      + destruct (Nat.eq_dec s i) as [->|Hne].
        * rewrite IH2 by lia. ring.
        * rewrite IH1 by lia. rewrite (Hz s Hne). ring.
      + rewrite IH2 by lia. rewrite (Hz s) by lia. ring. }
  apply H. lia.
Qed.


(** ** Quadratic forms of coordinate matrices *)

Lemma single_entry_form (n m : nat) (e : nat * nat * Q) (x : list Q) :
  in_range n m e ->
  (Np.Qsum (map (fun r =>
     Np.Qsum (map (fun c =>
        nth r x 0 * (if (fst (fst e) =? r) && (snd (fst e) =? c) then snd e else 0) *
        nth c x 0) (seq 0 m))) (seq 0 n)) ==
   snd e * nth (fst (fst e)) x 0 * nth (snd (fst e)) x 0)%Q.
Proof.
  intros [Hr Hc].
  rewrite (Qsum_seq_single _ n (fst (fst e))); [|assumption|].
  - rewrite (Qsum_seq_single _ m (snd (fst e))); [|assumption|].
    + rewrite !Nat.eqb_refl. simpl. ring.
    + intros k Hk. rewrite Nat.eqb_refl.
      destruct (Nat.eqb_spec (snd (fst e)) k); [congruence|]. simpl. ring.
  - intros k Hk. apply Qsum_map_zero. intros c _.
    destruct (Nat.eqb_spec (fst (fst e)) k); [congruence|]. simpl. ring.
Qed.

Lemma quad_form_entries (n m : nat) (es : list (nat * nat * Q)) (x : list Q) :
  Forall (in_range n m) es ->
  (quad_form (Sparse.Matrix n m es) x == entry_form es x)%Q.
Proof.
  unfold quad_form, entry_form, Sparse.get. cbn [Sparse.nrows Sparse.ncols Sparse.entries].
  induction es as [|e es IH]; intros Hr.
  - simpl. apply Qsum_map_zero. intros r _. apply Qsum_map_zero. intros c _. ring.
  - inversion Hr as [|? ? He Hes]; subst. cbn [map Np.Qsum fold_right].
    rewrite <- (IH Hes), <- (single_entry_form n m e x He).
    rewrite <- Qsum_map_add. apply Qsum_map_ext. intros r _.
    rewrite <- Qsum_map_add. apply Qsum_map_ext. intros c _.
    unfold Np.Qsum. ring.
Qed.

Lemma entry_form_app (es es' : list (nat * nat * Q)) (x : list Q) :
  (entry_form (es ++ es') x == entry_form es x + entry_form es' x)%Q.
Proof. unfold entry_form. now rewrite map_app, Qsum_app. Qed.

(** ** The shape of the result of get_laplace_matting_matrix *)

Lemma affinity_matrix_Ok I consts eps win_size A :
  affinity_matrix I consts eps win_size = Ok A ->
  exists h w c consts' triples,
    shape I = [h; w; c] /\
    match consts with
    | None => consts' = None
    | Some m => exists m', NdimageMorphology.binary_erosion m (win_size * 2 + 1) = Ok m' /\
                           consts' = Some m'
    end /\
    laplace_loop I w c win_size eps consts' (window_centers h w win_size) = Ok triples /\
    Forall (in_range (h * w) (h * w)) triples /\
    A = Sparse.Matrix (h * w) (h * w) triples.
Proof.
  unfold affinity_matrix. intros H.
  destruct (shape I) as [|h [|w [|c [|]]]] eqn:Hs; try discriminate.
  bind_inv H. rename v into consts'. bind_inv H. bind_inv H. rename v0 into triples.
  exists h, w, c, consts', triples. split; [reflexivity|].
  split.
  { destruct consts as [m|].
    - bind_inv E. exists v0. split; [assumption|]. congruence.
    - congruence. }
  split; [assumption|].
  unfold Sparse.coo_matrix in H.
  destruct (forallb _ triples) eqn:Hf; [|discriminate]. injection H as <-.
  split; [|reflexivity].
  apply Forall_forall. intros e He. rewrite forallb_forall in Hf.
  specialize (Hf e He). apply andb_prop in Hf. destruct Hf as [H1 H2].
  apply Nat.ltb_lt in H1, H2. split; assumption.
Qed.

Lemma row_sums_length (A : Sparse.matrix) :
  length (Sparse.row_sums A) = Sparse.nrows A.
Proof. unfold Sparse.row_sums. now rewrite length_map, length_seq. Qed.

Lemma get_laplace_matting_matrix_Ok I consts eps win_size L :
  get_laplace_matting_matrix I consts eps win_size = Ok L ->
  exists A, affinity_matrix I consts eps win_size = Ok A /\
            Sparse.nrows A <> 1 /\
            L = Sparse.Matrix (Sparse.nrows A) (Sparse.nrows A)
                  (laplace_entries (Sparse.nrows A) (Sparse.entries A)).
Proof.
  unfold get_laplace_matting_matrix. intros H. bind_inv H. rename v into A.
  exists A. split; [assumption|].
  destruct (affinity_matrix_Ok _ _ _ _ _ E)
    as (h & w & c & consts' & triples & _ & _ & _ & _ & ->).
  cbn [Sparse.nrows Sparse.entries] in *.
  bind_inv H. destruct (Nat.eqb_spec (h * w) 1) as [|Hne]; [discriminate|].
  split; [assumption|].
  bind_inv H. unfold Sparse.diags in E1. rewrite row_sums_length in E1.
  cbn [Sparse.nrows] in E1. rewrite Nat.eqb_refl in E1. injection E1 as <-.
  unfold Sparse.sub, Sparse.same_shape in H. cbn [Sparse.nrows Sparse.ncols] in H.
  rewrite !Nat.eqb_refl in H. cbn [andb Sparse.entries] in H.
  injection H as <-. reflexivity.
Qed.


(** ** Colour statistics of a window *)

Module Mat3Facts.
Export Mat3Notions.
Import Mat3.
Local Open Scope Q_scope.

Ltac unvec := unfold veq, symmetric, dot, vecmat, vadd, vsub, vscale, vdiv, vzero,
                     madd, msub, mscale, mdiv, mred, outer, eye, mzero in *;
              cbn [vx vy vz m00 m01 m02 m10 m11 m12 m20 m21 m22] in *;
              rewrite ?Qred_correct in *.

Lemma dot_comm (a b : vec) : dot a b == dot b a.
Proof. unvec. ring. Qed.

Lemma dot_veq_l (a a' b : vec) : veq a a' -> dot a b == dot a' b.
Proof. intros [H1 [H2 H3]]. unfold dot. rewrite H1, H2, H3. reflexivity. Qed.

Lemma vsum_cons (x : vec) (l : list vec) : vsum (x :: l) = vadd x (vsum l).
Proof. reflexivity. Qed.

Lemma gram_cons (x : vec) (l : list vec) : gram (x :: l) = madd (outer x x) (gram l).
Proof. reflexivity. Qed.

Lemma gram_symmetric (l : list vec) : symmetric (gram l).
Proof.
  induction l as [|x l IH].
  - unvec. cbn. (split; [|split]); reflexivity.
  - rewrite gram_cons. destruct IH as [H1 [H2 H3]]. unvec.
    rewrite H1, H2, H3. (split; [|split]); ring.
Qed.

(** The inverse is a left inverse. *)
Lemma inv_left (c v : mat) (g : vec) :
  inv c = Ok v -> veq (vecmat (vecmat g v) c) g.
Proof.
  unfold inv. destruct (Qeq_bool (det c) 0) eqn:E; [discriminate|].
  apply Qeq_bool_neq in E. intros H. injection H as <-.
  unfold det in *. unvec. (split; [|split]); field; exact E.
Qed.

Lemma inv_symmetric (c v : mat) : symmetric c -> inv c = Ok v -> symmetric v.
Proof.
  unfold inv. destruct (Qeq_bool (det c) 0) eqn:E; [discriminate|].
  apply Qeq_bool_neq in E. intros [H1 [H2 H3]] H. injection H as <-.
  unfold det in *. unvec. rewrite H1, H2, H3 in *.
  (split; [|split]); field; exact E.
Qed.


(** *** The quadratic form of one window

    A window is a list of pairs: the value [y] of the vector at a pixel
    and the centred colour [x] of the pixel. *)

Lemma Qsum_cons (x : Q) (l : list Q) : Np.Qsum (x :: l) = x + Np.Qsum l.
Proof. reflexivity. Qed.

Ltac uncons :=
  unfold Sy, Syy, Sx, Syx, Syyx, count in *;
  cbn [map] in *; rewrite ?Qsum_cons, ?vsum_cons, ?gram_cons in *;
  fold Sy Syy Sx Syx Syyx count in *.

(** The sum over the second pixel of a window, the first being fixed. *)
Lemma window_inner_sum (n ya : Q) (pa : vec) (l : list (Q * vec)) :
  ~ n == 0 ->
  Np.Qsum (map (fun kb => (1 + dot pa (snd kb)) / n * (fst kb * fst kb - fst kb * ya)) l)
  == (Syy l - ya * Sy l + dot pa (Syyx l) - ya * dot pa (Syx l)) / n.
Proof.
  intros Hn. induction l as [|[yb xb] l IH].
  - unfold Syy, Sy, Syyx, Syx. cbn [map Np.Qsum vsum fold_right]. unvec. field. exact Hn.
  - unfold Syy, Sy, Syyx, Syx in *. cbn [map fst snd] in *.
    rewrite !Qsum_cons, !vsum_cons, IH. unvec. field. exact Hn.
Qed.

(** The sum over the first pixel. *)
Lemma window_outer_sum (n a b : Q) (q u : vec) (V : mat) (l : list (Q * vec)) :
  ~ n == 0 ->
  Np.Qsum (map (fun ka =>
     (a - fst ka * b + dot (vecmat (snd ka) V) q - fst ka * dot (vecmat (snd ka) V) u) / n) l)
  == (count l * a - Sy l * b + dot (vecmat (Sx l) V) q - dot (vecmat (Syx l) V) u) / n.
Proof.
  intros Hn. induction l as [|[ya xa] l IH].
  - unfold count, Sy, Sx, Syx. cbn [map Np.Qsum vsum fold_right]. unvec. field. exact Hn.
  - unfold count, Sy, Sx, Syx in *. cbn [map fst snd] in *.
    rewrite !Qsum_cons, !vsum_cons, IH. unvec. field. exact Hn.
Qed.

(** A sum of squares, expanded. *)
Lemma window_squares (n m : Q) (g : vec) (l : list (Q * vec)) :
  ~ n == 0 ->
  Np.Qsum (map (fun kb => (fst kb - m - dot g (snd kb) / n) *
                          (fst kb - m - dot g (snd kb) / n)) l)
  == Syy l + count l * m * m + dot (vecmat g (gram (map snd l))) g / (n * n)
     - 2 * m * Sy l - 2 * dot g (Syx l) / n + 2 * m * dot g (Sx l) / n.
Proof.
  intros Hn. induction l as [|[yb xb] l IH].
  - unfold count, Sy, Syy, Sx, Syx. cbn [map Np.Qsum vsum gram fold_right]. unvec.
    field. exact Hn.
  - unfold count, Sy, Syy, Sx, Syx in *. cbn [map fst snd] in *.
    rewrite !Qsum_cons, !vsum_cons, !gram_cons, IH. unvec. field. exact Hn.
Qed.

Ltac split9 := unfold meq; repeat match goal with |- _ /\ _ => split end.

Lemma vecmat_meq (g : vec) (a b : mat) : meq a b -> veq (vecmat g a) (vecmat g b).
Proof.
  intros (H0 & H1 & H2 & H3 & H4 & H5 & H6 & H7 & H8). unvec.
  rewrite H0, H1, H2, H3, H4, H5, H6, H7, H8. repeat split; reflexivity.
Qed.

Lemma square_nonneg (a : Q) : 0 <= a * a.
Proof. nra. Qed.

Lemma dot_self_nonneg (g : vec) : 0 <= dot g g.
Proof.
  unfold dot. pose proof (square_nonneg (vx g)). pose proof (square_nonneg (vy g)).
  pose proof (square_nonneg (vz g)). lra.
Qed.

(** The quadratic form of one window is a sum of squares plus a multiple of
    [eps]: it is not negative. *)
Lemma window_form_nonneg (n eps : Q) (V C : mat) (l : list (Q * vec)) :
  0 < n -> count l == n -> veq (Sx l) vzero -> 0 <= eps ->
  meq C (madd (mdiv (gram (map snd l)) n) (mscale (eps / n) eye)) ->
  inv C = Ok V ->
  0 <= Np.Qsum (map (fun ka =>
         Np.Qsum (map (fun kb =>
            (1 + dot (vecmat (snd ka) V) (snd kb)) / n *
            (fst kb * fst kb - fst kb * fst ka)) l)) l).
Proof.
  intros Hn Hcount Hsx Heps HC Hinv.
  assert (Hn0 : ~ n == 0) by lra.
  set (g := vecmat (Syx l) V).
  set (m := Sy l / n).
  assert (Hg : veq (vecmat g (madd (mdiv (gram (map snd l)) n) (mscale (eps / n) eye)))
                   (Syx l)).
  { pose proof (inv_left C V (Syx l) Hinv) as H1. fold g in H1.
    pose proof (vecmat_meq g _ _ HC) as H2.
    destruct H1 as (a1 & a2 & a3), H2 as (b1 & b2 & b3).
    repeat split; [rewrite <- b1|rewrite <- b2|rewrite <- b3]; assumption. }
  assert (HgG : dot (vecmat g (gram (map snd l))) g / n + eps / n * dot g g
                == dot g (Syx l)).
  { rewrite (dot_comm g (Syx l)). rewrite <- (dot_veq_l _ _ g Hg).
    unvec. field. exact Hn0. }
  assert (Hz1 : forall q, dot (vecmat (Sx l) V) q == 0).
  { intros q. destruct Hsx as (a1 & a2 & a3). unvec. rewrite a1, a2, a3. ring. }
  assert (Hz2 : dot g (Sx l) == 0).
  { destruct Hsx as (a1 & a2 & a3). unvec. rewrite a1, a2, a3. ring. }
  assert (Hsq :
    Np.Qsum (map (fun ka =>
       Np.Qsum (map (fun kb =>
          (1 + dot (vecmat (snd ka) V) (snd kb)) / n *
          (fst kb * fst kb - fst kb * fst ka)) l)) l)
    == Np.Qsum (map (fun kb => (fst kb - m - dot g (snd kb) / n) *
                               (fst kb - m - dot g (snd kb) / n)) l)
       + eps * dot g g / (n * n)).
  { rewrite (Qsum_map_ext _
       (fun ka => (Syy l - fst ka * Sy l + dot (vecmat (snd ka) V) (Syyx l)
                   - fst ka * dot (vecmat (snd ka) V) (Syx l)) / n)).
    2:{ intros ka _. apply window_inner_sum. exact Hn0. }
    rewrite window_outer_sum by exact Hn0.
    rewrite window_squares by exact Hn0.
    rewrite Hz1, Hz2, Hcount. fold g. rewrite <- HgG. unfold m. field. exact Hn0. }
  rewrite Hsq.
  assert (0 <= Np.Qsum (map (fun kb => (fst kb - m - dot g (snd kb) / n) *
                                       (fst kb - m - dot g (snd kb) / n)) l)).
  { apply Qsum_map_nonneg. intros kb _. apply square_nonneg. }
  assert (0 <= eps * dot g g / (n * n)).
  { apply Qle_shift_div_l; [nra|]. pose proof (dot_self_nonneg g). nra. }
  lra.
Qed.

End Mat3Facts.


Module WindowFacts.
Export WindowNotions.
Import Mat3 Mat3Facts.
Local Open Scope Q_scope.

Lemma map_length_const {A B : Type} (l : list A) (l' : list B) :
  length l = length l' ->
  Np.Qsum (map (fun _ => 1) l') = Np.Qsum (map (fun _ => 1) l).
Proof.
  revert l'. induction l as [|a l IH]; intros [|b l'] H; simpl in *; try congruence.
  f_equal. apply IH. congruence.
Qed.

Lemma vcount_length (X : list vec) : vcount X == inject_Z (Z.of_nat (length X)).
Proof.
  unfold vcount. induction X as [|x X IH]; [reflexivity|].
  cbn [map length]. rewrite Qsum_cons, IH, Nat2Z.inj_succ, <- Z.add_1_l, inject_Z_plus.
  reflexivity.
Qed.

Lemma vsum_shift (mu : vec) (X : list vec) :
  veq (vsum (map (fun x => vsub x mu) X)) (vsub (vsum X) (vscale (vcount X) mu)).
Proof.
  unfold vcount. induction X as [|x X IH].
  - cbn [map vsum fold_right Np.Qsum]. unvec. (split; [|split]); ring.
  - cbn [map]. rewrite !vsum_cons, Qsum_cons. destruct IH as (a1 & a2 & a3).
    unvec. rewrite a1, a2, a3. (split; [|split]); ring.
Qed.

Lemma gram_shift (mu : vec) (X : list vec) :
  meq (gram (map (fun x => vsub x mu) X))
      (madd (msub (msub (gram X) (outer (vsum X) mu)) (outer mu (vsum X)))
            (mscale (vcount X) (outer mu mu))).
Proof.
  unfold vcount. induction X as [|x X IH].
  - cbn [map vsum gram fold_right Np.Qsum]. unfold meq. unvec. split9; ring.
  - cbn [map]. rewrite !vsum_cons, !gram_cons, Qsum_cons.
    destruct IH as (H0 & H1 & H2 & H3 & H4 & H5 & H6 & H7 & H8).
    unfold meq. unvec. rewrite H0, H1, H2, H3, H4, H5, H6, H7, H8. split9; ring.
Qed.

(** The colours of a window, centred on their mean, sum to zero, and the
    matrix the code inverts is their covariance plus [eps / n]. *)
Lemma centered_sum (n : Q) (X : list vec) :
  ~ n == 0 -> vcount X == n ->
  veq (vsum (map (fun x => vsub x (vdiv (vsum X) n)) X)) vzero.
Proof.
  intros Hn Hc. destruct (vsum_shift (vdiv (vsum X) n) X) as (a1 & a2 & a3).
  unvec. rewrite a1, a2, a3, Hc. (split; [|split]); field; exact Hn.
Qed.

Lemma covariance_centered (n eps : Q) (X : list vec) :
  ~ n == 0 -> vcount X == n ->
  meq (window_covariance X n eps)
      (madd (mdiv (gram (map (fun x => vsub x (vdiv (vsum X) n)) X)) n)
            (mscale (eps / n) eye)).
Proof.
  intros Hn Hc. unfold window_covariance.
  destruct (gram_shift (vdiv (vsum X) n) X)
    as (H0 & H1 & H2 & H3 & H4 & H5 & H6 & H7 & H8).
  unfold meq. unvec. rewrite H0, H1, H2, H3, H4, H5, H6, H7, H8, Hc.
  split9; field; exact Hn.
Qed.


(** *** The entries of one window *)

Lemma map_snd_combine {A B : Type} (a : list A) (b : list B) :
  length a = length b -> map snd (combine a b) = b.
Proof.
  revert b. induction a as [|x a IH]; intros [|y b] H; simpl in *; try congruence.
  f_equal. apply IH. congruence.
Qed.

Lemma map_fst_combine {A B : Type} (a : list A) (b : list B) :
  length a = length b -> map fst (combine a b) = a.
Proof.
  revert b. induction a as [|x a IH]; intros [|y b] H; simpl in *; try congruence.
  f_equal. apply IH. congruence.
Qed.

Lemma window_indices_length (w r i j : nat) :
  length (window_indices w r i j) = ((2 * r + 1) * (2 * r + 1))%nat.
Proof.
  unfold window_indices. rewrite (flat_map_rows_length (2 * r + 1)).
  - now rewrite length_seq.
  - intros a. now rewrite length_map, length_seq.
Qed.

Lemma window_entries_Ok (I : ndarray Q) (w c r : nat) (eps : Q) (i j : nat) es :
  window_entries I w c r eps i j = Ok es ->
  c = 3%nat /\
  exists V,
    inv (window_covariance (map (pixel I) (window_indices w r i j))
           (inject_Z (Z.of_nat ((2 * r + 1) ^ 2))) eps) = Ok V /\
    es = window_block I w r V i j.
Proof.
  unfold window_entries. destruct (Nat.eqb_spec c 3) as [->|]; [|discriminate].
  cbn [negb]. intros H. bind_inv H. injection H as <-.
  split; [reflexivity|]. exists v. split; [assumption|reflexivity].
Qed.

Lemma neb_size_pos (r : nat) : 0 < inject_Z (Z.of_nat ((2 * r + 1) ^ 2)).
Proof.
  replace 0 with (inject_Z 0) by reflexivity. rewrite <- Zlt_Qlt.
  apply (Nat2Z.inj_lt 0). rewrite Nat.pow_2_r. nia.
Qed.

Lemma window_block_form_nonneg (I : ndarray Q) (w r : nat) (eps : Q) (V : mat)
    (i j : nat) (x : list Q) :
  0 <= eps ->
  inv (window_covariance (map (pixel I) (window_indices w r i j))
         (inject_Z (Z.of_nat ((2 * r + 1) ^ 2))) eps) = Ok V ->
  0 <= affinity_form (window_block I w r V i j) x.
Proof.
  intros Heps Hinv. unfold affinity_form, window_block.
  set (n := inject_Z (Z.of_nat ((2 * r + 1) ^ 2))) in *.
  set (X := map (pixel I) (window_indices w r i j)) in *.
  set (X' := map (fun x0 => vsub x0 (vdiv (vsum X) n)) X).
  set (win := combine (window_indices w r i j) X').
  pose proof (neb_size_pos r) as Hn. fold n in Hn.
  assert (Hn0 : ~ n == 0) by lra.
  assert (HlenX : length X = ((2 * r + 1) * (2 * r + 1))%nat).
  { unfold X. now rewrite length_map, window_indices_length. }
  assert (HcX : vcount X == n).
  { rewrite vcount_length, HlenX. unfold n. now rewrite Nat.pow_2_r. }
  assert (Hlen' : length (window_indices w r i j) = length X').
  { unfold X'. now rewrite length_map, window_indices_length, HlenX. }
  set (l := map (fun k : nat * vec => (nth (fst k) x 0, snd k)) win).
  assert (Hsnd : map snd l = X').
  { unfold l. rewrite map_map. cbn [snd]. unfold win. now apply map_snd_combine. }
  pose proof (window_form_nonneg n eps V (window_covariance X n eps) l) as Hcore.
  rewrite Qsum_flat_map.
  assert (Heq :
    Np.Qsum (map (fun ka =>
       Np.Qsum (map (fun kb =>
          (1 + dot (vecmat (snd ka) V) (snd kb)) / n *
          (fst kb * fst kb - fst kb * fst ka)) l)) l)
    == Np.Qsum (map (fun ka =>
         Np.Qsum (map (fun e => snd e * (nth (fst (fst e)) x 0 * nth (fst (fst e)) x 0
                                   - nth (fst (fst e)) x 0 * nth (snd (fst e)) x 0))
           (map (fun kb => (fst kb, fst ka,
                            Qred ((1 + dot (vecmat (snd ka) V) (snd kb)) / n))) win))) win)).
  { unfold l. rewrite map_map. apply Qsum_map_ext. intros ka _.
    rewrite !map_map. apply Qsum_map_ext. intros kb _. cbn [fst snd].
    rewrite Qred_correct. reflexivity. }
  rewrite <- Heq. apply Hcore.
  - exact Hn.
  - unfold count. rewrite <- HcX. unfold vcount.
    rewrite <- (map_length_const l X).
    + reflexivity.
    + unfold l, win. rewrite length_map, length_combine, <- Hlen', Nat.min_id.
      now rewrite window_indices_length.
  - unfold Sx. rewrite Hsnd. unfold X'. now apply centered_sum.
  - exact Heps.
  - rewrite Hsnd. unfold X'. now apply covariance_centered.
  - exact Hinv.
Qed.

End WindowFacts.


Module LaplaceFacts.
Export LaplaceNotions.
Import Mat3 Mat3Facts WindowFacts.

Lemma get_entry_get (n m : nat) es r c :
  Sparse.get (Sparse.Matrix n m es) r c = entry_get es r c.
Proof. reflexivity. Qed.

Lemma entry_get_app es es' r c :
  (entry_get (es ++ es') r c == entry_get es r c + entry_get es' r c)%Q.
Proof. unfold entry_get. now rewrite map_app, Qsum_app. Qed.

Lemma affinity_form_app es es' x :
  (affinity_form (es ++ es') x == affinity_form es x + affinity_form es' x)%Q.
Proof. unfold affinity_form. now rewrite map_app, Qsum_app. Qed.

(** *** One window *)

Lemma covariance_symmetric (X : list vec) (n eps : Q) :
  symmetric (window_covariance X n eps).
Proof.
  unfold window_covariance. destruct (gram_symmetric X) as (H1 & H2 & H3).
  unvec. rewrite H1, H2, H3. (split; [|split]); ring.
Qed.

Lemma affinity_symmetric (V : mat) (a b : vec) :
  symmetric V -> (dot (vecmat a V) b == dot (vecmat b V) a)%Q.
Proof. intros (H1 & H2 & H3). unvec. rewrite H1, H2, H3. ring. Qed.

Lemma Qsum_double_swap {A : Type} (f : A -> A -> Q) (l : list A) :
  (Np.Qsum (map (fun a => Np.Qsum (map (fun b => f a b) l)) l) ==
   Np.Qsum (map (fun a => Np.Qsum (map (fun b => f b a) l)) l))%Q.
Proof. apply Qsum_swap. Qed.

Lemma window_block_symmetric (I : ndarray Q) (w r : nat) (eps : Q) (V : mat)
    (i j : nat) (p q : nat) :
  inv (window_covariance (map (pixel I) (window_indices w r i j))
         (inject_Z (Z.of_nat ((2 * r + 1) ^ 2))) eps) = Ok V ->
  (entry_get (window_block I w r V i j) p q == entry_get (window_block I w r V i j) q p)%Q.
Proof.
  intros Hinv.
  pose proof (inv_symmetric _ _ (covariance_symmetric _ _ _) Hinv) as Hsym.
  unfold entry_get, window_block.
  set (n := inject_Z (Z.of_nat ((2 * r + 1) ^ 2))).
  set (win := combine _ _).
  rewrite !Qsum_flat_map.
  rewrite (Qsum_map_ext _ (fun ka => Np.Qsum (map (fun kb =>
             if (fst kb =? p) && (fst ka =? q)
             then ((1 + dot (vecmat (snd ka) V) (snd kb)) / n)%Q else 0%Q) win))).
  2:{ intros ka _. rewrite map_map. apply Qsum_map_ext. intros kb _. cbn [fst snd].
      destruct (_ && _); [apply Qred_correct|reflexivity]. }
  rewrite Qsum_double_swap.
  apply Qsum_map_ext. intros ka _. rewrite map_map.
  apply Qsum_map_ext. intros kb _. cbn [fst snd].
  rewrite andb_comm. destruct (_ && _); [|reflexivity].
  rewrite Qred_correct, (affinity_symmetric V _ _ Hsym). reflexivity.
Qed.

Lemma window_block_support (I : ndarray Q) (w r : nat) (V : mat) (i j : nat) e :
  In e (window_block I w r V i j) ->
  In (fst (fst e)) (window_indices w r i j) /\ In (snd (fst e)) (window_indices w r i j).
Proof.
  unfold window_block. set (win := combine _ _).
  assert (Hfst : forall k, In k win -> In (fst k) (window_indices w r i j)).
  { intros [a b] Hk. apply in_combine_l in Hk. exact Hk. }
  intros He. apply in_flat_map in He. destruct He as [ka [Hka He]].
  apply in_map_iff in He. destruct He as [kb [<- Hkb]]. cbn [fst snd].
  split; apply Hfst; assumption.
Qed.

(** *** The loop over the windows *)

Lemma laplace_loop_ind (P : list (nat * nat * Q) -> Prop)
    (I : ndarray Q) (w c r : nat) (eps : Q) (consts : option (ndarray bool)) :
  P [] -> (forall a b, P a -> P b -> P (a ++ b)) ->
  forall centers,
    (forall i j V, In (i, j) centers ->
       inv (window_covariance (map (pixel I) (window_indices w r i j))
              (inject_Z (Z.of_nat ((2 * r + 1) ^ 2))) eps) = Ok V ->
       P (window_block I w r V i j)) ->
    forall triples, laplace_loop I w c r eps consts centers = Ok triples -> P triples.
Proof.
  intros Hnil Happ centers. induction centers as [|[i j] rest IH]; intros Hwin triples H.
  - injection H as <-. exact Hnil.
  - cbn [laplace_loop] in H. bind_inv H. rename v into skip.
    bind_inv H. rename v into here. bind_inv H. rename v into later.
    injection H as <-. apply Happ.
    + destruct skip.
      * injection E0 as <-. exact Hnil.
      * apply window_entries_Ok in E0. destruct E0 as [_ [V [HV ->]]].
        apply (Hwin i j V); [now left|exact HV].
    + apply IH; [|assumption]. intros i' j' V Hin. apply Hwin. now right.
Qed.


(** *** Rows of the affinity matrix and of the Laplacian *)

Lemma Qsum_map_mul_r {A : Type} (f : A -> Q) (l : list A) (k : Q) :
  (Np.Qsum (map f l) * k == Np.Qsum (map (fun x => f x * k) l))%Q.
Proof.
  induction l as [|x l IH]; cbn [map]; rewrite ?Qsum_cons.
  - cbn. ring.
  - rewrite <- IH. ring.
Qed.

Lemma row_sums_nth (n : nat) es r :
  r < n -> nth r (Sparse.row_sums (Sparse.Matrix n n es)) 0%Q = row_weight es r.
Proof.
  intros Hr. unfold Sparse.row_sums. cbn [Sparse.nrows Sparse.entries].
  now rewrite map_seq_nth.
Qed.

Lemma row_weight_total (n : nat) es r :
  Forall (in_range n n) es ->
  (Np.Qsum (map (fun c => entry_get es r c) (seq 0 n)) == row_weight es r)%Q.
Proof.
  intros Hin. unfold entry_get, row_weight. rewrite Qsum_swap.
  apply Qsum_map_ext. intros e He. rewrite Forall_forall in Hin.
  destruct (Hin e He) as [_ Hc].
  rewrite (Qsum_seq_single _ n (snd (fst e))); [|assumption|].
  - rewrite Nat.eqb_refl, andb_true_r. reflexivity.
  - intros k Hk. destruct (Nat.eqb_spec (snd (fst e)) k); [congruence|].
    now rewrite andb_false_r.
Qed.

Lemma entry_get_negated es r c :
  (entry_get (map (fun e => (fst e, (- snd e)%Q)) es) r c == - entry_get es r c)%Q.
Proof.
  unfold entry_get. rewrite map_map. cbn [fst snd].
  induction es as [|e es IH]; cbn [map]; rewrite ?Qsum_cons.
  - reflexivity.
  - rewrite IH. destruct (_ && _); ring.
Qed.

Lemma entry_get_diagonal (n : nat) (d : nat -> Q) r c :
  (entry_get (map (fun i => (i, i, d i)) (seq 0 n)) r c ==
   if (r =? c) && (r <? n) then d r else 0)%Q.
Proof.
  unfold entry_get. rewrite map_map. cbn [fst snd].
  destruct (Nat.eqb_spec r c) as [<-|Hne]; cbn [andb].
  - destruct (Nat.ltb_spec r n) as [Hr|Hr].
    + rewrite (Qsum_seq_single _ n r); [|assumption|].
      * now rewrite Nat.eqb_refl.
      * intros k Hk. destruct (Nat.eqb_spec k r); [congruence|reflexivity].
    + apply Qsum_map_zero. intros k Hk. apply in_seq in Hk.
      destruct (Nat.eqb_spec k r); [lia|reflexivity].
  - apply Qsum_map_zero. intros k _.
    destruct (Nat.eqb_spec k r) as [->|]; [|reflexivity].
    destruct (Nat.eqb_spec r c); [congruence|reflexivity].
Qed.

(** Position [(r, c)] of [diags(sumA) - A]. *)
Lemma entry_get_laplace (n : nat) es r c :
  (entry_get (laplace_entries n es) r c ==
   (if (r =? c) && (r <? n) then row_weight es r else 0) - entry_get es r c)%Q.
Proof.
  unfold laplace_entries. rewrite entry_get_app, entry_get_negated.
  rewrite (entry_get_diagonal n
             (fun i => nth i (Sparse.row_sums (Sparse.Matrix n n es)) 0%Q)).
  destruct (Nat.eqb_spec r c) as [<-|]; cbn [andb]; [|ring].
  destruct (Nat.ltb_spec r n) as [Hr|]; [|ring].
  rewrite row_sums_nth by assumption. ring.
Qed.

(** The quadratic form of [diags(sumA) - A] in terms of the affinity entries. *)
Lemma laplace_quad_form (n : nat) es x :
  Forall (in_range n n) es ->
  (quad_form (Sparse.Matrix n n (laplace_entries n es)) x == affinity_form es x)%Q.
Proof.
  intros Hin. rewrite quad_form_entries.
  2:{ unfold laplace_entries. apply Forall_app. split.
      - apply Forall_forall. intros e He. apply in_map_iff in He.
        destruct He as [i [<- Hi]]. apply in_seq in Hi. split; cbn; lia.
      - apply Forall_forall. intros e He. apply in_map_iff in He.
        destruct He as [e' [<- He']]. rewrite Forall_forall in Hin.
        exact (Hin e' He'). }
  unfold laplace_entries. rewrite entry_form_app. unfold entry_form, affinity_form.
  rewrite !map_map. cbn [fst snd].
  assert (Hd :
    (Np.Qsum (map (fun i => nth i (Sparse.row_sums (Sparse.Matrix n n es)) 0 *
                            nth i x 0 * nth i x 0) (seq 0 n)) ==
     Np.Qsum (map (fun e => snd e * nth (fst (fst e)) x 0 * nth (fst (fst e)) x 0) es))%Q).
  { rewrite (Qsum_map_ext _ (fun i => Np.Qsum (map (fun e =>
               ((if fst (fst e) =? i then snd e else 0) * (nth i x 0 * nth i x 0))%Q) es))).
    2:{ intros i Hi. apply in_seq in Hi. rewrite row_sums_nth by lia.
        unfold row_weight. rewrite <- Qsum_map_mul_r. ring. }
    rewrite Qsum_swap. apply Qsum_map_ext. intros e He.
    rewrite Forall_forall in Hin. destruct (Hin e He) as [Hr _].
    rewrite (Qsum_seq_single _ n (fst (fst e))); [|assumption|].
    - rewrite Nat.eqb_refl. ring.
    - intros k Hk. destruct (Nat.eqb_spec (fst (fst e)) k); [congruence|ring]. }
  rewrite Hd, <- Qsum_map_add. apply Qsum_map_ext. intros e _. ring.
Qed.


(** *** When the construction returns *)

Lemma window_centers_range (h w r i j : nat) :
  In (i, j) (window_centers h w r) -> r <= i /\ i + r < h /\ r <= j /\ j + r < w.
Proof.
  unfold window_centers. intros H. apply in_flat_map in H.
  destruct H as [j' [Hj H]]. apply in_map_iff in H. destruct H as [i' [Heq Hi]].
  injection Heq as <- <-. apply in_seq in Hj, Hi. lia.
Qed.

Lemma window_indices_range (h w r i j p : nat) :
  r <= i -> i + r < h -> r <= j -> j + r < w ->
  In p (window_indices w r i j) -> p < h * w.
Proof.
  intros Hi1 Hi2 Hj1 Hj2 H. unfold window_indices in H. apply in_flat_map in H.
  destruct H as [a [Ha H]]. apply in_map_iff in H. destruct H as [b [<- Hb]].
  apply in_seq in Ha, Hb. nia.
Qed.

Lemma window_entries_total (I : ndarray Q) (w r : nat) (eps : Q) (i j : nat) :
  covariance_regular I w r eps i j ->
  exists es, window_entries I w 3 r eps i j = Ok es.
Proof.
  unfold covariance_regular, window_entries. intros Hdet. cbn [Nat.eqb negb].
  unfold inv. destruct (Qeq_bool _ 0) eqn:E.
  - apply Qeq_bool_iff in E. contradiction.
  - cbn [bind]. eexists. reflexivity.
Qed.

Lemma laplace_loop_total (I : ndarray Q) (w r : nat) (eps : Q)
    (consts : option (ndarray bool)) (centers : list (nat * nat)) :
  (forall i j, In (i, j) centers ->
     (exists b, skip_window consts i j = Ok b) /\ covariance_regular I w r eps i j) ->
  exists triples, laplace_loop I w 3 r eps consts centers = Ok triples.
Proof.
  induction centers as [|[i j] rest IH]; intros H.
  - eexists. reflexivity.
  - destruct (H i j (or_introl eq_refl)) as [[b Hb] Hreg].
    destruct IH as [later Hlater]; [intros i' j' Hin; apply H; now right|].
    destruct (window_entries_total I w r eps i j Hreg) as [es Hes].
    cbn [laplace_loop]. rewrite Hb. cbn [bind]. rewrite Hlater.
    destruct b; cbn [bind]; [|rewrite Hes; cbn [bind]]; eexists; reflexivity.
Qed.

Lemma laplace_loop_support (I : ndarray Q) (h w c r : nat) (eps : Q)
    (consts : option (ndarray bool)) triples :
  laplace_loop I w c r eps consts (window_centers h w r) = Ok triples ->
  forall e, In e triples -> shares_window h w r (fst (fst e)) (snd (fst e)).
Proof.
  intros H.
  apply (laplace_loop_ind
           (fun es => forall e, In e es -> shares_window h w r (fst (fst e)) (snd (fst e)))
           I w c r eps consts) with (centers := window_centers h w r); try assumption.
  - intros e [].
  - intros a b Ha Hb e He. apply in_app_or in He. destruct He; auto.
  - intros i j V Hin _ e He. apply window_block_support in He.
    exists i, j. tauto.
Qed.

Lemma shares_window_range (h w r p q : nat) :
  shares_window h w r p q -> p < h * w /\ q < h * w.
Proof.
  intros (i & j & Hc & Hp & Hq). apply window_centers_range in Hc.
  destruct Hc as (H1 & H2 & H3 & H4).
  split; [apply (window_indices_range h w r i j p)|apply (window_indices_range h w r i j q)];
    assumption.
Qed.

Lemma binary_erosion_shape (m : ndarray bool) (k h w : nat) :
  shape m = [h; w] ->
  exists m', NdimageMorphology.binary_erosion m k = Ok m' /\ shape m' = [h; w].
Proof.
  intros Hs. unfold NdimageMorphology.binary_erosion. rewrite Hs.
  eexists. split; reflexivity.
Qed.

Lemma affinity_matrix_total (I : ndarray Q) consts eps r h w :
  laplacian_defined I consts eps r h w ->
  exists triples,
    affinity_matrix I consts eps r = Ok (Sparse.Matrix (h * w) (h * w) triples).
Proof.
  intros (HI & _ & Hc & Hreg). unfold affinity_matrix. rewrite HI.
  assert (Hloop : forall consts',
    (forall i j, In (i, j) (window_centers h w r) -> exists b, skip_window consts' i j = Ok b) ->
    exists triples,
      (triples <- laplace_loop I w 3 r eps consts' (window_centers h w r) ;;
       Sparse.coo_matrix triples (h * w)) = Ok (Sparse.Matrix (h * w) (h * w) triples)).
  { intros consts' Hskip.
    destruct (laplace_loop_total I w r eps consts' (window_centers h w r)) as [triples Ht].
    { intros i j Hin. split; [now apply Hskip|now apply Hreg]. }
    exists triples. rewrite Ht. cbn [bind]. unfold Sparse.coo_matrix.
    rewrite (proj2 (forallb_forall _ _)); [reflexivity|].
    intros e He. apply (laplace_loop_support _ _ _ _ _ _ _ _ Ht), shares_window_range in He.
    destruct He as [H1 H2]. apply Nat.ltb_lt in H1, H2. now rewrite H1, H2. }
  destruct consts as [m|].
  - destruct (binary_erosion_shape m (r * 2 + 1) h w Hc) as [m' [Hm' Hs']].
    rewrite Hm'. cbn [bind]. apply Hloop.
    intros i j Hin. apply window_centers_range in Hin. unfold skip_window. rewrite Hs'.
    destruct Hin as (H1 & H2 & H3 & H4).
    assert (Hi : (i <? h) = true) by (apply Nat.ltb_lt; lia).
    assert (Hj : (j <? w) = true) by (apply Nat.ltb_lt; lia).
    rewrite Hi, Hj. cbn [andb]. eexists. reflexivity.
  - cbn [bind]. destruct (Z.ltb_spec ((Z.of_nat h - 2 * Z.of_nat r) *
                                      (Z.of_nat w - 2 * Z.of_nat r)) 0); [lia|].
    cbn [bind]. apply Hloop. intros i j _. exists false. reflexivity.
Qed.

End LaplaceFacts.

Import Mat3 Mat3Facts WindowFacts LaplaceFacts.

(** The result of [get_laplace_matting_matrix] wherever it is defined, from
    the entries of the affinity matrix. *)
Lemma get_laplace_matting_matrix_total (I : ndarray Q) consts eps r h w :
  laplacian_defined I consts eps r h w ->
  exists triples,
    affinity_matrix I consts eps r = Ok (Sparse.Matrix (h * w) (h * w) triples) /\
    get_laplace_matting_matrix I consts eps r =
      Ok (Sparse.Matrix (h * w) (h * w) (laplace_entries (h * w) triples)) /\
    Forall (in_range (h * w) (h * w)) triples /\
    (forall e, In e triples -> shares_window h w r (fst (fst e)) (snd (fst e))) /\
    (forall p q, (entry_get triples p q == entry_get triples q p)%Q) /\
    ((0 <= eps)%Q -> forall x, (0 <= affinity_form triples x)%Q).
Proof.
  intros Hdef. destruct (affinity_matrix_total I consts eps r h w Hdef) as [triples HA].
  exists triples. split; [assumption|].
  destruct Hdef as (HI & Hne & _ & _).
  destruct (affinity_matrix_Ok _ _ _ _ _ HA)
    as (h' & w' & c & consts' & triples' & HI' & _ & Hloop & Hin & Heq).
  rewrite HI in HI'. injection HI' as <- <- <-. injection Heq as <-.
  split.
  { unfold get_laplace_matting_matrix. rewrite HA. cbn [bind Sparse.nrows].
    destruct (Nat.eqb_spec (h * w) 1); [lia|]. cbn [bind].
    unfold Sparse.diags. rewrite row_sums_length. cbn [Sparse.nrows].
    rewrite Nat.eqb_refl. cbn [bind]. unfold Sparse.sub, Sparse.same_shape.
    cbn [Sparse.nrows Sparse.ncols Sparse.entries]. rewrite !Nat.eqb_refl.
    reflexivity. }
  split; [assumption|].
  split; [now apply (laplace_loop_support I h w 3 r eps consts')|].
  split.
  - intros p q.
    apply (laplace_loop_ind
             (fun es => (entry_get es p q == entry_get es q p)%Q)
             I w 3 r eps consts') with (centers := window_centers h w r);
      try assumption.
    + reflexivity.
    + intros a b Ha Hb. rewrite !entry_get_app, Ha, Hb. reflexivity.
    + intros i j V _ HV. now apply window_block_symmetric with (eps := eps).
  - intros Heps x.
    apply (laplace_loop_ind (fun es => (0 <= affinity_form es x)%Q)
             I w 3 r eps consts') with (centers := window_centers h w r);
      try assumption.
    + apply Qle_refl.
    + intros a b Ha Hb. rewrite affinity_form_app. lra.
    + intros i j V _ HV. now apply window_block_form_nonneg with (eps := eps).
Qed.

(** C1.  For an H x W x 3 image on which the regularised covariance of
    every window can be inverted, and [eps >= 0],
    [get_laplace_matting_matrix] returns a matrix [L] of size
    (H*W) x (H*W) that is [D - A], where [A] is the accumulated affinity
    matrix and [D] the diagonal matrix of the row sums of [A].  [L] is
    symmetric, each of its rows sums to zero, [x.T L x >= 0] for every
    vector [x], and an entry [L(p, q)] is nonzero only when the pixels [p]
    and [q] lie in one window of (2*win_size+1)^2 pixels. *)
Theorem matting_laplacian_properties (I : ndarray Q) consts eps r h w :
  laplacian_defined I consts eps r h w -> (0 <= eps)%Q ->
  exists L A,
    get_laplace_matting_matrix I consts eps r = Ok L /\
    affinity_matrix I consts eps r = Ok A /\
    Sparse.nrows L = h * w /\ Sparse.ncols L = h * w /\
    (forall p q, p < h * w ->
       (Sparse.get L p q == (if p =? q then row_total A p else 0) - Sparse.get A p q)%Q) /\
    (forall p q, (Sparse.get L p q == Sparse.get L q p)%Q) /\
    (forall p, p < h * w -> (row_total L p == 0)%Q) /\
    (forall x, (0 <= quad_form L x)%Q) /\
    (forall p q, ~ (Sparse.get L p q == 0)%Q -> shares_window h w r p q).
Proof.
  intros Hdef Heps.
  destruct (get_laplace_matting_matrix_total I consts eps r h w Hdef)
    as (triples & HA & HL & Hin & Hsup & Hsym & Hpsd).
  exists (Sparse.Matrix (h * w) (h * w) (laplace_entries (h * w) triples)),
         (Sparse.Matrix (h * w) (h * w) triples).
  split; [assumption|]. split; [assumption|].
  split; [reflexivity|]. split; [reflexivity|].
  assert (Hget : forall p q,
    (Sparse.get (Sparse.Matrix (h * w) (h * w) (laplace_entries (h * w) triples)) p q ==
     (if (p =? q) && (p <? h * w) then row_weight triples p else 0)
     - entry_get triples p q)%Q).
  { intros p q. rewrite get_entry_get. apply entry_get_laplace. }
  assert (Hrow : forall p,
    (row_total (Sparse.Matrix (h * w) (h * w) triples) p == row_weight triples p)%Q).
  { intros p. unfold row_total. cbn [Sparse.ncols].
    rewrite <- (row_weight_total (h * w) triples p Hin).
    apply Qsum_map_ext. intros c _. reflexivity. }
  split; [|split; [|split; [|split]]].
  - intros p q Hp. rewrite Hget, get_entry_get.
    apply Nat.ltb_lt in Hp. rewrite Hp, andb_true_r.
    destruct (p =? q); [rewrite Hrow|]; reflexivity.
  - intros p q. destruct (Nat.eq_dec p q) as [->|Hne]; [reflexivity|].
    rewrite !Hget, (Hsym p q).
    rewrite (proj2 (Nat.eqb_neq p q)), (proj2 (Nat.eqb_neq q p)) by congruence.
    reflexivity.
  - intros p Hp. unfold row_total. cbn [Sparse.ncols].
    rewrite (Qsum_map_ext _ (fun c =>
               ((if c =? p then row_weight triples p else 0) +
                - entry_get triples p c)%Q)).
    2:{ intros c _. rewrite Hget. apply Nat.ltb_lt in Hp. rewrite Hp, andb_true_r.
        rewrite (Nat.eqb_sym p c). ring. }
    rewrite Qsum_map_add.
    rewrite (Qsum_seq_single _ (h * w) p); [|assumption|].
    2:{ intros k Hk. destruct (Nat.eqb_spec k p); [congruence|reflexivity]. }
    rewrite Nat.eqb_refl.
    rewrite (Qsum_map_ext _ (fun c => (-(1) * entry_get triples p c)%Q))
      by (intros; ring).
    rewrite Qsum_map_scale, (row_weight_total (h * w) triples p Hin). ring.
  - intros x. rewrite laplace_quad_form by assumption. now apply Hpsd.
  - intros p q Hnz.
    destruct (existsb (fun e => (fst (fst e) =? p) && (snd (fst e) =? q)) triples) eqn:Ex.
    + apply existsb_exists in Ex. destruct Ex as [e [He Hpq]].
      apply andb_prop in Hpq. destruct Hpq as [H1 H2].
      apply Nat.eqb_eq in H1, H2. subst. now apply Hsup.
    + assert (Hz : (entry_get triples p q == 0)%Q).
      { unfold entry_get. apply Qsum_map_zero. intros e He.
        destruct (_ && _) eqn:Hpq; [|reflexivity].
        exfalso. assert (existsb (fun e => (fst (fst e) =? p) && (snd (fst e) =? q)) triples = true)
          by (apply existsb_exists; eauto). congruence. }
      rewrite Hget, Hz in Hnz.
      destruct (Nat.eqb_spec p q) as [Heq|Hne]; cbn [andb] in Hnz.
      2:{ exfalso. apply Hnz. ring. }
      subst q.
      destruct (existsb (fun e => fst (fst e) =? p) triples) eqn:Er.
      * apply existsb_exists in Er. destruct Er as [e [He Hp]].
        apply Nat.eqb_eq in Hp. subst.
        destruct (Hsup e He) as (i & j & Hc & Hp & _). exists i, j. tauto.
      * exfalso. apply Hnz.
        assert (Hw : (row_weight triples p == 0)%Q).
        { unfold row_weight. apply Qsum_map_zero. intros e He.
          destruct (_ =? _) eqn:Hp; [|reflexivity].
          exfalso. assert (existsb (fun e => fst (fst e) =? p) triples = true)
            by (apply existsb_exists; eauto). congruence. }
        destruct (p <? h * w); [rewrite Hw|]; ring.
Qed.

(** ** The linear system of soft matting *)

Lemma Forall2_Qeq_nth (a b : list Q) :
  Forall2 Qeq a b -> forall k, (nth k a 0 == nth k b 0)%Q.
Proof.
  induction 1 as [|x y a b Hxy _ IH]; intros [|k]; simpl; try reflexivity; auto.
Qed.

Lemma Forall2_Qeq_of_nth (a b : list Q) :
  length a = length b -> (forall k, k < length a -> (nth k a 0 == nth k b 0)%Q) ->
  Forall2 Qeq a b.
Proof.
  revert b. induction a as [|x a IH]; intros [|y b] Hl H; simpl in *; try discriminate.
  - constructor.
  - constructor.
    + apply (H 0). lia.
    + apply IH; [congruence|]. intros k Hk. apply (H (S k)). lia.
Qed.

Lemma matvec_nth (M : Sparse.matrix) (x : list Q) (r : nat) :
  r < Sparse.nrows M ->
  nth r (Sparse.matvec M x) 0%Q =
  Np.Qsum (map (fun e => if fst (fst e) =? r
                         then (snd e * nth (snd (fst e)) x 0)%Q else 0%Q)
               (Sparse.entries M)).
Proof. intros Hr. unfold Sparse.matvec. now rewrite map_seq_nth. Qed.

Lemma Qsum_nonneg_zero {A : Type} (f : A -> Q) (l : list A) :
  (forall a, In a l -> (0 <= f a)%Q) -> (Np.Qsum (map f l) == 0)%Q ->
  forall a, In a l -> (f a == 0)%Q.
Proof.
  induction l as [|x l IH]; intros Hpos Hz a Ha; [destruct Ha|].
  cbn [map] in Hz. rewrite Qsum_cons in Hz.
  assert (H0 : (0 <= f x)%Q) by (apply Hpos; now left).
  assert (H1 : (0 <= Np.Qsum (map f l))%Q).
  { apply Qsum_map_nonneg. intros y Hy. apply Hpos. now right. }
  destruct Ha as [<-|Ha].
  - lra.
  - apply IH; auto.
    + intros y Hy. apply Hpos. now right.
    + lra.
Qed.

Lemma regularized_Ok (n : nat) es lam M :
  regularized (Sparse.Matrix n n es) lam = Ok M ->
  M = Sparse.Matrix n n (regularized_entries n lam es).
Proof.
  unfold regularized, Sparse.diags. cbn [Sparse.nrows].
  rewrite repeat_length, Nat.eqb_refl. cbn [bind].
  unfold Sparse.add, Sparse.same_shape, Sparse.scale.
  cbn [Sparse.nrows Sparse.ncols Sparse.entries]. rewrite !Nat.eqb_refl. cbn [andb].
  intros H. injection H as <-. reflexivity.
Qed.

Lemma entry_form_rows (n : nat) es (d : list Q) :
  Forall (in_range n n) es ->
  (entry_form es d ==
   Np.Qsum (map (fun r => nth r d 0 *
      Np.Qsum (map (fun e => if fst (fst e) =? r
                             then snd e * nth (snd (fst e)) d 0 else 0) es))
      (seq 0 n)))%Q.
Proof.
  intros Hin. unfold entry_form.
  rewrite (Qsum_map_ext _ (fun r => Np.Qsum (map (fun e =>
             (if fst (fst e) =? r
              then snd e * nth r d 0 * nth (snd (fst e)) d 0 else 0)%Q) es))).
  2:{ intros r _. rewrite <- Qsum_map_scale. apply Qsum_map_ext. intros e _.
      destruct (_ =? _); ring. }
  rewrite Qsum_swap. apply Qsum_map_ext. intros e He.
  rewrite Forall_forall in Hin. destruct (Hin e He) as [Hr _].
  rewrite (Qsum_seq_single _ n (fst (fst e))); [|assumption|].
  - now rewrite Nat.eqb_refl.
  - intros k Hk. destruct (Nat.eqb_spec (fst (fst e)) k); [congruence|reflexivity].
Qed.

(** A positive multiple of the identity added to a positive-semidefinite
    matrix leaves the system at most one solution. *)
Lemma regularized_unique (n : nat) es (lam : Q) (b x y : list Q) :
  Forall (in_range n n) es ->
  (forall d, (0 <= entry_form es d)%Q) ->
  (0 < lam)%Q ->
  solves (Sparse.Matrix n n (regularized_entries n lam es)) b x ->
  solves (Sparse.Matrix n n (regularized_entries n lam es)) b y ->
  Forall2 Qeq x y.
Proof.
  intros Hin Hpsd Hlam [Hlx Hx] [Hly Hy]. cbn [Sparse.ncols] in Hlx, Hly.
  set (M := Sparse.Matrix n n (regularized_entries n lam es)) in *.
  set (d := map (fun k => (nth k x 0 - nth k y 0)%Q) (seq 0 n)).
  assert (Hd : forall k, (nth k d 0 == nth k x 0 - nth k y 0)%Q).
  { intros k. destruct (Nat.lt_ge_cases k n) as [Hk|Hk].
    - unfold d. now rewrite map_seq_nth.
    - rewrite !nth_overflow; [ring|lia|lia|unfold d; rewrite length_map, length_seq; lia]. }
  assert (HinM : Forall (in_range n n) (regularized_entries n lam es)).
  { unfold regularized_entries. apply Forall_app. split; [assumption|].
    apply Forall_forall. intros e He. rewrite map_map in He.
    apply in_map_iff in He. destruct He as [i [<- Hi]]. apply in_seq in Hi.
    split; cbn; lia. }
  assert (Hres : forall r, r < n ->
    (Np.Qsum (map (fun e => if fst (fst e) =? r
                            then snd e * nth (snd (fst e)) d 0 else 0)
                  (regularized_entries n lam es)) == 0)%Q).
  { intros r Hr.
    pose proof (Forall2_Qeq_nth _ _ Hx r) as Hxr.
    pose proof (Forall2_Qeq_nth _ _ Hy r) as Hyr.
    rewrite matvec_nth in Hxr, Hyr by exact Hr. cbn [Sparse.entries M] in Hxr, Hyr.
    rewrite (Qsum_map_ext _ (fun e =>
               ((if fst (fst e) =? r then snd e * nth (snd (fst e)) x 0 else 0) +
                -(1) * (if fst (fst e) =? r then snd e * nth (snd (fst e)) y 0 else 0))%Q)).
    2:{ intros e _. destruct (_ =? _); [rewrite Hd|]; ring. }
    rewrite Qsum_map_add, Qsum_map_scale, Hxr, Hyr. ring. }
  assert (Hform : (entry_form (regularized_entries n lam es) d == 0)%Q).
  { rewrite (entry_form_rows n) by assumption.
    apply Qsum_map_zero. intros r Hr. apply in_seq in Hr. rewrite Hres by lia. ring. }
  unfold regularized_entries in Hform. rewrite entry_form_app in Hform.
  assert (Hdiag :
    (entry_form (map (fun e => (fst e, (lam * snd e)%Q))
                     (map (fun i => (i, i, nth i (repeat 1%Q n) 0%Q)) (seq 0 n))) d ==
     lam * Np.Qsum (map (fun i => nth i d 0 * nth i d 0) (seq 0 n)))%Q).
  { unfold entry_form. rewrite !map_map. cbn [fst snd]. rewrite <- Qsum_map_scale.
    apply Qsum_map_ext. intros i Hi. apply in_seq in Hi.
    rewrite nth_repeat_lt by lia. ring. }
  rewrite Hdiag in Hform.
  assert (Hsq : (0 <= Np.Qsum (map (fun i => nth i d 0 * nth i d 0) (seq 0 n)))%Q).
  { apply Qsum_map_nonneg. intros i _. apply square_nonneg. }
  assert (Hzero : (Np.Qsum (map (fun i => nth i d 0 * nth i d 0) (seq 0 n)) == 0)%Q).
  { pose proof (Hpsd d). nra. }
  apply Forall2_Qeq_of_nth; [congruence|]. intros k Hk.
  assert (Hk2 : (nth k d 0 * nth k d 0 == 0)%Q).
  { apply (Qsum_nonneg_zero (fun i => (nth i d 0 * nth i d 0)%Q) (seq 0 n)).
    - intros i _. apply square_nonneg.
    - exact Hzero.
    - apply in_seq. lia. }
  specialize (Hd k). nra.
Qed.

(** Whatever [get_laplace_matting_matrix] returns is a square matrix with a
    non-negative quadratic form, as soon as [eps] is not negative. *)
Lemma laplacian_Ok_positive (I : ndarray Q) consts eps r L :
  get_laplace_matting_matrix I consts eps r = Ok L -> (0 <= eps)%Q ->
  exists n es, L = Sparse.Matrix n n es /\ Forall (in_range n n) es /\
               forall x, (0 <= entry_form es x)%Q.
Proof.
  intros HL Heps. apply get_laplace_matting_matrix_Ok in HL.
  destruct HL as (A & HA & _ & ->).
  destruct (affinity_matrix_Ok _ _ _ _ _ HA)
    as (h & w & c & consts' & triples & _ & _ & Hloop & Hin & ->).
  cbn [Sparse.nrows Sparse.entries].
  exists (h * w), (laplace_entries (h * w) triples). split; [reflexivity|].
  assert (Hrange : Forall (in_range (h * w) (h * w)) (laplace_entries (h * w) triples)).
  { unfold laplace_entries. apply Forall_app. split.
    - apply Forall_forall. intros e He. apply in_map_iff in He.
      destruct He as [i [<- Hi]]. apply in_seq in Hi. split; cbn; lia.
    - apply Forall_forall. intros e He. apply in_map_iff in He.
      destruct He as [e' [<- He']]. rewrite Forall_forall in Hin. exact (Hin e' He'). }
  split; [assumption|]. intros x.
  rewrite <- (quad_form_entries (h * w) (h * w)) by assumption.
  rewrite laplace_quad_form by assumption.
  apply (laplace_loop_ind (fun es => (0 <= affinity_form es x)%Q)
           I w c r eps consts') with (centers := window_centers h w r);
    try assumption.
  - apply Qle_refl.
  - intros a b Ha Hb. rewrite affinity_form_app. lra.
  - intros i j V _ HV. now apply window_block_form_nonneg with (eps := eps).
Qed.

Lemma reshape_like_Ok (t : list Q) (p t' : ndarray Q) :
  reshape_like t p = Ok t' -> shape t' = shape p /\ data t' = t.
Proof.
  unfold reshape_like. destruct (_ =? _); [|discriminate].
  intros H. injection H as <-. split; reflexivity.
Qed.


(** ** Sample inputs *)

Lemma residual_free_solves M b x : residual_free M b x = true -> solves M b x.
Proof.
  unfold residual_free, solves. intros H.
  apply andb_prop in H. destruct H as [H Hall]. apply andb_prop in H.
  destruct H as [Hl Hlen]. apply Nat.eqb_eq in Hl, Hlen. split; [assumption|].
  revert Hlen Hall. generalize (Sparse.matvec M x) as a. intros a. revert b.
  induction a as [|u a IH]; intros [|v b] Hlen Hall; simpl in *; try discriminate.
  - constructor.
  - apply andb_prop in Hall. destruct Hall as [Huv Hall].
    constructor; [now apply Qeq_bool_iff|]. apply IH; [congruence|assumption].
Qed.

Lemma checked_spsolve_exact : exact_direct checked_spsolve.
Proof.
  intros M b x H. unfold checked_spsolve in H. bind_inv H.
  destruct (residual_free M b v) eqn:E0; [|discriminate].
  injection H as <-. now apply residual_free_solves.
Qed.

Lemma checked_cg_exact : exact_iterative checked_cg.
Proof.
  intros M b x info H. unfold checked_cg in H. bind_inv H. injection H as <- _.
  now apply checked_spsolve_exact.
Qed.

Lemma textured_image_defined : laplacian_defined textured_image None default_eps 1 3 3.
Proof.
  split; [reflexivity|]. split; [simpl; lia|]. split; [vm_compute; discriminate|].
  intros i j Hin. cbn in Hin. destruct Hin as [Heq|[]]. injection Heq as <- <-.
  unfold covariance_regular. vm_compute. discriminate.
Qed.

Lemma matting_laplacian_properties_witness :
  exists L A,
    get_laplace_matting_matrix textured_image None default_eps 1 = Ok L /\
    affinity_matrix textured_image None default_eps 1 = Ok A /\
    Sparse.nrows L = 3 * 3 /\ Sparse.ncols L = 3 * 3 /\
    (forall p q, p < 3 * 3 ->
       (Sparse.get L p q == (if p =? q then row_total A p else 0) - Sparse.get A p q)%Q) /\
    (forall p q, (Sparse.get L p q == Sparse.get L q p)%Q) /\
    (forall p, p < 3 * 3 -> (row_total L p == 0)%Q) /\
    (forall x, (0 <= quad_form L x)%Q) /\
    (forall p q, ~ (Sparse.get L p q == 0)%Q -> shares_window 3 3 1 p q).
Proof.
  apply (matting_laplacian_properties textured_image None default_eps 1 3 3).
  - exact textured_image_defined.
  - vm_compute. discriminate.
Defined.

(** The two entry points run on the sample, each with a checked solver. *)
Lemma sample_refinements :
  exists L t1 t2,
    get_laplace_matting_matrix flat_image None default_eps 1 = Ok L /\
    soft_matting checked_cg flat_image nearly_flat_transmission default_lam [] = Ok t1 /\
    get_t checked_spsolve L nearly_flat_transmission default_lam = Ok t2.
Proof.
  do 3 eexists. split; [vm_compute; reflexivity|].
  split; vm_compute; reflexivity.
Qed.




Lemma dark_channel_below_min_and_antitone_witness :
  exists dp dq,
    get_dark_channel sample_image (3, 3)%Z = Ok dp /\
    get_dark_channel sample_image (15, 15)%Z = Ok dq /\
    forall i j, i < 1 -> j < 2 ->
      (Np.get2 dp i j <= channel_min sample_image i j)%Q /\
      (Np.get2 dq i j <= Np.get2 dp i j)%Q.
Proof.
  apply (dark_channel_below_min_and_antitone sample_image 1 2 (3, 3)%Z (15, 15)%Z).
  - left. reflexivity.
  - discriminate.
  - discriminate.
Defined.

(** A run of the pipeline with soft matting and no option. *)
Lemma sample_run :
  exists out,
    dehaze_image soft_libraries sample_image None default_patch_size (1 # 1000) [] = Ok out.
Proof. eexists. vm_compute. reflexivity. Qed.



(** C9 as stated fails: with a solver that reports no convergence the call
    returns the iterate, and nothing tells it from the call whose solver
    reports success. *)
Lemma soft_matting_flag_counterexample :
  stalled_cg (Sparse.Matrix 0 0 []) [] = Ok ([], 7%Z) /\
  soft_matting stalled_cg sample_image sample_dark default_lam []
  = Ok (NDArray [1; 2] (map (Qmult default_lam) (data sample_dark))) /\
  soft_matting stalled_cg sample_image sample_dark default_lam []
  = soft_matting (with_info (fun _ => 0%Z) stalled_cg) sample_image sample_dark default_lam [].
Proof. repeat split; vm_compute; reflexivity. Qed.


(** ** Added axes *)

Lemma numel_app (s s' : list nat) : numel (s ++ s') = numel s * numel s'.
Proof.
  induction s as [|a s IH]; simpl; [lia|]. fold (numel (s ++ s')). fold (numel s).
  rewrite IH. lia.
Qed.

Lemma numel_ones (k : nat) : numel (repeat 1 k) = 1.
Proof. induction k as [|k IH]; simpl; [reflexivity|]. fold (numel (repeat 1 k)). lia. Qed.

Lemma iter_cons_one (k : nat) (s : list nat) :
  Nat.iter k (fun s => 1 :: s) s = repeat 1 k ++ s.
Proof. induction k as [|k IH]; simpl; [reflexivity|]. now rewrite IH. Qed.

Lemma iter_snoc_one (k : nat) (s : list nat) :
  Nat.iter k (fun s => s ++ [1]) s = s ++ repeat 1 k.
Proof.
  induction k as [|k IH]; simpl; [now rewrite app_nil_r|].
  rewrite IH, <- app_assoc. f_equal.
  clear IH. induction k as [|k IH]; simpl; [reflexivity|]. now rewrite IH.
Qed.

(** X1.  [_expand_A_as_B(A, B, left)] leaves the buffer of [A] alone and
    adds axes of length 1 only: as many as [B] has axes more than [A] (none
    when [A] has at least as many), in front of the shape of [A] when
    [left] is true and behind it otherwise.  The result has as many axes as
    the larger of the two, and as many elements as [A]. *)
Theorem expand_adds_unit_axes {T U : Type} (A : ndarray T) (B : ndarray U) (left : bool) :
  data (_expand_A_as_B A B left) = data A /\
  shape (_expand_A_as_B A B left) =
    (if left then repeat 1 (length (shape B) - length (shape A)) ++ shape A
     else shape A ++ repeat 1 (length (shape B) - length (shape A))) /\
  length (shape (_expand_A_as_B A B left)) =
    Nat.max (length (shape A)) (length (shape B)) /\
  numel (shape (_expand_A_as_B A B left)) = numel (shape A).
Proof.
  unfold _expand_A_as_B. cbn [shape data]. split; [reflexivity|].
  destruct left.
  - rewrite iter_cons_one. split; [reflexivity|].
    rewrite length_app, repeat_length, numel_app, numel_ones. split; lia.
  - rewrite iter_snoc_one. split; [reflexivity|].
    rewrite length_app, repeat_length, numel_app, numel_ones. split; lia.
Qed.

(** ** Gray levels *)

(** X2.  On an H x W x 3 array [_rgb2gray] returns an H x W array whose
    sample at a pixel is 0.2989 r + 0.5870 g + 0.1140 b.  The weights add
    up to 0.9999: when the three channels of a pixel lie between [lo] and
    [hi], its gray level lies between 0.9999 lo and 0.9999 hi. *)
Theorem rgb2gray_weighted_sum (A : ndarray Q) (h w : nat) :
  shape A = [h; w; 3] ->
  shape (_rgb2gray A) = [h; w] /\
  forall i j, i < h -> j < w ->
    (Np.get2 (_rgb2gray A) i j ==
     (2989 # 10000) * Np.get3 A i j 0 + (5870 # 10000) * Np.get3 A i j 1 +
     (1140 # 10000) * Np.get3 A i j 2)%Q /\
    forall lo hi,
      (forall c, c < 3 -> (lo <= Np.get3 A i j c <= hi)%Q) ->
      ((9999 # 10000) * lo <= Np.get2 (_rgb2gray A) i j <= (9999 # 10000) * hi)%Q.
Proof.
  intros Hsh. unfold _rgb2gray. rewrite Hsh. cbn [removelast last]. split; [reflexivity|].
  intros i j Hi Hj. rewrite get2_NDArray.
  cbn [numel fold_right]. rewrite Nat.mul_1_r.
  rewrite map_seq_nth by nia. unfold Np.get3. rewrite Hsh.
  rewrite !Nat.add_0_r. split; [reflexivity|].
  intros lo hi Hb.
  pose proof (Hb 0 ltac:(lia)) as H0. pose proof (Hb 1 ltac:(lia)) as H1.
  pose proof (Hb 2 ltac:(lia)) as H2.
  cbn beta iota in H0, H1, H2. rewrite ?Nat.add_0_r in H0.
  split; lra.
Qed.

Lemma rgb2gray_weighted_sum_witness :
  shape (_rgb2gray white_pixel) = [1; 1] /\
  forall i j, i < 1 -> j < 1 ->
    (Np.get2 (_rgb2gray white_pixel) i j ==
     (2989 # 10000) * Np.get3 white_pixel i j 0 + (5870 # 10000) * Np.get3 white_pixel i j 1 +
     (1140 # 10000) * Np.get3 white_pixel i j 2)%Q /\
    forall lo hi,
      (forall c, c < 3 -> (lo <= Np.get3 white_pixel i j c <= hi)%Q) ->
      ((9999 # 10000) * lo <= Np.get2 (_rgb2gray white_pixel) i j <= (9999 # 10000) * hi)%Q.
Proof. apply (rgb2gray_weighted_sum white_pixel 1 1). reflexivity. Defined.

(** ** Shapes the dark channel refuses *)

(** X3.  [get_dark_channel] raises NotImplementedError, whatever the patch
    size, for an array that has neither two nor three axes, and for one of
    three axes whose last axis has a length other than 3 or 1. *)
Theorem get_dark_channel_unsupported_shape (img : ndarray Q) (p : Z * Z) :
  (length (shape img) <> 2 /\ length (shape img) <> 3) \/
  (exists h w c, shape img = [h; w; c] /\ c <> 3 /\ c <> 1) ->
  get_dark_channel img p = Raise NotImplementedError.
Proof.
  unfold get_dark_channel.
  intros [[H2 H3]|(h & w & c & Hsh & Hc3 & Hc1)].
  - destruct (shape img) as [|a [|b [|c [|d s]]]]; simpl in *; try reflexivity; lia.
  - rewrite Hsh. apply Nat.eqb_neq in Hc3, Hc1. now rewrite Hc3, Hc1.
Qed.

Lemma get_dark_channel_unsupported_shape_witness :
  get_dark_channel (NDArray [2; 1; 2] [0; 1; 1; 0]%Q) default_patch_size
  = Raise NotImplementedError.
Proof.
  apply get_dark_channel_unsupported_shape. right. exists 2, 1, 2.
  split; [reflexivity|]. split; discriminate.
Defined.

(** ** The dark channel as a minimum filter *)

Lemma window_min_glb (line : nat -> Q) (n size i : nat) (m : Q) :
  1 <= size -> (forall k, k <= n - 1 -> (m <= line k)%Q) ->
  (m <= Ndimage.window_min line n size i)%Q.
Proof.
  intros Hs Hm. unfold Ndimage.window_min. apply Qmin_list_glb.
  - destruct size; [lia|]. simpl. discriminate.
  - intros y Hy. apply in_map_iff in Hy. destruct Hy as [d [<- _]].
    apply Hm. lia.
Qed.

Lemma nth_Forall_range (l : list Q) (lo hi : Q) (k : nat) :
  Forall (fun x => (lo <= x <= hi)%Q) l -> k < length l -> (lo <= nth k l 0 <= hi)%Q.
Proof. intros H Hk. rewrite Forall_forall in H. apply H, nth_In, Hk. Qed.

Lemma channel_min_range (img : ndarray Q) (h w : nat) (lo hi : Q) :
  color_or_gray img h w -> wf_array img ->
  Forall (fun x => (lo <= x <= hi)%Q) (data img) ->
  forall i j, i < h -> j < w -> (lo <= channel_min img i j <= hi)%Q.
Proof.
  intros [Hsh|Hsh] Hwf Hall i j Hi Hj; unfold wf_array in Hwf; rewrite Hsh in Hwf;
    simpl in Hwf; unfold channel_min; rewrite Hsh.
  - assert (Hk : forall k, k < 3 -> (lo <= Np.get3 img i j k <= hi)%Q).
    { intros k Hk. unfold Np.get3. rewrite Hsh. apply nth_Forall_range; [assumption|]. nia. }
    split.
    + apply Qmin_list_glb; [discriminate|].
      intros y Hy. apply in_map_iff in Hy. destruct Hy as [k [<- Hk']].
      apply in_seq in Hk'. apply Hk. lia.
    + eapply Qle_trans; [apply (Qmin_list_le _ (Np.get3 img i j 0)); simpl; auto|].
      apply Hk. lia.
  - unfold Np.get2. rewrite Hsh. apply nth_Forall_range; [assumption|]. nia.
Qed.

(** Bounds of the per-pixel minimum are bounds of the dark channel. *)
Lemma get_dark_channel_between (img : ndarray Q) (h w : nat) (p : Z * Z) (lo hi : Q) :
  color_or_gray img h w ->
  (forall i j, i < h -> j < w -> (lo <= channel_min img i j <= hi)%Q) ->
  exists dc, get_dark_channel img p = Ok dc /\ shape dc = [h; w] /\
    forall i j, i < h -> j < w -> (lo <= Np.get2 dc i j <= hi)%Q.
Proof.
  intros Hcg Hr.
  destruct (get_dark_channel_spec img h w p Hcg) as [dc [Hdc [Hsh Hget]]].
  exists dc. split; [assumption|]. split; [assumption|].
  intros i j Hi Hj. rewrite Hget by assumption.
  split.
  - apply window_min_glb; [apply effective_size_pos|]. intros k Hk.
    apply window_min_glb; [apply effective_size_pos|]. intros k' Hk'.
    apply Hr; lia.
  - eapply Qle_trans; [apply window_min_le_center; [apply effective_size_pos|assumption]|].
    eapply Qle_trans; [apply window_min_le_center; [apply effective_size_pos|assumption]|].
    apply Hr; assumption.
Qed.

(** X4.  For a colour image (H x W x 3) or a gray one (H x W) whose samples
    all lie between [lo] and [hi], [get_dark_channel] returns, for every
    patch size, an H x W map whose values lie between [lo] and [hi] as
    well: the filter invents no value outside the range of the image. *)
Theorem dark_channel_within_range (img : ndarray Q) (h w : nat) (p : Z * Z) (lo hi : Q) :
  color_or_gray img h w -> wf_array img ->
  Forall (fun x => (lo <= x <= hi)%Q) (data img) ->
  exists dc, get_dark_channel img p = Ok dc /\ shape dc = [h; w] /\
    forall i j, i < h -> j < w -> (lo <= Np.get2 dc i j <= hi)%Q.
Proof.
  intros Hcg Hwf Hall. apply get_dark_channel_between; [assumption|].
  now apply channel_min_range.
Qed.

Lemma dark_channel_within_range_witness :
  exists dc, get_dark_channel sample_image (3, 3)%Z = Ok dc /\ shape dc = [1; 2] /\
    forall i j, i < 1 -> j < 2 -> ((1 # 4) <= Np.get2 dc i j <= (3 # 4))%Q.
Proof.
  apply (dark_channel_within_range sample_image 1 2 (3, 3)%Z (1 # 4) (3 # 4)).
  - left. reflexivity.
  - reflexivity.
  - repeat constructor; discriminate.
Defined.

Lemma Forall2_Qle_nth (l l' : list Q) (k : nat) :
  Forall2 Qle l l' -> (nth k l 0 <= nth k l' 0)%Q.
Proof.
  intros H. revert k. induction H as [|x y l l' Hxy _ IH]; intros [|k]; simpl;
    try apply Qle_refl; auto.
Qed.

Lemma channel_min_mono (a b : ndarray Q) (i j : nat) :
  shape a = shape b -> Forall2 Qle (data a) (data b) ->
  (channel_min a i j <= channel_min b i j)%Q.
Proof.
  intros Hsh Hle. unfold channel_min, Np.get2, Np.get3. rewrite Hsh.
  destruct (shape b) as [|h [|w [|c [|d s]]]]; try apply Qle_refl.
  - now apply Forall2_Qle_nth.
  - destruct c as [|c]; [apply Qle_refl|].
    apply Qmin_list_glb; [simpl; discriminate|].
    intros y Hy. apply in_map_iff in Hy. destruct Hy as [k [<- Hk]].
    eapply Qle_trans; [|apply Forall2_Qle_nth; eassumption].
    apply Qmin_list_le. apply in_map_iff. exists k. split; [reflexivity|assumption].
Qed.

(** X5.  [get_dark_channel] keeps the order of images: when two images of
    one shape (colour or gray) are such that every sample of the first is
    at most the sample of the second at the same place, the dark channel of
    the first is at most the dark channel of the second at every pixel, for
    every patch size. *)
Theorem dark_channel_monotone (a b : ndarray Q) (h w : nat) (p : Z * Z) :
  color_or_gray a h w -> shape b = shape a ->
  Forall2 Qle (data a) (data b) ->
  exists da db, get_dark_channel a p = Ok da /\ get_dark_channel b p = Ok db /\
    forall i j, i < h -> j < w -> (Np.get2 da i j <= Np.get2 db i j)%Q.
Proof.
  intros Ha Hsh Hle.
  assert (Hb : color_or_gray b h w) by (destruct Ha as [H|H]; [left|right]; congruence).
  destruct (get_dark_channel_spec a h w p Ha) as [da [Hda [_ Hga]]].
  destruct (get_dark_channel_spec b h w p Hb) as [db [Hdb [_ Hgb]]].
  exists da, db. split; [assumption|]. split; [assumption|].
  intros i j Hi Hj. rewrite Hga, Hgb by assumption.
  apply window_min_mono_line; [apply effective_size_pos|]. intros k _.
  apply window_min_mono_line; [apply effective_size_pos|]. intros k' _.
  apply channel_min_mono; [now symmetry|assumption].
Qed.

Lemma dark_channel_monotone_witness :
  exists da db,
    get_dark_channel sample_dark (3, 3)%Z = Ok da /\
    get_dark_channel clear_transmission (3, 3)%Z = Ok db /\
    forall i j, i < 1 -> j < 2 -> (Np.get2 da i j <= Np.get2 db i j)%Q.
Proof.
  apply (dark_channel_monotone sample_dark clear_transmission 1 2 (3, 3)%Z).
  - right. reflexivity.
  - reflexivity.
  - repeat constructor; discriminate.
Defined.

(** X6.  With a patch of one pixel, [patch_size = (1, 1)], the dark channel
    of a colour or gray image is, at every pixel, the minimum over the
    colour channels of the image at that pixel (the sample itself for a
    gray image). *)
Theorem dark_channel_unit_patch (img : ndarray Q) (h w : nat) :
  color_or_gray img h w ->
  exists dc, get_dark_channel img (1, 1)%Z = Ok dc /\ shape dc = [h; w] /\
    forall i j, i < h -> j < w -> Np.get2 dc i j = channel_min img i j.
Proof.
  intros Hcg.
  destruct (get_dark_channel_spec img h w (1, 1)%Z Hcg) as [dc [Hdc [Hsh Hget]]].
  exists dc. split; [assumption|]. split; [assumption|].
  intros i j Hi Hj. rewrite Hget by assumption.
  change (effective_size (fst (1, 1)%Z)) with 1.
  change (effective_size (snd (1, 1)%Z)) with 1.
  rewrite (window_min_one _ w j Hj). apply (window_min_one (fun i' => channel_min img i' j) h i Hi).
Qed.

Lemma dark_channel_unit_patch_witness :
  exists dc, get_dark_channel sample_image (1, 1)%Z = Ok dc /\ shape dc = [1; 2] /\
    forall i j, i < 1 -> j < 2 -> Np.get2 dc i j = channel_min sample_image i j.
Proof. apply (dark_channel_unit_patch sample_image 1 2). left. reflexivity. Defined.

(** ** The buffer of the dark channel *)

Lemma minimum_filter_length (a r : ndarray Q) (h w : nat) (size : Z * Z) :
  shape a = [h; w] -> length (data a) = h * w ->
  Ndimage.minimum_filter a size = Ok r -> length (data r) = h * w.
Proof.
  intros Hsh Hlen. unfold Ndimage.minimum_filter. rewrite Hsh. cbv zeta.
  set (pass0 := if (1 <? fst size)%Z
                then Ndimage.minimum_filter1d a (Z.to_nat (fst size)) 0 else a).
  assert (H0 : shape pass0 = [h; w] /\ length (data pass0) = h * w).
  { unfold pass0. destruct (1 <? fst size)%Z; [|now split].
    unfold Ndimage.minimum_filter1d. rewrite Hsh. cbn [shape data].
    split; [reflexivity|apply tabulate2_length]. }
  destruct H0 as [Hs0 Hl0]. intros H. injection H as <-.
  destruct (1 <? snd size)%Z; [|assumption].
  unfold Ndimage.minimum_filter1d. rewrite Hs0. cbn [data]. apply tabulate2_length.
Qed.

Lemma get_dark_channel_length (img dc : ndarray Q) (h w : nat) (p : Z * Z) :
  color_or_gray img h w -> wf_array img ->
  get_dark_channel img p = Ok dc -> length (data dc) = h * w.
Proof.
  intros [Hsh|Hsh] Hwf; unfold wf_array in Hwf; rewrite Hsh in Hwf; simpl in Hwf;
    unfold get_dark_channel; rewrite Hsh; simpl; intros H.
  - apply (minimum_filter_length (Np.amin_last img) dc h w p); [| |assumption];
      unfold Np.amin_last; rewrite Hsh; cbn [shape data removelast last]; [reflexivity|].
    rewrite length_map, length_seq. simpl. lia.
  - apply (minimum_filter_length img dc h w p); [assumption|lia|assumption].
Qed.

(** ** Selection: shapes that are refused *)

(** X7.  [get_mask] and [get_atmos_light] read the first two axes of the
    dark channel: a dark channel with fewer than two axes raises
    IndexError in both, whatever the image and the ratio. *)
Theorem selection_needs_two_axes
  (np_argsort : list Q -> list nat) (im dc : ndarray Q) (top_ratio : Q) :
  length (shape dc) < 2 ->
  get_mask np_argsort dc top_ratio = Raise IndexError /\
  get_atmos_light np_argsort im dc top_ratio = Raise IndexError.
Proof.
  unfold get_mask, get_atmos_light. intros H.
  destruct (shape dc) as [|a [|b s]]; simpl in H; try lia; split; reflexivity.
Qed.

Lemma selection_needs_two_axes_witness :
  get_mask Np.argsort (NDArray [2] [0; 1]%Q) (1 # 1000) = Raise IndexError /\
  get_atmos_light Np.argsort sample_image (NDArray [2] [0; 1]%Q) (1 # 1000)
  = Raise IndexError.
Proof. apply selection_needs_two_axes. simpl. lia. Defined.

(** X8.  [get_atmos_light] accepts images of two or three axes only: with a
    dark channel of at least two axes, an image of any other number of
    axes raises NotImplementedError. *)
Theorem atmos_light_unsupported_image
  (np_argsort : list Q -> list nat) (im dc : ndarray Q) (top_ratio : Q) :
  2 <= length (shape dc) ->
  length (shape im) <> 2 -> length (shape im) <> 3 ->
  get_atmos_light np_argsort im dc top_ratio = Raise NotImplementedError.
Proof.
  unfold get_atmos_light. intros Hdc H2 H3.
  destruct (shape dc) as [|a [|b s]]; simpl in Hdc; try lia.
  destruct (length (shape im)) as [|[|[|[|n]]]]; try reflexivity; lia.
Qed.

Lemma atmos_light_unsupported_image_witness :
  get_atmos_light Np.argsort (NDArray [2] [0; 1]%Q) sample_dark (1 # 1000)
  = Raise NotImplementedError.
Proof. apply atmos_light_unsupported_image; simpl; lia. Defined.

(** ** Atmospheric light of a gray image *)

Section GrayAtmosphericLight.

Variable np_argsort : list Q -> list nat.


End GrayAtmosphericLight.


(** ** Scene recovery: the floor and the clip *)

Lemma floor_positive (tq t0 : Q) : (0 < t0)%Q -> (0 < Qmin 1 (Qmax tq t0))%Q.
Proof.
  intros H. apply Q.min_glb_lt; [reflexivity|].
  eapply Qlt_le_trans; [exact H|apply Q.le_max_r].
Qed.

Lemma nth_map_default (f : Q -> Q) (l : list Q) (k : nat) :
  k < length l -> nth k (map f l) 0%Q = f (nth k l 0%Q).
Proof.
  intros Hk. rewrite (nth_indep _ 0%Q (f 0%Q)) by now rewrite length_map.
  apply map_nth.
Qed.

(** X10.  For a colour image (H x W x C, one light value per channel), a
    transmission map of its spatial size and a floor [t0 > 0], [get_J]
    always returns: the division cannot fail, since the transmission is
    first clipped into [t0, 1].  The result has the shape of the image,
    and its sample at pixel q, channel r is
    (I - A_r) / min(1, max(t_q, t0)) + A_r, clipped into [0, 1] when
    [clip] is set. *)
Theorem get_J_recovers_radiance
  (I A t : ndarray Q) (h w c : nat) (t0 : Q) (clip : bool) :
  shape I = [h; w; c] -> wf_array I -> shape A = [c] ->
  shape t = [h; w] -> wf_array t -> (0 < t0)%Q ->
  exists J, get_J I A t t0 clip = Ok J /\
    shape J = [h; w; c] /\ length (data J) = h * w * c /\
    forall q r, q < h * w -> r < c ->
      (nth (q * c + r) (data J) 0 ==
       if clip
       then clip01 (radiance (nth (q * c + r) (data I) 0) (nth r (data A) 0)
                             (nth q (data t) 0) t0)
       else radiance (nth (q * c + r) (data I) 0) (nth r (data A) 0)
                     (nth q (data t) 0) t0)%Q.
Proof.
  intros HI HwI HA Ht Hwt Ht0.
  unfold wf_array in HwI, Hwt. rewrite HI in HwI. rewrite Ht in Hwt.
  simpl in HwI, Hwt. rewrite Nat.mul_1_r in HwI, Hwt.
  unfold get_J, _expand_A_as_B, Np.clip, Np.map_array.
  rewrite HI, HA, Ht. cbn [length Nat.sub shape data].
  cbv [Nat.iter nat_rect]. cbn [app].
  unfold Np.subtract.
  rewrite (broadcast2_Ok _ Qminus _ _ [h; w; c]);
    [|cbn [shape]; rewrite HI; apply broadcast_shapes_11c|reflexivity].
  cbn [bind shape data]. rewrite HI.
  unfold Np.divide.
  rewrite (broadcast2_Ok _ Qdiv _ _ [h; w; c]);
    [|apply broadcast_shapes_hw1_r|].
  - cbn [bind shape data]. unfold Np.add.
    rewrite (broadcast2_Ok _ Qplus _ _ [h; w; c]);
      [|apply broadcast_shapes_11c|reflexivity].
    cbn [bind shape data]. cbn [numel fold_right]. rewrite Nat.mul_1_r.
    eexists. split; [reflexivity|].
    destruct clip; cbn [shape data]; (split; [reflexivity|]);
      (split; [rewrite !length_map, length_seq; lia|]); intros q r Hq Hr;
      assert (Hk : q * c + r < h * (w * c)) by nia.
    + rewrite nth_map_default by (rewrite length_map, length_seq; lia).
      repeat first [ rewrite bindex_same by (simpl; lia)
                   | rewrite map_seq_nth by lia
                   | rewrite bindex_hw1 by assumption
                   | rewrite bindex_11c by assumption ].
      rewrite nth_map_default by lia. reflexivity.
    + repeat first [ rewrite bindex_same by (simpl; lia)
                   | rewrite map_seq_nth by lia
                   | rewrite bindex_hw1 by assumption
                   | rewrite bindex_11c by assumption ].
      rewrite nth_map_default by lia. reflexivity.
  - intros k Hk. cbn [shape data numel fold_right] in *. rewrite Nat.mul_1_r in Hk.
    destruct (flat_index_split h w c k Hk) as [q [r [-> [Hq Hr]]]].
    rewrite bindex_hw1 by assumption.
    destruct (Qeq_bool _ 0) eqn:E; [|reflexivity].
    apply Qeq_bool_iff in E. rewrite nth_map_default in E by lia.
    pose proof (floor_positive (nth q (data t) 0%Q) t0 Ht0) as Hpos.
    rewrite E in Hpos. discriminate.
Qed.

Lemma get_J_recovers_radiance_witness :
  exists J, get_J sample_image sample_light sample_dark (1 # 10) true = Ok J /\
    shape J = [1; 2; 3] /\ length (data J) = 1 * 2 * 3 /\
    forall q r, q < 1 * 2 -> r < 3 ->
      (nth (q * 3 + r) (data J) 0 ==
       clip01 (radiance (nth (q * 3 + r) (data sample_image) 0) (nth r (data sample_light) 0)
                        (nth q (data sample_dark) 0) (1 # 10)))%Q.
Proof.
  exact (get_J_recovers_radiance sample_image sample_light sample_dark 1 2 3 (1 # 10) true
           eq_refl eq_refl eq_refl eq_refl eq_refl eq_refl).
Defined.

Lemma clip_unit_range (a : ndarray Q) :
  Forall (fun x => (0 <= x <= 1)%Q) (data (Np.clip a 0 1)).
Proof.
  unfold Np.clip, Np.map_array. cbn [data].
  apply Forall_forall. intros x Hx. apply in_map_iff in Hx. destruct Hx as [y [<- _]].
  split.
  - apply Q.min_glb; [discriminate|apply Q.le_max_r].
  - apply Q.le_min_l.
Qed.



(** ** Raw transmission *)

(** The image divided by its atmospheric light, channel by channel. *)
Lemma divide_by_light (im A : ndarray Q) (h w : nat) :
  shape im = [h; w; 3] -> shape A = [3] ->
  (forall r, r < 3 -> ~ (nth r (data A) 0 == 0)%Q) ->
  Np.divide im (_expand_A_as_B A im true) =
  Ok (NDArray [h; w; 3]
        (map (fun k => Qdiv (nth (Np.bindex [h; w; 3] [h; w; 3] k) (data im) 0%Q)
                            (nth (Np.bindex [1; 1; 3] [h; w; 3] k) (data A) 0%Q))
             (seq 0 (numel [h; w; 3])))).
Proof.
  intros Him HA Hnz. unfold Np.divide, _expand_A_as_B. rewrite Him, HA.
  cbn [length Nat.sub]. cbv [Nat.iter nat_rect].
  rewrite (broadcast2_Ok _ Qdiv _ _ [h; w; 3]);
    [|cbn [shape]; rewrite Him; apply broadcast_shapes_11c|].
  - cbn [shape data]. rewrite Him. reflexivity.
  - intros k Hk. cbn [shape data numel fold_right] in *. rewrite Nat.mul_1_r in Hk.
    destruct (flat_index_split h w 3 k Hk) as [q [r [-> [Hq Hr]]]].
    rewrite bindex_11c by assumption.
    destruct (Qeq_bool _ 0) eqn:E; [|reflexivity].
    apply Qeq_bool_iff in E. now apply Hnz in E.
Qed.

(** X12.  For a colour image whose samples lie between 0 and the
    atmospheric light of their channel (a light that is positive in each
    channel) and a weight [omega >= 0], [get_tilde_t] returns an H x W map
    whose values lie between [1 - omega] and 1, for the default patch size
    and for any [patch_size] passed by keyword. *)
Theorem raw_transmission_bounds
  (im A : ndarray Q) (h w : nat) (omega : Q) (kw : kwargs) (ps : Z * Z) :
  shape im = [h; w; 3] -> wf_array im -> shape A = [3] ->
  (forall r, r < 3 -> (0 < nth r (data A) 0)%Q) ->
  (forall q r, q < h * w -> r < 3 ->
     (0 <= nth (q * 3 + r) (data im) 0 <= nth r (data A) 0)%Q) ->
  (0 <= omega)%Q ->
  kw_accept ["patch_size"%string] kw = Ok tt ->
  kw_pair "patch_size" default_patch_size kw = Ok ps ->
  exists t, get_tilde_t im A omega kw = Ok t /\ shape t = [h; w] /\
    forall i j, i < h -> j < w -> (1 - omega <= Np.get2 t i j <= 1)%Q.
Proof.
  intros Him Hwf HA Hpos Hb Homega Hacc Hps.
  unfold get_tilde_t. rewrite (divide_by_light im A h w Him HA).
  2:{ intros r Hr E. specialize (Hpos r Hr). rewrite E in Hpos. discriminate. }
  cbn [bind]. rewrite Hacc. cbn [bind]. rewrite Hps. cbn [bind].
  set (im_A := NDArray [h; w; 3] _).
  assert (Hcg : color_or_gray im_A h w) by (left; reflexivity).
  assert (HwA : wf_array im_A).
  { unfold wf_array, im_A. cbn [shape data]. now rewrite length_map, length_seq. }
  destruct (get_dark_channel_between im_A h w ps 0 1 Hcg) as [dc [Hdc [Hsh Hr]]].
  { apply channel_min_range; [assumption|assumption|].
    unfold im_A. cbn [data]. apply Forall_forall. intros x Hx.
    apply in_map_iff in Hx. destruct Hx as [k [<- Hk]]. apply in_seq in Hk.
    cbn [numel fold_right] in Hk. rewrite Nat.mul_1_r in Hk.
    destruct (flat_index_split h w 3 k ltac:(lia)) as [q [r [-> [Hq Hr]]]].
    rewrite bindex_same by (simpl; lia). rewrite bindex_11c by assumption.
    specialize (Hb q r Hq Hr). specialize (Hpos r Hr).
    split.
    - apply Qle_shift_div_l; [assumption|]. lra.
    - apply Qle_shift_div_r; [assumption|]. lra. }
  pose proof (get_dark_channel_length im_A dc h w ps Hcg HwA Hdc) as Hlen.
  rewrite Hdc. cbn [bind]. eexists. split; [reflexivity|].
  unfold Np.map_array. cbn [shape]. split; [assumption|].
  intros i j Hi Hj. specialize (Hr i j Hi Hj).
  unfold Np.get2 in *. cbn [shape data]. rewrite Hsh in *.
  rewrite nth_map_default by nia.
  destruct Hr as [H0 H1]. split; nra.
Qed.

Lemma raw_transmission_bounds_witness :
  exists t, get_tilde_t sample_image sample_light default_omega [] = Ok t /\
    shape t = [1; 2] /\
    forall i j, i < 1 -> j < 2 -> (1 - default_omega <= Np.get2 t i j <= 1)%Q.
Proof.
  apply (raw_transmission_bounds sample_image sample_light 1 2 default_omega []
           default_patch_size); try reflexivity.
  - intros [|[|[|r]]] Hr; try lia; reflexivity.
  - intros [|[|q]] [|[|[|r]]] Hq Hr; try lia; split; discriminate.
  - discriminate.
Defined.

(** ** Depth for any positive coefficient *)

Lemma depth_of_positive (beta t : Q) :
  (0 < beta)%Q -> (0 < t)%Q ->
  depth_of beta t = Finite (- ln (Q2R t) / Q2R beta)%R.
Proof.
  intros Hb Ht. unfold depth_of.
  destruct (Qeq_bool beta 0) eqn:E.
  { apply Qeq_bool_iff in E. rewrite E in Hb. discriminate. }
  destruct (Qle_bool t 0) eqn:E'; [|reflexivity].
  apply Qle_bool_iff in E'. lra.
Qed.

Lemma ln_le_mono (x y : R) : (0 < x)%R -> (x <= y)%R -> (ln x <= ln y)%R.
Proof.
  intros Hx [Hlt|Heq].
  - left. now apply ln_increasing.
  - subst. apply Rle_refl.
Qed.

(** X13.  For a coefficient [beta > 0], [get_depth] keeps the shape of the
    transmission map, and at the positive entries of the map the depth is
    the real number -ln(t) / beta: it is 0 where t = 1, and it does not
    increase when the transmission increases. *)
Theorem depth_decreases_with_transmission (t : ndarray Q) (beta : Q) (k k' : nat) :
  (0 < beta)%Q -> k < length (data t) -> k' < length (data t) ->
  (0 < nth k (data t) 0)%Q -> (nth k (data t) 0 <= nth k' (data t) 0)%Q ->
  shape (get_depth t beta) = shape t /\
  exists r r',
    nth k (data (get_depth t beta)) NaN = Finite r /\
    nth k' (data (get_depth t beta)) NaN = Finite r' /\
    (r * Q2R beta = - ln (Q2R (nth k (data t) 0%Q)))%R /\
    (r' <= r)%R /\
    ((nth k (data t) 0 == 1)%Q -> r = 0%R).
Proof.
  intros Hb Hk Hk' Hpos Hle. split; [reflexivity|].
  assert (Hpos' : (0 < nth k' (data t) 0)%Q) by lra.
  unfold get_depth, Np.map_array. cbn [data].
  rewrite !(nth_indep _ NaN (depth_of beta 0)) by now rewrite length_map.
  rewrite !(map_nth (depth_of beta)).
  rewrite !depth_of_positive by assumption.
  pose proof (Q2R_pos beta Hb) as HbR.
  pose proof (Q2R_pos _ Hpos) as HtR.
  do 2 eexists. split; [reflexivity|]. split; [reflexivity|].
  split; [field; lra|]. split.
  - apply Qle_Rle in Hle. pose proof (ln_le_mono _ _ HtR Hle) as Hln.
    unfold Rdiv. apply Rmult_le_compat_r; [left; now apply Rinv_0_lt_compat|]. lra.
  - intros H1. apply Qeq_eqR in H1. rewrite H1, RMicromega.Q2R_1, ln_1.
    unfold Rdiv. rewrite Ropp_0. apply Rmult_0_l.
Qed.

Lemma depth_decreases_with_transmission_witness :
  shape (get_depth sample_dark (1 # 2)) = shape sample_dark /\
  exists r r',
    nth 0 (data (get_depth sample_dark (1 # 2))) NaN = Finite r /\
    nth 1 (data (get_depth sample_dark (1 # 2))) NaN = Finite r' /\
    (r * Q2R (1 # 2) = - ln (Q2R (nth 0 (data sample_dark) 0%Q)))%R /\
    (r' <= r)%R /\
    ((nth 0 (data sample_dark) 0 == 1)%Q -> r = 0%R).
Proof.
  apply (depth_decreases_with_transmission sample_dark (1 # 2) 0 1).
  - reflexivity.
  - simpl. lia.
  - simpl. lia.
  - reflexivity.
  - discriminate.
Defined.

(** ** Images that soft matting refuses *)

Lemma affinity_matrix_rank (I : ndarray Q) consts eps r :
  length (shape I) <> 3 -> affinity_matrix I consts eps r = Raise ValueError.
Proof.
  unfold affinity_matrix. intros H.
  destruct (shape I) as [|a [|b [|c [|d s]]]]; simpl in H; try reflexivity; lia.
Qed.

Lemma soft_matting_rank (cg : Sparse.matrix -> list Q -> result (list Q * Z))
    (I p : ndarray Q) (lam : Q) (kw : kwargs) (t : ndarray Q) :
  length (shape I) <> 3 -> soft_matting cg I p lam kw <> Ok t.
Proof.
  intros Hr H. unfold soft_matting in H.
  bind_inv H. bind_inv H. bind_inv H. bind_inv H. bind_inv H.
  unfold get_laplace_matting_matrix in E3.
  rewrite affinity_matrix_rank in E3 by assumption. discriminate.
Qed.

(** X14.  The matting Laplacian is built for images of three axes only:
    for an image of any other number of axes
    [get_laplace_matting_matrix] raises ValueError, and so does
    [soft_matting] called without options; with options, [soft_matting]
    never returns. *)
Theorem matting_needs_three_axes
  (cg : Sparse.matrix -> list Q -> result (list Q * Z))
  (I p : ndarray Q) (consts : option (ndarray bool)) (eps lam : Q) (r : nat) :
  length (shape I) <> 3 ->
  get_laplace_matting_matrix I consts eps r = Raise ValueError /\
  soft_matting cg I p lam [] = Raise ValueError /\
  forall kw t, soft_matting cg I p lam kw <> Ok t.
Proof.
  intros H. split; [|split].
  - unfold get_laplace_matting_matrix. now rewrite affinity_matrix_rank.
  - unfold soft_matting. cbn. unfold get_laplace_matting_matrix.
    now rewrite affinity_matrix_rank.
  - intros kw t. now apply soft_matting_rank.
Qed.

Lemma matting_needs_three_axes_witness :
  get_laplace_matting_matrix sample_dark None default_eps 1 = Raise ValueError /\
  soft_matting Sparse.cg sample_dark sample_dark default_lam [] = Raise ValueError /\
  forall kw t, soft_matting Sparse.cg sample_dark sample_dark default_lam kw <> Ok t.
Proof. apply matting_needs_three_axes. simpl. lia. Defined.

Lemma window_centers_first (h w r : nat) :
  2 * r < h -> 2 * r < w ->
  exists rest, window_centers h w r = (r, r) :: rest.
Proof.
  intros Hh Hw. unfold window_centers.
  destruct (w - r - r) as [|nw] eqn:Ew; [lia|].
  destruct (h - r - r) as [|nh] eqn:Eh; [lia|].
  simpl. eexists. reflexivity.
Qed.

(** X15.  When at least one window fits in the image and no mask is given,
    [get_laplace_matting_matrix] raises ValueError for an image whose last
    axis does not have exactly 3 channels. *)
Theorem matting_needs_three_channels (I : ndarray Q) (h w c r : nat) (eps : Q) :
  shape I = [h; w; c] -> c <> 3 -> 2 * r < h -> 2 * r < w ->
  get_laplace_matting_matrix I None eps r = Raise ValueError.
Proof.
  intros Hsh Hc Hh Hw. unfold get_laplace_matting_matrix, affinity_matrix.
  rewrite Hsh. cbn [bind].
  destruct ((Z.of_nat h - 2 * Z.of_nat r) * (Z.of_nat w - 2 * Z.of_nat r) <? 0)%Z eqn:E.
  { apply Z.ltb_lt in E. nia. }
  cbn [bind].
  destruct (window_centers_first h w r Hh Hw) as [rest ->].
  cbn [laplace_loop skip_window bind].
  unfold window_entries. apply Nat.eqb_neq in Hc. rewrite Hc. reflexivity.
Qed.

Lemma matting_needs_three_channels_witness :
  get_laplace_matting_matrix (NDArray [3; 3; 1] (repeat (1 # 2)%Q 9)) None default_eps 1
  = Raise ValueError.
Proof.
  apply (matting_needs_three_channels _ 3 3 1 1); try reflexivity; try discriminate;
    simpl; lia.
Defined.

(** ** Options of the refiners *)

Lemma kw_accept_keys (names : list string) (kw : kwargs) (k : string) (v : pyval) :
  kw_accept names kw = Ok tt -> In (k, v) kw -> In k names.
Proof.
  unfold kw_accept. intros H Hin.
  destruct (forallb _ kw) eqn:E; [|discriminate].
  rewrite forallb_forall in E. specialize (E _ Hin). cbn [fst] in E.
  apply existsb_exists in E. destruct E as [n [Hn Hk]].
  apply String.eqb_eq in Hk. now subst.
Qed.

Lemma refine_Ok_options (lib : libraries) method I p kw t (k : string) (v : pyval) :
  refine lib method I p kw = Ok t -> In (k, v) kw -> In k (refiner_options method).
Proof.
  unfold refine, refiner_options. intros H Hin.
  assert (Hsoft : (_ <- kw_accept ["lam"; "consts"; "eps"; "win_size"]%string kw ;;
                   lam <- kw_number "lam" default_lam kw ;;
                   soft_matting (lib_cg lib) I p lam
                     (filter (fun e => negb (fst e =? "lam")%string) kw)) = Ok t ->
                  In k ["lam"; "consts"; "eps"; "win_size"]%string).
  { intros H'. bind_inv H'. destruct v0. now apply (kw_accept_keys _ kw k v). }
  destruct method as [m|]; [|now apply Hsoft].
  destruct (m =? "soft")%string; [now apply Hsoft|].
  destruct (m =? "guided")%string.
  { bind_inv H. destruct v0. now apply (kw_accept_keys _ kw k v). }
  destruct (m =? "fast")%string; [|discriminate].
  bind_inv H. destruct v0. now apply (kw_accept_keys _ kw k v).
Qed.

(** X16.  [dehaze_image] never ignores an option: when it returns a bundle,
    every keyword it was given is an option of the refiner it ran
    ([lam], [consts], [eps], [win_size] for soft matting; [ks], [eps] for
    the guided filter; [ks], [eps], [s] for the fast guided filter). *)
Theorem dehaze_image_options_are_known
  (lib : libraries) I method patch_size top_ratio kw out (k : string) (v : pyval) :
  dehaze_image lib I method patch_size top_ratio kw = Ok out ->
  In (k, v) kw -> In k (refiner_options method).
Proof.
  intros H Hin. apply dehaze_image_stages in H.
  destruct H as (_ & _ & _ & _ & _ & Ht & _).
  now apply (refine_Ok_options lib method I _ kw _ k v Ht).
Qed.

(** A run of the pipeline that passes [lam]. *)
Lemma sample_run_with_lam :
  exists out,
    dehaze_image soft_libraries sample_image None default_patch_size (1 # 1000)
      [("lam"%string, PyFloat (1 # 2))] = Ok out.
Proof. eexists. vm_compute. reflexivity. Qed.

Lemma dehaze_image_options_are_known_witness :
  exists out,
    dehaze_image soft_libraries sample_image None default_patch_size (1 # 1000)
      [("lam"%string, PyFloat (1 # 2))] = Ok out /\
    In "lam"%string (refiner_options None).
Proof.
  destruct sample_run_with_lam as [out Hout]. exists out. split; [assumption|].
  exact (dehaze_image_options_are_known soft_libraries sample_image None
           default_patch_size (1 # 1000) [("lam"%string, PyFloat (1 # 2))] out
           "lam"%string (PyFloat (1 # 2)) Hout (or_introl eq_refl)).
Defined.

(** X17.  The method is checked before anything is computed: a name other
    than "soft", "guided" and "fast" raises NotImplementedError whatever
    the image and the options, and no name at all runs soft matting, with
    the result of the name "soft". *)
Theorem dehaze_image_method_selection
  (lib : libraries) I (m : string) patch_size top_ratio kw :
  ~ In m ["soft"; "guided"; "fast"]%string ->
  dehaze_image lib I (Some m) patch_size top_ratio kw = Raise NotImplementedError /\
  dehaze_image lib I None patch_size top_ratio kw =
  dehaze_image lib I (Some "soft"%string) patch_size top_ratio kw.
Proof.
  intros Hm. split; [|reflexivity].
  unfold dehaze_image. cbn [existsb].
  destruct (m =? "soft")%string eqn:E1; [apply String.eqb_eq in E1; exfalso; apply Hm; subst; simpl; auto|].
  destruct (m =? "guided")%string eqn:E2; [apply String.eqb_eq in E2; exfalso; apply Hm; subst; simpl; auto|].
  destruct (m =? "fast")%string eqn:E3; [apply String.eqb_eq in E3; exfalso; apply Hm; subst; simpl; auto|].
  reflexivity.
Qed.

Lemma dehaze_image_method_selection_witness :
  dehaze_image soft_libraries sample_image (Some "sharp"%string) default_patch_size
    (1 # 1000) [] = Raise NotImplementedError /\
  dehaze_image soft_libraries sample_image None default_patch_size (1 # 1000) [] =
  dehaze_image soft_libraries sample_image (Some "soft"%string) default_patch_size
    (1 # 1000) [].
Proof.
  apply dehaze_image_method_selection. simpl.
  intros [H|[H|[H|[]]]]; discriminate.
Defined.

(** ** The fast guided filter: scale and shape *)

(** X18.  [fast_guided_filter] needs a guide that is 2-D, or H x W x 3
    (which it turns to gray): any other guide raises ValueError, before
    any library function is called. *)
Theorem fast_guided_filter_needs_flat_guide
  (convolve : ndarray Q -> ndarray Q -> result (ndarray Q))
  (resize : ndarray Q -> list nat -> result (ndarray Q))
  (I p : ndarray Q) (ks : Z * Z) (eps : Q) (s : Z) :
  length (shape I) <> 2 -> is_rgb I = false ->
  fast_guided_filter convolve resize I p ks eps s = Raise ValueError.
Proof.
  unfold fast_guided_filter. intros H2 Hrgb. rewrite Hrgb.
  destruct (shape I) as [|a [|b [|c s']]]; simpl in H2; try reflexivity; lia.
Qed.

Lemma fast_guided_filter_needs_flat_guide_witness :
  fast_guided_filter not_reached not_reached (NDArray [1; 1; 1] [(1 # 2)%Q]) sample_dark
    default_ks default_guided_eps 4 = Raise ValueError.
Proof. apply fast_guided_filter_needs_flat_guide; [simpl; lia|reflexivity]. Defined.

(** X19.  For a guide that is 2-D or H x W x 3, a scale [s = 0] makes
    [fast_guided_filter] raise ZeroDivisionError (the sizes of the reduced
    image are H // s and W // s), before any library function is called. *)
Theorem fast_guided_filter_zero_scale
  (convolve : ndarray Q -> ndarray Q -> result (ndarray Q))
  (resize : ndarray Q -> list nat -> result (ndarray Q))
  (I p : ndarray Q) (ks : Z * Z) (eps : Q) :
  length (shape I) = 2 \/ is_rgb I = true ->
  fast_guided_filter convolve resize I p ks eps 0 = Raise ZeroDivisionError.
Proof.
  unfold fast_guided_filter. intros [H2|Hrgb].
  - assert (Hrgb : is_rgb I = false).
    { unfold is_rgb. rewrite H2. reflexivity. }
    rewrite Hrgb. destruct (shape I) as [|a [|b [|c s']]]; simpl in H2; try lia.
    reflexivity.
  - rewrite Hrgb. unfold is_rgb in Hrgb. apply andb_prop in Hrgb.
    destruct Hrgb as [Hl _]. apply Nat.eqb_eq in Hl.
    unfold _rgb2gray. cbn [shape].
    destruct (shape I) as [|a [|b [|c [|d s']]]]; simpl in Hl; try lia.
    reflexivity.
Qed.

Lemma fast_guided_filter_zero_scale_witness :
  fast_guided_filter not_reached not_reached sample_image sample_dark
    default_ks default_guided_eps 0 = Raise ZeroDivisionError.
Proof. apply fast_guided_filter_zero_scale. right. reflexivity. Defined.

(** ** The bundle of the pipeline *)

Lemma broadcast2_shape (f : Q -> Q -> option Q) (a b r : ndarray Q) :
  Np.broadcast2 f a b = Ok r ->
  Np.broadcast_shapes (shape a) (shape b) = Some (shape r).
Proof.
  unfold Np.broadcast2. destruct (Np.broadcast_shapes _ _) as [s|]; [|discriminate].
  destruct (forallb _ _); [|discriminate]. intros H. now injection H as <-.
Qed.

Lemma get_mask_shape (f : list Q -> list nat) (dc : ndarray Q) r (mask : ndarray bool) :
  get_mask f dc r = Ok mask -> shape mask = shape dc.
Proof.
  unfold get_mask. destruct (shape dc) as [|a [|b s]] eqn:E; try discriminate.
  intros H. injection H as <-. reflexivity.
Qed.

Lemma get_tilde_t_shape (im A t : ndarray Q) (h w : nat) omega kw :
  shape im = [h; w; 3] -> shape A = [3] ->
  get_tilde_t im A omega kw = Ok t -> shape t = [h; w].
Proof.
  intros Him HA H. unfold get_tilde_t in H.
  bind_inv H. rename v into im_A. bind_inv H. bind_inv H. bind_inv H.
  injection H as <-. unfold Np.map_array. cbn [shape].
  apply broadcast2_shape in E. unfold _expand_A_as_B in E. rewrite Him, HA in E.
  cbn [shape length Nat.sub] in E. cbv [Nat.iter nat_rect] in E.
  rewrite broadcast_shapes_11c in E. injection E as E.
  destruct (get_dark_channel_spec im_A h w v0) as [dc [Hdc [Hsh _]]];
    [left; now symmetry|].
  congruence.
Qed.

Lemma get_J_shape (I A t J : ndarray Q) (h w c : nat) t0 clip :
  shape I = [h; w; c] -> shape A = [c] -> shape t = [h; w] ->
  get_J I A t t0 clip = Ok J -> shape J = [h; w; c].
Proof.
  intros HI HA Ht H. unfold get_J in H.
  bind_inv H. rename v into d. bind_inv H. rename v into q. bind_inv H.
  injection H as <-.
  apply broadcast2_shape in E, E0, E1.
  unfold _expand_A_as_B, Np.clip, Np.map_array in *. rewrite HI, HA in *.
  cbn [shape length Nat.sub] in *. rewrite Ht in *.
  cbn [shape length Nat.sub] in *. cbv [Nat.iter nat_rect] in *. cbn [app] in *.
  rewrite broadcast_shapes_11c in E. injection E as E. rewrite <- E in E0.
  rewrite broadcast_shapes_hw1_r in E0. injection E0 as E0. rewrite <- E0 in E1.
  rewrite broadcast_shapes_11c in E1. injection E1 as E1.
  destruct clip; cbn [shape]; congruence.
Qed.

Lemma soft_matting_shape (cg : Sparse.matrix -> list Q -> result (list Q * Z))
    (I p t : ndarray Q) lam kw :
  soft_matting cg I p lam kw = Ok t -> shape t = shape p.
Proof.
  intros H. unfold soft_matting in H.
  bind_inv H. bind_inv H. bind_inv H. bind_inv H. bind_inv H. bind_inv H. bind_inv H.
  unfold reshape_like in H. destruct (_ =? _); [|discriminate].
  now injection H as <-.
Qed.

Lemma refine_soft (lib : libraries) (method : option string) I p kw t :
  method = None \/ method = Some "soft"%string ->
  refine lib method I p kw = Ok t ->
  exists lam kw', soft_matting (lib_cg lib) I p lam kw' = Ok t.
Proof.
  intros Hm H.
  assert (H' : refine lib None I p kw = Ok t) by (destruct Hm; subst; exact H).
  unfold refine in H'. bind_inv H'. bind_inv H'. eauto.
Qed.



(** X21.  Soft matting, which is the default, needs a colour image: for a
    2-D image [dehaze_image] ends in an exception when the method is
    "soft" or none, whatever the options and the libraries. *)
Theorem dehaze_image_soft_refuses_gray
  (lib : libraries) I method patch_size top_ratio kw (h w : nat) :
  shape I = [h; w] -> method = None \/ method = Some "soft"%string ->
  exists e, dehaze_image lib I method patch_size top_ratio kw = Raise e.
Proof.
  intros HI Hm.
  destruct (dehaze_image lib I method patch_size top_ratio kw) as [out|e] eqn:H;
    [exfalso|now exists e].
  apply dehaze_image_stages in H.
  destruct H as (_ & _ & _ & _ & _ & Ht & _).
  destruct (refine_soft lib method I _ kw _ Hm Ht) as (lam & kw' & Hs).
  apply soft_matting_rank in Hs; [assumption|]. rewrite HI. simpl. lia.
Qed.

Lemma dehaze_image_soft_refuses_gray_witness :
  exists e, dehaze_image soft_libraries sample_dark None default_patch_size (1 # 1000) []
            = Raise e.
Proof.
  apply (dehaze_image_soft_refuses_gray soft_libraries sample_dark None default_patch_size
           (1 # 1000) [] 1 2); [reflexivity|now left].
Defined.

(** ** Constant maps are fixed points of the refinement *)

Lemma row_weight_app es es' r :
  (row_weight (es ++ es') r == row_weight es r + row_weight es' r)%Q.
Proof. unfold row_weight. rewrite map_app. apply Qsum_app. Qed.

Lemma row_weight_diagonal (n : nat) (d : nat -> Q) r :
  r < n -> (row_weight (map (fun i => (i, i, d i)) (seq 0 n)) r == d r)%Q.
Proof.
  intros Hr. unfold row_weight. rewrite map_map. cbn [fst snd].
  rewrite (Qsum_seq_single _ n r); [|assumption|].
  - now rewrite Nat.eqb_refl.
  - intros k Hk. destruct (Nat.eqb_spec k r); [congruence|reflexivity].
Qed.

Lemma row_weight_scaled (k : Q) es r :
  (row_weight (map (fun e => (fst e, (k * snd e)%Q)) es) r == k * row_weight es r)%Q.
Proof.
  unfold row_weight. rewrite map_map. cbn [fst snd]. rewrite <- Qsum_map_scale.
  apply Qsum_map_ext. intros e _. destruct (_ =? _); ring.
Qed.

Lemma row_weight_negated es r :
  (row_weight (map (fun e => (fst e, (- snd e)%Q)) es) r == - row_weight es r)%Q.
Proof.
  rewrite <- (row_weight_scaled (-(1)) es r).
  - ring_simplify. unfold row_weight. rewrite !map_map. cbn [fst snd].
    apply Qsum_map_ext. intros e _. destruct (_ =? _); ring.
Qed.

(** Each row of [diags(sumA) - A] adds up to zero. *)
Lemma row_weight_laplace (n : nat) es r :
  r < n -> (row_weight (laplace_entries n es) r == 0)%Q.
Proof.
  intros Hr. unfold laplace_entries.
  rewrite row_weight_app, row_weight_negated.
  rewrite (row_weight_diagonal n
             (fun i => nth i (Sparse.row_sums (Sparse.Matrix n n es)) 0%Q) r Hr).
  rewrite row_sums_nth by assumption. ring.
Qed.

Lemma row_weight_regularized (n : nat) (lam : Q) es r :
  r < n -> (row_weight (regularized_entries n lam es) r == row_weight es r + lam)%Q.
Proof.
  intros Hr. unfold regularized_entries.
  rewrite row_weight_app, row_weight_scaled.
  rewrite (row_weight_diagonal n (fun i => nth i (repeat 1%Q n) 0%Q) r Hr).
  rewrite nth_repeat_lt by assumption. ring.
Qed.

Lemma regularized_in_range (n : nat) (lam : Q) es :
  Forall (in_range n n) es -> Forall (in_range n n) (regularized_entries n lam es).
Proof.
  intros Hin. unfold regularized_entries. apply Forall_app. split; [assumption|].
  apply Forall_forall. intros e He. rewrite map_map in He.
  apply in_map_iff in He. destruct He as [i [<- Hi]]. apply in_seq in Hi.
  split; cbn; lia.
Qed.

Lemma nth_constant (x : list Q) (c : Q) (k : nat) :
  Forall (fun v => (v == c)%Q) x -> k < length x -> (nth k x 0 == c)%Q.
Proof. intros H Hk. rewrite Forall_forall in H. apply H, nth_In, Hk. Qed.

(** A matrix times a constant vector: the row sums times the constant. *)
Lemma matvec_constant (n : nat) es (x : list Q) (c : Q) (r : nat) :
  Forall (in_range n n) es -> length x = n -> Forall (fun v => (v == c)%Q) x ->
  r < n ->
  (nth r (Sparse.matvec (Sparse.Matrix n n es) x) 0 == row_weight es r * c)%Q.
Proof.
  intros Hin Hlen Hc Hr. rewrite matvec_nth by exact Hr. cbn [Sparse.entries].
  unfold row_weight. rewrite Qsum_map_mul_r.
  apply Qsum_map_ext. intros e He.
  rewrite Forall_forall in Hin. destruct (Hin e He) as [_ Hcol].
  destruct (_ =? _); [|ring].
  rewrite (nth_constant x c) by (assumption || lia). reflexivity.
Qed.

(** A constant map solves the system of the refinement. *)
Lemma constant_solves (n : nat) (lam c : Q) triples (x : list Q) :
  Forall (in_range n n) (laplace_entries n triples) ->
  length x = n -> Forall (fun v => (v == c)%Q) x ->
  solves (Sparse.Matrix n n (regularized_entries n lam (laplace_entries n triples)))
         (map (Qmult lam) x) x.
Proof.
  intros Hin Hlen Hc. split; [exact Hlen|].
  apply Forall2_Qeq_of_nth.
  - unfold Sparse.matvec. cbn [Sparse.nrows].
    now rewrite !length_map, length_seq.
  - intros k Hk. unfold Sparse.matvec in Hk. cbn [Sparse.nrows] in Hk.
    rewrite length_map, length_seq in Hk.
    rewrite (matvec_constant n _ x c k) by (try apply regularized_in_range; assumption).
    rewrite row_weight_regularized, row_weight_laplace by assumption.
    rewrite nth_map_default by lia.
    rewrite (nth_constant x c) by (assumption || lia). ring.
Qed.

(** What a solution of the system is when the right-hand side comes from a
    constant map. *)
Lemma constant_refinement (I : ndarray Q) consts eps r L M (lam c : Q) (dp x : list Q) :
  get_laplace_matting_matrix I consts eps r = Ok L -> (0 <= eps)%Q -> (0 < lam)%Q ->
  regularized L lam = Ok M ->
  length dp = Sparse.nrows L -> Forall (fun v => (v == c)%Q) dp ->
  solves M (map (Qmult lam) dp) x ->
  Forall (fun v => (v == c)%Q) x.
Proof.
  intros HL Heps Hlam HM Hlen Hc Hx.
  destruct (laplacian_Ok_positive I consts eps r L HL Heps) as (n & es & -> & Hin & Hpsd).
  destruct (get_laplace_matting_matrix_Ok _ _ _ _ _ HL) as (A & _ & _ & HLA).
  injection HLA as Hn _ Hes. cbn [Sparse.nrows] in Hlen.
  apply regularized_Ok in HM. subst M.
  assert (Hdp : solves (Sparse.Matrix n n (regularized_entries n lam es))
                  (map (Qmult lam) dp) dp).
  { subst es. rewrite <- Hn in *.
    now apply (constant_solves n lam c (Sparse.entries A)). }
  pose proof (regularized_unique n es lam _ x dp Hin Hpsd Hlam Hx Hdp) as Heq.
  apply Forall_forall. intros v Hv.
  destruct (In_nth x v 0%Q Hv) as [k [Hk <-]].
  rewrite (Forall2_Qeq_nth _ _ Heq k).
  apply nth_constant; [assumption|].
  apply Forall2_length in Heq. lia.
Qed.


Lemma flat_refinements :
  exists L t1 t2,
    get_laplace_matting_matrix flat_image None default_eps 1 = Ok L /\
    Sparse.nrows L = 9 /\
    soft_matting checked_cg flat_image flat_transmission default_lam [] = Ok t1 /\
    get_t checked_spsolve L flat_transmission default_lam = Ok t2.
Proof.
  do 3 eexists. split; [vm_compute; reflexivity|]. split; [reflexivity|].
  split; vm_compute; reflexivity.
Qed.


(** ** The selection as the ratio varies *)

Lemma skipn_incl {A : Type} (a b : nat) (l : list A) :
  a <= b -> incl (skipn b l) (skipn a l).
Proof.
  intros Hab x Hx. replace b with ((b - a) + a) in Hx by lia.
  rewrite <- skipn_skipn in Hx.
  rewrite <- (firstn_skipn (b - a) (skipn a l)). apply in_or_app. now right.
Qed.

Lemma numpix_spec_mono (h w : nat) (r1 r2 : Q) :
  (r1 <= r2)%Q -> (numpix_spec h w r1 <= numpix_spec h w r2)%Z.
Proof.
  intros Hr. unfold numpix_spec. apply Z.max_le_compat_l. apply Qfloor_resp_le.
  rewrite !(Qmult_comm (inject_Z (Z.of_nat (h * w)))).
  apply Qmult_le_compat_r; [assumption|].
  replace 0%Q with (inject_Z 0) by reflexivity. rewrite <- Zle_Qle. lia.
Qed.

Section SelectionAndRatio.

Variable np_argsort : list Q -> list nat.

(** X23.  Raising [top_ratio] only adds pixels to the selection: for one
    dark channel and ratios [r1 <= r2], every pixel that [get_mask] marks
    for [r1] is marked for [r2] too. *)
Theorem mask_grows_with_ratio (dc : ndarray Q) (h w : nat) (r1 r2 : Q) :
  shape dc = [h; w] -> wf_array dc -> (r1 <= r2)%Q ->
  exists m1 m2,
    get_mask np_argsort dc r1 = Ok m1 /\ get_mask np_argsort dc r2 = Ok m2 /\
    forall k, k < h * w ->
      nth k (data m1) false = true -> nth k (data m2) false = true.
Proof.
  intros Hsh Hwf Hr.
  destruct (get_mask_spec np_argsort dc h w r1 Hsh Hwf) as [m1 [H1 [_ [_ Hn1]]]].
  destruct (get_mask_spec np_argsort dc h w r2 Hsh Hwf) as [m2 [H2 [_ [_ Hn2]]]].
  exists m1, m2. split; [assumption|]. split; [assumption|].
  intros k Hk. rewrite Hn1, Hn2 by assumption. rewrite !existsb_eqb_In.
  unfold Np.take_last. apply skipn_incl.
  pose proof (numpix_spec_mono h w r1 r2 Hr). lia.
Qed.

Hypothesis np_argsort_spec : forall l, Np.is_argsort l (np_argsort l).

Lemma take_last_one {A : Type} (l : list A) (d : A) :
  l <> [] -> Np.take_last 1 l = [last l d].
Proof.
  intros Hl. unfold Np.take_last.
  rewrite (app_removelast_last d Hl) at 2.
  rewrite (app_removelast_last d Hl) at 1.
  rewrite length_app. cbn [length]. rewrite Nat.add_sub.
  rewrite skipn_app, skipn_all, Nat.sub_diag. reflexivity.
Qed.


End SelectionAndRatio.

Lemma mask_grows_with_ratio_witness :
  exists m1 m2,
    get_mask Np.argsort sample_dark (1 # 1000) = Ok m1 /\
    get_mask Np.argsort sample_dark 1 = Ok m2 /\
    forall k, k < 1 * 2 ->
      nth k (data m1) false = true -> nth k (data m2) false = true.
Proof.
  apply (mask_grows_with_ratio Np.argsort sample_dark 1 2 (1 # 1000) 1);
    [reflexivity|reflexivity|discriminate].
Defined.


(** ** Images without a window to look at *)

(** The Laplacian of an affinity matrix without entries. *)
Lemma laplace_of_nothing (I : ndarray Q) consts eps r (n : nat) :
  affinity_matrix I consts eps r = Ok (Sparse.Matrix n n []) -> 1 < n ->
  exists L, get_laplace_matting_matrix I consts eps r = Ok L /\
            Sparse.nrows L = n /\ Sparse.ncols L = n /\
            forall p q, (Sparse.get L p q == 0)%Q.
Proof.
  intros HA Hn. unfold get_laplace_matting_matrix. rewrite HA. cbn [bind Sparse.nrows].
  destruct (Nat.eqb_spec n 1); [lia|]. cbn [bind].
  unfold Sparse.diags. rewrite row_sums_length. cbn [Sparse.nrows].
  rewrite Nat.eqb_refl. cbn [bind]. unfold Sparse.sub, Sparse.same_shape.
  cbn [Sparse.nrows Sparse.ncols Sparse.entries]. rewrite !Nat.eqb_refl. cbn [andb].
  eexists. split; [reflexivity|]. split; [reflexivity|]. split; [reflexivity|].
  intros p q. rewrite get_entry_get. cbn [map]. rewrite app_nil_r.
  rewrite entry_get_diagonal.
  destruct ((p =? q) && (p <? n)) eqn:E; [|reflexivity].
  apply andb_prop in E. destruct E as [_ Hp]. apply Nat.ltb_lt in Hp.
  now rewrite (row_sums_nth n [] p Hp).
Qed.

Lemma window_centers_none (h w r : nat) :
  h <= 2 * r \/ w <= 2 * r -> window_centers h w r = [].
Proof.
  intros [H|H]; unfold window_centers.
  - replace (h - r - r) with 0 by lia. cbn [seq map].
    induction (seq r (w - r - r)) as [|a l IH]; [reflexivity|exact IH].
  - replace (w - r - r) with 0 by lia. reflexivity.
Qed.

(** X25.  An image of more than one pixel that is smaller than a window in
    both directions (H <= 2 win_size and W <= 2 win_size) has no window:
    without a mask, [get_laplace_matting_matrix] returns the
    (H*W) x (H*W) matrix whose entries are all zero, whatever the number
    of channels. *)
Theorem laplacian_without_window (I : ndarray Q) (h w c r : nat) (eps : Q) :
  shape I = [h; w; c] -> 1 < h * w -> h <= 2 * r -> w <= 2 * r ->
  exists L, get_laplace_matting_matrix I None eps r = Ok L /\
            Sparse.nrows L = h * w /\ Sparse.ncols L = h * w /\
            forall p q, (Sparse.get L p q == 0)%Q.
Proof.
  intros Hsh Hn Hh Hw. apply laplace_of_nothing; [|assumption].
  unfold affinity_matrix. rewrite Hsh. cbn [bind].
  destruct ((Z.of_nat h - 2 * Z.of_nat r) * (Z.of_nat w - 2 * Z.of_nat r) <? 0)%Z eqn:E.
  { apply Z.ltb_lt in E. nia. }
  cbn [bind]. rewrite window_centers_none by now left. reflexivity.
Qed.

Lemma laplacian_without_window_witness :
  exists L, get_laplace_matting_matrix sample_image None default_eps 1 = Ok L /\
            Sparse.nrows L = 1 * 2 /\ Sparse.ncols L = 1 * 2 /\
            forall p q, (Sparse.get L p q == 0)%Q.
Proof.
  apply (laplacian_without_window sample_image 1 2 3 1 default_eps);
    [reflexivity|simpl; lia|lia|lia].
Defined.

(** ** A mask that constrains every pixel *)

Lemma erosion_of_full_mask (m : ndarray bool) (h w r i j : nat) :
  shape m = [h; w] -> length (data m) = h * w ->
  Forall (fun b => b = true) (data m) ->
  r <= i -> i + r < h -> r <= j -> j + r < w ->
  exists m', NdimageMorphology.binary_erosion m (r * 2 + 1) = Ok m' /\
             skip_window (Some m') i j = Ok true.
Proof.
  intros Hsh Hlen Hall Hi1 Hi2 Hj1 Hj2.
  unfold NdimageMorphology.binary_erosion. rewrite Hsh. eexists. split; [reflexivity|].
  unfold skip_window. cbn [shape data].
  assert (Hiw : (i <? h) && (j <? w) = true).
  { apply andb_true_intro. split; apply Nat.ltb_lt; lia. }
  rewrite Hiw. f_equal. rewrite tabulate2_nth by lia.
  assert (Hk : (r * 2 + 1) / 2 = r).
  { rewrite Nat.mul_comm. symmetry. apply (Nat.div_unique _ 2 r 1); lia. }
  rewrite Hk.
  apply forallb_forall. intros a Ha. apply in_seq in Ha.
  apply forallb_forall. intros b Hb. apply in_seq in Hb.
  repeat (apply andb_true_intro; split);
    try (apply Nat.leb_le; lia); try (apply Nat.ltb_lt; lia).
  rewrite Forall_forall in Hall. apply Hall, nth_In. nia.
Qed.

Lemma laplace_loop_all_skipped (I : ndarray Q) (w c r : nat) (eps : Q)
    (consts : option (ndarray bool)) (centers : list (nat * nat)) :
  (forall i j, In (i, j) centers -> skip_window consts i j = Ok true) ->
  laplace_loop I w c r eps consts centers = Ok [].
Proof.
  induction centers as [|[i j] rest IH]; intros H; [reflexivity|].
  cbn [laplace_loop]. rewrite (H i j) by now left. cbn [bind].
  rewrite IH by (intros; apply H; now right). reflexivity.
Qed.

(** X26.  Windows that lie in the constrained region are left out: when the
    mask [consts] has the size of the image and marks every pixel,
    [get_laplace_matting_matrix] returns, for an image of more than one
    pixel, the matrix whose entries are all zero. *)
Theorem laplacian_fully_constrained
  (I : ndarray Q) (m : ndarray bool) (h w c r : nat) (eps : Q) :
  shape I = [h; w; c] -> 1 < h * w ->
  shape m = [h; w] -> length (data m) = h * w ->
  Forall (fun b => b = true) (data m) ->
  exists L, get_laplace_matting_matrix I (Some m) eps r = Ok L /\
            Sparse.nrows L = h * w /\ Sparse.ncols L = h * w /\
            forall p q, (Sparse.get L p q == 0)%Q.
Proof.
  intros Hsh Hn Hm Hlen Hall. apply laplace_of_nothing; [|assumption].
  unfold affinity_matrix. rewrite Hsh.
  destruct (binary_erosion_shape m (r * 2 + 1) h w Hm) as [m' [Hm' _]].
  rewrite Hm'. cbn [bind].
  rewrite laplace_loop_all_skipped; [reflexivity|].
  intros i j Hin. apply window_centers_range in Hin.
  destruct Hin as (Hi1 & Hi2 & Hj1 & Hj2).
  destruct (erosion_of_full_mask m h w r i j Hm Hlen Hall Hi1 Hi2 Hj1 Hj2)
    as [m'' [Hm'' Hskip]].
  congruence.
Qed.

Lemma laplacian_fully_constrained_witness :
  exists L,
    get_laplace_matting_matrix textured_image (Some (NDArray [3; 3] (repeat true 9)))
      default_eps 1 = Ok L /\
    Sparse.nrows L = 3 * 3 /\ Sparse.ncols L = 3 * 3 /\
    forall p q, (Sparse.get L p q == 0)%Q.
Proof.
  apply (laplacian_fully_constrained textured_image (NDArray [3; 3] (repeat true 9))
           3 3 3 1 default_eps); try reflexivity.
  - simpl. lia.
  - repeat constructor.
Defined.

(** ** The guide of the guided filters *)

Lemma rgb2gray_not_rgb (I : ndarray Q) : is_rgb I = true -> is_rgb (_rgb2gray I) = false.
Proof.
  unfold is_rgb, _rgb2gray. intros H. apply andb_prop in H. destruct H as [Hl _].
  apply Nat.eqb_eq in Hl. cbn [shape].
  destruct (shape I) as [|a [|b [|c [|d s]]]]; simpl in Hl; try lia. reflexivity.
Qed.

(** X27.  The two guided filters use a colour guide through its gray
    levels only: for an H x W x 3 guide, [guided_filter] and
    [fast_guided_filter] give what they give for [_rgb2gray] of the guide,
    result or exception, whatever the library functions do. *)
Theorem guided_filters_use_gray_guide
  (convolve : ndarray Q -> ndarray Q -> result (ndarray Q))
  (resize : ndarray Q -> list nat -> result (ndarray Q))
  (I p : ndarray Q) (ks : Z * Z) (eps : Q) (s : Z) :
  is_rgb I = true ->
  guided_filter convolve I p ks eps = guided_filter convolve (_rgb2gray I) p ks eps /\
  fast_guided_filter convolve resize I p ks eps s =
  fast_guided_filter convolve resize (_rgb2gray I) p ks eps s.
Proof.
  intros H. unfold guided_filter, fast_guided_filter.
  rewrite H, (rgb2gray_not_rgb I H). split; reflexivity.
Qed.

Lemma guided_filters_use_gray_guide_witness :
  guided_filter not_reached sample_image sample_dark default_ks default_guided_eps =
  guided_filter not_reached (_rgb2gray sample_image) sample_dark default_ks
    default_guided_eps /\
  fast_guided_filter not_reached not_reached sample_image sample_dark default_ks
    default_guided_eps 4 =
  fast_guided_filter not_reached not_reached (_rgb2gray sample_image) sample_dark
    default_ks default_guided_eps 4.
Proof. apply guided_filters_use_gray_guide. reflexivity. Defined.
